(** * clean_mmt: losses, similarity scoring and the MMTwins forward pass

    A shallow embedding of [model/loss.py], [server.py], [compare.py] and
    the forward pass of [model/MMTwins.py].  Tensors of floats are nested
    lists of real numbers (the idealisation under which the losses are
    usually stated); the torch primitives the code calls are written out in
    [Torch] with the semantics of their documentation.  A statement over
    the reals gives the value of the formula the code evaluates; the code
    evaluates it in floating point, so its result carries the rounding of
    that formula's operations.  Where exact zeros decide a claim,
    [Float64] runs the same code on IEEE binary64 numbers. *)

From Stdlib Require Import String Ascii.
From Stdlib Require Import Reals Lra Lia Arith ZArith Bool List.
From Stdlib Require Floats.
Import ListNotations.
Open Scope R_scope.

Abbreviation vec := (list R).
Abbreviation mat := (list (list R)).
Abbreviation tensor3 := (list (list (list R))).
Abbreviation tensor4 := (list (list (list (list R)))).

(** ** Sums over index ranges (used to state the losses) *)

Fixpoint Rsum (n : nat) (f : nat -> R) : R :=
  match n with
  | O => 0
  | S k => Rsum k f + f k
  end.

(** Sum over the off-diagonal index pairs [(i, j)], [i <> j], of an
    [n x n] grid. *)
Definition offdiag_sum (n : nat) (f : nat -> nat -> R) : R :=
  Rsum n (fun i => Rsum n (fun j => if Nat.eqb i j then 0 else f i j)).

(** ** The torch primitives used by the sources *)

Module Torch.

Definition sum (l : vec) : R := fold_right Rplus 0 l.

Definition numel (x : mat) : nat := length (concat x).

(** [t.mean()] over every element of a 2-d tensor.  (Of an empty tensor
    torch returns nan; here the quotient is by [INR 0].) *)
Definition mean (x : mat) : R := sum (concat x) / INR (numel x).

(** [F.relu]. *)
Definition relu (v : R) : R := Rmax 0 v.

Definition cols (x : mat) : nat := length (hd [] x).

(** [th.diag] of a 2-d tensor: its main diagonal. *)
Definition diag (x : mat) : vec :=
  map (fun i => nth i (nth i x []) 0)
      (seq 0 (Nat.min (length x) (cols x))).

(** [v.unsqueeze(1)]: a vector as a column. *)
Definition unsqueeze1 (v : vec) : mat := map (fun a => [a]) v.

(** [c.expand(n, k)] of a column [c] of shape [n, 1]. *)
Definition expand (k : nat) (c : mat) : mat :=
  map (fun r => repeat (hd 0 r) k) c.

(** [t.contiguous().view(-1, 1)]: the elements in row-major order, one
    per row. *)
Definition view_col (x : mat) : mat := map (fun a => [a]) (concat x).

(** [t.flatten()]. *)
Definition flatten (x : mat) : vec := concat x.

(** [th.cat((a, b), 0)]. *)
Definition cat0 (a b : mat) : mat := a ++ b.

(** [t.transpose(0, 1)] (also [t.T]) of a 2-d tensor. *)
Definition transpose (x : mat) : mat :=
  map (fun j => map (fun r => nth j r 0) x) (seq 0 (cols x)).

Fixpoint map2 {A B C} (f : A -> B -> C) (a : list A) (b : list B) : list C :=
  match a, b with
  | x :: a', y :: b' => f x y :: map2 f a' b'
  | _, _ => []
  end.

(** Elementwise difference of two tensors of the same shape. *)
Definition sub (a b : mat) : mat := map2 (map2 Rminus) a b.

(** [s - t] for a scalar [s]. *)
Definition rsub (s : R) (t : mat) : mat := map (map (fun v => s - v)) t.

(** [t /= s]: every element divided by the scalar [s]. *)
Definition div_scalar (t : mat) (s : R) : mat := map (map (fun v => v / s)) t.

Definition ones (n k : nat) : mat := repeat (repeat 1 k) n.

Definition eye (n : nat) : mat :=
  map (fun i => map (fun j => if Nat.eqb i j then 1 else 0) (seq 0 n))
      (seq 0 n).

Definition is_nonzero (v : R) : bool :=
  if Req_dec_T v 0 then false else true.

(** [th.nonzero(v).flatten()] of a 1-d tensor: the positions of the
    nonzero elements, in increasing order. *)
Definition nonzero (v : vec) : list nat :=
  filter (fun p => is_nonzero (nth p v 0)) (seq 0 (length v)).

(** [th.index_select(t, dim=0, index=idx)]. *)
Definition index_select (t : mat) (idx : list nat) : mat :=
  map (fun p => nth p t []) idx.

Definition arange (n : nat) : list nat := seq 0 n.

(** [F.log_softmax(v, dim=-1)] of one row of logits. *)
Definition log_softmax (v : vec) : vec :=
  map (fun a => a - ln (sum (map exp v))) v.

(** [F.nll_loss(lp, target)] with [reduction='mean']: minus the
    log-probability of the target class, averaged over the rows. *)
Definition nll_loss (lp : mat) (target : list nat) : R :=
  sum (map2 (fun row t => - nth t row 0) lp target) / INR (length lp).

(** [nn.CrossEntropyLoss()] on logits [input] of shape [N, C] and class
    indices [target] of shape [N]: [nll_loss(log_softmax(input, 1),
    target)]. *)
Definition CrossEntropyLoss (input : mat) (target : list nat) : R :=
  nll_loss (map log_softmax input) target.

(** [t.mean(dim=-1)] of one vector.  (Of an empty vector torch returns
    nan; here the quotient is by [INR 0], a case the statements below
    exclude.) *)
Definition mean_vec (v : vec) : R := sum v / INR (length v).

(** [th.max(v, dim=-1)[0]] of one vector.  torch raises on an empty
    reduction dimension; the value 0 stands for that case, which the
    statements below exclude. *)
Definition max_vec (v : vec) : R :=
  match v with
  | [] => 0
  | a :: v' => fold_left Rmax v' a
  end.

(** [n] consecutive chunks of length [k] of a flat sequence: the rows of
    [flat.view(n, k)]. *)
Definition chunks {A} (n k : nat) (flat : list A) : list (list A) :=
  map (fun i => firstn k (skipn (i * k) flat)) (seq 0 n).

(** [t.view(n, k)] of a contiguous 2-d tensor. *)
Definition view2 (n k : nat) (t : mat) : mat := chunks n k (concat t).

(** [t.view(n, k)] of a contiguous 3-d tensor. *)
Definition view3_2 (n k : nat) (t : tensor3) : mat :=
  chunks n k (concat (concat t)).

(** [t.view(a, b, c, d)] of a contiguous 2-d tensor. *)
Definition view2_4 (a b c d : nat) (t : mat) : tensor4 :=
  chunks a b (chunks (a * b) c (chunks (a * b * c) d (concat t))).

(** [t.unsqueeze(1)] and [t.unsqueeze(0)] of a 3-d tensor. *)
Definition unsqueeze1_3 (t : tensor3) : tensor4 := map (fun m => [m]) t.
Definition unsqueeze0_3 (t : tensor3) : tensor4 := [t].

(** [t.repeat(1, k, 1, 1)] and [t.repeat(k, 1, 1, 1)] of a 4-d tensor. *)
Definition repeat_dim1 (k : nat) (t : tensor4) : tensor4 :=
  map (fun l => concat (repeat l k)) t.
Definition repeat_dim0 (k : nat) (t : tensor4) : tensor4 :=
  concat (repeat t k).

(** [t.permute(0, 1, 3, 2)]. *)
Definition permute_0132 (t : tensor4) : tensor4 := map (map transpose) t.

(** The default [eps=1e-12] of [F.normalize]. *)
Definition normalize_eps : R := / 10 ^ 12.

(** [v.norm(p=2)] of a vector. *)
Definition norm2 (v : vec) : R := sqrt (sum (map (fun a => a * a) v)).

(** [F.normalize(v, p=2, dim=-1)] of one vector:
    [v / max(||v||_2, eps)].  (In floating point the squared norm of a
    long vector overflows and the vector is normalised to zero; the values
    of [normalize] are stated for vectors of bounded norm.) *)
Definition normalize (v : vec) : vec :=
  map (fun a => a / Rmax (norm2 v) normalize_eps) v.

(** [F.normalize(t, dim=-1)] of a 3-d tensor. *)
Definition normalize3 (t : tensor3) : tensor3 := map (map normalize) t.

Definition dot (u v : vec) : R := sum (map2 Rmult u v).

(** [a @ b] ([th.matmul]) of 2-d tensors: entry [(i, j)] is the inner
    product of row [i] of [a] and column [j] of [b].  (The kernels of torch
    differ in the order in which they add the products, so their float
    results differ in rounding.) *)
Definition matmul (a b : mat) : mat :=
  map (fun r => map (dot r) (transpose b)) a.

(** [th.matmul] of 4-d tensors: the matrix product over the last two
    dimensions, batched over the first two. *)
Definition matmul4 (a b : tensor4) : tensor4 := map2 (map2 matmul) a b.

(** Reductions of a 2-d tensor over its first dimension. *)
Definition max_dim0 (m : mat) : vec := map max_vec (transpose m).
Definition mean_dim0 (m : mat) : vec := map mean_vec (transpose m).

(** [th.max(t, dim=0)[0]] of a 3-d tensor [t] of shape [a, b, c]: the
    [b x c] matrix of the maxima over the first dimension. *)
Definition max_dim0_3 (t : tensor3) : mat :=
  map (fun j =>
         map (fun k => max_vec (map (fun m => nth k (nth j m []) 0) t))
             (seq 0 (cols (hd [] t))))
      (seq 0 (length (hd [] t))).

End Torch.

(** ** Tensors shared with the caller

    [x /= c] writes through the reference the caller passed.  A store maps
    tensor references to their current contents; code that mutates runs
    in the state monad over it. *)

Module Heap.

Definition ref := nat.
Definition store := ref -> list (list R).
Definition St (A : Type) := store -> A * store.

Definition ret {A} (a : A) : St A := fun s => (a, s).
Definition bind {A B} (m : St A) (k : A -> St B) : St B :=
  fun s => let (a, s') := m s in k a s'.

Definition read (r : ref) : St (list (list R)) := fun s => (s r, s).

(** Writing a tensor.  Every reference stands for a tensor with a storage
    of its own; views that share the storage of another tensor are not
    represented. *)
Definition update (s : store) (r : ref) (v : list (list R)) : store :=
  fun r' => if Nat.eqb r' r then v else s r'.

(** [r /= c], in place. *)
Definition idiv (r : ref) (c : R) : St unit :=
  fun s => (tt, update s r (Torch.div_scalar (s r) c)).

End Heap.

Declare Scope heap_scope.
Delimit Scope heap_scope with heap.
Notation "v <- m ;; k" := (Heap.bind m (fun v => k))
  (at level 61, m at next level, right associativity) : heap_scope.
Notation "m ;;; k" := (Heap.bind m (fun _ => k))
  (at level 61, right associativity) : heap_scope.

(** A nested list of shape [n, k]: [n] rows of length [k]. *)
Definition has_shape {A} (n k : nat) (x : list (list A)) : Prop :=
  length x = n /\ Forall (fun r => length r = k) x.

(** A 3-d tensor of shape [b, t, d]. *)
Definition has_shape3 (b t d : nat) (x : tensor3) : Prop :=
  length x = b /\ Forall (has_shape t d) x.

(** ** model/loss.py *)

Module MaxMarginRankingLoss.
Import Torch.

(** [MaxMarginRankingLoss.forward], with the attributes [margin] and
    [fix_norm] of [self] as arguments. *)
Definition forward (margin : R) (fix_norm : bool) (x : mat) : R :=
  let n := length x in
  let x1 := diag x in
  let x1 := unsqueeze1 x1 in
  let x1 := expand n x1 in
  let x1 := view_col x1 in
  let x1 := cat0 x1 x1 in
  let x2 := view_col x in
  let x3 := view_col (transpose x) in
  let x2 := cat0 x2 x3 in
  let max_margin := map (map relu) (rsub margin (sub x1 x2)) in
  let max_margin :=
    if fix_norm then
      let keep := sub (ones (length x) (cols x)) (eye (length x)) in
      let keep1 := view_col keep in
      let keep2 := view_col (transpose keep) in
      let keep_idx := nonzero (flatten (cat0 keep1 keep2)) in
      let x1_ := index_select x1 keep_idx in
      let x2_ := index_select x2 keep_idx in
      map (map relu) (rsub margin (sub x1_ x2_))
    else max_margin in
  mean max_margin.

End MaxMarginRankingLoss.

(** ** The max-margin loss on float64 tensors

    [MaxMarginRankingLoss.forward] as it runs on a tensor of dtype
    [torch.float64]: the same operations on IEEE binary64 numbers, rounded
    to nearest as the hardware does. *)

Module Float64.
Import PrimFloat.

Abbreviation fvec := (list float).
Abbreviation fmat := (list (list float)).

(** The real number a finite float stands for. *)
Definition to_R (f : float) : R :=
  match FloatOps.Prim2SF f with
  | SpecFloat.S754_finite s m e =>
      (if s then -1 else 1) * IZR (Zpos m) * powerRZ 2 e
  | _ => 0
  end.

Definition of_nat (n : nat) : float := of_uint63 (Uint63.of_Z (Z.of_nat n)).

(** The sum of a vector, taken from left to right.  (torch does not fix
    the order of a reduction.) *)
Definition sum (l : fvec) : float := fold_left add l zero.

(** [t.mean()] *)
Definition mean (x : fmat) : float :=
  div (sum (concat x)) (of_nat (length (concat x))).

(** [F.relu] *)
Definition relu (v : float) : float := if leb v zero then zero else v.

Definition cols (x : fmat) : nat := length (hd [] x).

Definition diag (x : fmat) : fvec :=
  map (fun i => nth i (nth i x []) zero)
      (seq 0 (Nat.min (length x) (cols x))).

Definition unsqueeze1 (v : fvec) : fmat := map (fun a => [a]) v.

Definition expand (k : nat) (c : fmat) : fmat :=
  map (fun r => repeat (hd zero r) k) c.

Definition view_col (x : fmat) : fmat := map (fun a => [a]) (concat x).

Definition flatten (x : fmat) : fvec := concat x.

Definition cat0 (a b : fmat) : fmat := a ++ b.

Definition transpose (x : fmat) : fmat :=
  map (fun j => map (fun r => nth j r zero) x) (seq 0 (cols x)).

Definition sub (a b : fmat) : fmat := Torch.map2 (Torch.map2 PrimFloat.sub) a b.

Definition rsub (s : float) (t : fmat) : fmat :=
  map (map (fun v => PrimFloat.sub s v)) t.

Definition ones (n k : nat) : fmat := repeat (repeat one k) n.

Definition eye (n : nat) : fmat :=
  map (fun i => map (fun j => if Nat.eqb i j then one else zero) (seq 0 n))
      (seq 0 n).

Definition is_nonzero (v : float) : bool := negb (eqb v zero).

Definition nonzero (v : fvec) : list nat :=
  filter (fun p => is_nonzero (nth p v zero)) (seq 0 (length v)).

Definition index_select (t : fmat) (idx : list nat) : fmat :=
  map (fun p => nth p t []) idx.

(** [MaxMarginRankingLoss.forward] *)
Definition MaxMarginRankingLoss_forward
           (margin : float) (fix_norm : bool) (x : fmat) : float :=
  let n := length x in
  let x1 := diag x in
  let x1 := unsqueeze1 x1 in
  let x1 := expand n x1 in
  let x1 := view_col x1 in
  let x1 := cat0 x1 x1 in
  let x2 := view_col x in
  let x3 := view_col (transpose x) in
  let x2 := cat0 x2 x3 in
  let max_margin := map (map relu) (rsub margin (sub x1 x2)) in
  let max_margin :=
    if fix_norm then
      let keep := sub (ones (length x) (cols x)) (eye (length x)) in
      let keep1 := view_col keep in
      let keep2 := view_col (transpose keep) in
      let keep_idx := nonzero (flatten (cat0 keep1 keep2)) in
      let x1_ := index_select x1 keep_idx in
      let x2_ := index_select x2 keep_idx in
      map (map relu) (rsub margin (sub x1_ x2_))
    else max_margin in
  mean max_margin.

(** The matrix [[1, 2^-70], [0, 1]] of dtype float64. *)
Definition near_margin : fmat := [[1; 0x1p-70]; [0; 1]]%float.

End Float64.

Module InfoNceLoss.
Import Torch Heap.
Local Open Scope heap_scope.

(** [InfoNceLoss.forward]; [T] is [self.T], [x] the reference of the
    argument.  Device placement ([.cuda()]) is not modelled. *)
Definition forward (T : R) (x : ref) : St R :=
  idiv x T ;;;
  xv <- read x ;;
  let n := length xv in
  let target := arange n in
  ret (CrossEntropyLoss xv target + CrossEntropyLoss (transpose xv) target).

End InfoNceLoss.

Module BarlowTwinsLoss.
Import Torch Heap.
Local Open Scope heap_scope.

(** [BarlowTwinsLoss.forward]; [lambd] is [self.lambd], stored by
    [__init__].  The string literal that opens the body is not executed.
    The targets are moved to the GPU with [.cuda()]: the definition
    describes a run on a machine with CUDA; without it that call raises. *)
Definition forward (lambd : R) (c : ref) : St R :=
  idiv c (7 / 100) ;;;
  cv <- read c ;;
  let d := length cv in
  let target := arange d in
  let loss := CrossEntropyLoss cv target
              + CrossEntropyLoss (transpose cv) target in
  ret loss.

End BarlowTwinsLoss.

(** ** server.py *)

Module Server.
Import Torch.

Record similarities := { t2v : list (list R); v2t : list (list R) }.

Definition cpt_mean_maximum_similarity (vid_rep txt_rep : tensor3)
  : similarities :=
  let txt_bs := length txt_rep in
  let vid_bs := length vid_rep in
  let txt_rep_norm := normalize3 txt_rep in
  let vid_rep_norm := normalize3 vid_rep in
  let txt_rep_norm := repeat_dim1 vid_bs (unsqueeze1_3 txt_rep_norm) in
  let vid_rep_norm := repeat_dim0 txt_bs (unsqueeze0_3 vid_rep_norm) in
  let sim := matmul4 txt_rep_norm (permute_0132 vid_rep_norm) in
  let t2v := map (map mean_vec) (map (map (map max_vec)) sim) in
  let v2t := map (map mean_vec) (map (map max_dim0) sim) in
  let t2v := view2 txt_bs vid_bs t2v in
  let v2t := view2 vid_bs txt_bs v2t in
  {| t2v := t2v; v2t := v2t |}.

Definition cpt_mean_maximum_similarity2 (vid_rep txt_rep : tensor3)
  : similarities :=
  let txt_bs := length txt_rep in
  let txt_n_tokens := length (hd [] txt_rep) in
  let txt_dim := length (hd [] (hd [] txt_rep)) in
  let vid_bs := length vid_rep in
  let vid_n_tokens := length (hd [] vid_rep) in
  let vid_dim := length (hd [] (hd [] vid_rep)) in
  let txt_rep_norm := normalize3 txt_rep in
  let vid_rep_norm := normalize3 vid_rep in
  let txt_rep_norm := view3_2 (txt_bs * txt_n_tokens) txt_dim txt_rep_norm in
  let vid_rep_norm := view3_2 (vid_bs * vid_n_tokens) vid_dim vid_rep_norm in
  let sim := matmul txt_rep_norm (transpose vid_rep_norm) in
  let sim := view2_4 txt_bs txt_n_tokens vid_bs vid_n_tokens sim in
  let t2v := map mean_dim0 (map (map (map max_vec)) sim) in
  let v2t := map (map mean_vec) (map max_dim0_3 sim) in
  {| t2v := t2v; v2t := v2t |}.

End Server.

(** Token-level max-mean similarity after the words of the specification:
    the mean over the tokens [ta] of a caption of the maximum over the
    tokens [vb] of a video of [score ta vb]. *)
Definition mean_max (score : list R -> list R -> R)
           (caption video : list (list R)) : R :=
  Torch.mean_vec
    (map (fun ta => Torch.max_vec (map (fun vb => score ta vb) video)) caption).

(** The scores both routines reduce: for the normalised tokens of a
    caption [t] and of a video [v], the matrix of their inner products, and
    the two reductions of it. *)
Definition token_scores (t v : list (list R)) : list (list R) :=
  map (fun r => map (Torch.dot r) v) t.

Definition t2v_of (tn vn : tensor3) : list (list R) :=
  map (fun t =>
         map (fun v => Torch.mean_vec (map Torch.max_vec (token_scores t v))) vn)
      tn.

Definition v2t_of (tn vn : tensor3) : list (list R) :=
  map (fun t =>
         map (fun v => Torch.mean_vec (Torch.max_dim0 (token_scores t v))) vn)
      tn.

(** ** model/MMTwins.py: similarity *)

(** [sharded_cross_view_inner_product]; [F.normalize(t, dim=1)] of a 2-d
    tensor normalises each row. *)
Definition sharded_cross_view_inner_product
           (vid_rep txt_rep : mat) (subspaces : list string) : mat :=
  let txt_rep_norm := map Torch.normalize txt_rep in
  let vid_rep_norm := map Torch.normalize vid_rep in
  let sims := Torch.matmul txt_rep_norm (Torch.transpose vid_rep_norm) in
  sims.

(** [cpt_cross_corrletaion_matrix] *)
Definition cpt_cross_corrletaion_matrix
           (vid_embd_CL txt_embd_CL : list (list R)) (subspaces : list string)
  : list (list R) :=
  let cross_corr_mat := Torch.matmul (Torch.transpose vid_embd_CL) txt_embd_CL in
  cross_corr_mat.

(** A vector with at least one nonzero component. *)
Definition nonzero_vec (v : list R) : Prop := Exists (fun a => a <> 0) v.

(** Cosine similarity [<u, v> / (||u|| * ||v||)]. *)
Definition cosine_similarity (u v : list R) : R :=
  Torch.dot u v / (Torch.norm2 u * Torch.norm2 v).

(** The score of two rows or tokens: the inner product after
    [F.normalize]. *)
Definition normalized_dot (a b : list R) : R :=
  Torch.dot (Torch.normalize a) (Torch.normalize b).

(** The norms up to which the values of [F.normalize] are stated:
    [F.normalize] computes the norm in the tensor's float type, where the
    squared norm of a longer vector overflows (beyond about [1.8e19] in
    float32) and the vector is normalised to zero. *)
Definition norm_bound : R := 10 ^ 18.

Definition bounded_rows (x : list (list R)) : Prop :=
  Forall (fun r => Torch.norm2 r <= norm_bound) x.

Definition bounded_tokens (x : list (list (list R))) : Prop :=
  Forall bounded_rows x.

(** Mean-reduced softmax cross-entropy with integer class targets, after
    the words of the specification: the mean over the [n] rows [i] of
    [- ln (exp z[i][t i] / sum_k exp z[i][k])], for logits [z] of shape
    [n, n]. *)
Definition softmax_cross_entropy (n : nat) (z : nat -> nat -> R)
           (t : nat -> nat) : R :=
  Rsum n (fun i => - ln (exp (z i (t i)) / Rsum n (fun k => exp (z i k))))
  / INR n.

(** The Barlow Twins cross-correlation objective, after the words of the
    specification: [sum_i (c[i][i] - 1)^2 + lambd * sum_{i<>j} c[i][j]^2]. *)
Definition barlow_twins_objective (lambd : R) (d : nat) (c : list (list R)) : R :=
  Rsum d (fun i => (nth i (nth i c []) 0 - 1) ^ 2)
  + lambd * offdiag_sum d (fun i j => (nth j (nth i c []) 0) ^ 2).

(** ** Python control flow: exceptions, dictionaries, unbound locals *)

Module Py.

Inductive exn :=
| KeyError | UnboundLocalError | NotImplementedError | AttributeError
| IndexError | RuntimeError.

Inductive result (A : Type) :=
| Ok (a : A)
| Err (e : exn).
Arguments Ok {A} a.
Arguments Err {A} e.

Definition ret {A} (a : A) : result A := Ok a.

Definition bind {A B} (m : result A) (k : A -> result B) : result B :=
  match m with
  | Ok a => k a
  | Err e => Err e
  end.

(** A [for] loop threading the variables it assigns. *)
Fixpoint foldM {A S} (f : S -> A -> result S) (l : list A) (s : S)
  : result S :=
  match l with
  | [] => Ok s
  | a :: l' => bind (f s a) (foldM f l')
  end.

(** Insertion-ordered dictionaries with string keys. *)
Definition dict (V : Type) := list (string * V).

Fixpoint get {V} (d : dict V) (k : string) : result V :=
  match d with
  | [] => Err KeyError
  | (k', v) :: d' => if String.eqb k k' then Ok v else get d' k
  end.

Fixpoint set {V} (d : dict V) (k : string) (v : V) : dict V :=
  match d with
  | [] => [(k, v)]
  | (k', v') :: d' =>
      if String.eqb k k' then (k, v) :: d' else (k', v') :: set d' k v
  end.

(** Reading a local variable that only some branch assigns. *)
Definition local {A} (x : option A) : result A :=
  match x with
  | Some a => Ok a
  | None => Err UnboundLocalError
  end.

(** An attribute that [__init__] may not have set. *)
Definition attr {A} (x : option A) : result A :=
  match x with
  | Some a => Ok a
  | None => Err AttributeError
  end.

(** [s in [l1, l2, ...]] *)
Definition str_in (s : string) (l : list string) : bool :=
  existsb (String.eqb s) l.

End Py.

Declare Scope py_scope.
Delimit Scope py_scope with py.
Notation "v <- m ;; k" := (Py.bind m (fun v => k))
  (at level 61, m at next level, right associativity) : py_scope.

(** More tensor operations, used by the forward pass. *)

Module TorchExt.
Import Torch.

(** [th.full((b,), v)] *)
Definition full {A} (b : nat) (v : A) : list A := repeat v b.

(** [th.stack(l, dim=1)] of tensors whose first dimension is [b]. *)
Definition stack1 {A} (d : A) (b : nat) (l : list (list A)) : list (list A) :=
  map (fun i => map (fun v => nth i v d) l) (seq 0 b).

(** [t.size()[1]] of a 3-d tensor (of a non-empty batch: nested lists do
    not record the inner extents of an empty one). *)
Definition size1 (t : tensor3) : nat := length (hd [] t).

(** [v.to(dtype=th.long)]: truncation towards zero. *)
Definition to_long (r : R) : Z :=
  if Rle_dec 0 r then Int_part r else (- Int_part (- r))%Z.

(** [t.clamp_(min=lo, max=hi)] on one element. *)
Definition clamp (lo hi v : R) : R := Rmin (Rmax v lo) hi.

(** [t[:, k]] of a 2-d tensor and [t[:, k, :]] of a 3-d tensor. *)
Definition column {A} (d : A) (k : nat) (t : list (list A)) : list A :=
  map (fun row => nth k row d) t.

(** [t[:, k]] of a 2-d tensor that is indexed with a computed [k]:
    [IndexError] when [t] has no column [k]. *)
Definition column_at {A} (d : A) (k : nat) (t : list (list A))
  : Py.result (list A) :=
  if forallb (fun row => Nat.ltb k (length row)) t
  then Py.Ok (column d k t)
  else Py.Err Py.IndexError.

(** [th.max(t, 1)[0]] of a 2-d tensor: [IndexError] when the reduced
    dimension is empty. *)
Definition max_dim1 (t : mat) : Py.result vec :=
  if forallb (fun row => negb (Nat.eqb (length row) 0)) t
  then Py.Ok (map max_vec t)
  else Py.Err Py.IndexError.

(** [th.cat(l, dim=-1)] of 2-d tensors of batch size [b]: [RuntimeError]
    on the empty list. *)
Definition cat_last (b : nat) (l : list mat) : Py.result mat :=
  match l with
  | [] => Py.Err Py.RuntimeError
  | _ :: _ => Py.Ok (map (fun i => concat (map (fun o => nth i o []) l))
                         (seq 0 b))
  end.

(** [th.mean(t, 1)] of a 3-d tensor. *)
Definition mean_dim1 (t : tensor3) : mat := map mean_dim0 t.

(** [F.normalize(t, p=1, dim=-1)] of one vector. *)
Definition normalize_p1 (v : vec) : vec :=
  map (fun a => a / Rmax (sum (map Rabs v)) normalize_eps) v.

(** [F.softmax(t, dim=1)] of one row.  (Over the reals no entry is 0; in
    floating point an entry far below the maximum underflows to 0.) *)
Definition softmax (v : vec) : vec :=
  map (fun a => exp a / sum (map exp v)) v.

(** [t[:, idx] = col] on a 2-d tensor. *)
Definition assign_column (idx : nat) (col : vec) (t : mat) : mat :=
  map (fun r =>
         firstn idx (nth r t []) ++ [nth r col 0] ++ skipn (S idx) (nth r t []))
      (seq 0 (length t)).

(** Elementwise product of two 2-d tensors. *)
Definition mul (a b : mat) : mat := map2 (map2 Rmult) a b.

End TorchExt.

(** ** model/MMTwins.py: the modules and the forward pass *)

Module MMTwins.
Import Torch TorchExt Py.
Local Open Scope string_scope.
Local Open Scope list_scope.
Local Open Scope py_scope.

(** [nn.Linear]: [x @ weight.T + bias] on the last dimension. *)
Record Linear := { weight : list (list R); bias : option (list R) }.

Definition Linear_vec (l : Linear) (v : vec) : vec :=
  let y := map (fun w => dot w v) (weight l) in
  match bias l with
  | Some b => map2 Rplus y b
  | None => y
  end.

Definition Linear_forward (l : Linear) (x : mat) : mat := map (Linear_vec l) x.

(** [ReduceDim]: [fc] followed by [F.normalize(x, dim=-1)]. *)
Record ReduceDim := { fc : Linear }.

Definition ReduceDim_forward (m : ReduceDim) (x : mat) : mat :=
  let x := Linear_forward (fc m) x in
  map normalize x.

(** The layers [__init__] puts into the projection heads. *)
Inductive layer :=
| LinearLayer (l : Linear)
| BatchNorm1dLayer (f : list (list R) -> list (list R))
| ReLULayer.

Definition layer_forward (l : layer) (x : mat) : mat :=
  match l with
  | LinearLayer l => Linear_forward l x
  | BatchNorm1dLayer f => f x
  | ReLULayer => map (map relu) x
  end.

(** [nn.Sequential] *)
Definition Sequential := list layer.

Definition Sequential_forward (s : Sequential) (x : mat) : mat :=
  fold_left (fun x l => layer_forward l x) s x.

Record expert_dim := { dim : nat; idx : Z }.

(** The attributes of [self] that [forward] reads.  [vid_bert] and
    [txt_bert] (model/bert.py and the transformers library) are taken as
    functions returning the last layer [output[0]].  The batch
    normalisation [bn] ([affine=False]) is a function of its input: of the
    batch alone when training, of the stored statistics when evaluating;
    the statistics it updates are not read again within one call of
    [forward].  [moe_vid_dropout] and [moe_fc_vid] are attributes
    [compute_weights_from_emb] reads although [__init__] does not set
    them. *)
Record self := {
  expert_dims : dict expert_dim;
  keep_missing_modalities : bool;
  same_dim : nat;
  txt_agg : string;
  txt_wgh : string;
  vid_inp : string;
  vid_cont : string;
  vid_wgh : string;
  pos_enc : string;
  out_tok : string;
  max_position_embeddings : Z;
  video_dim_reduce : dict ReduceDim;
  vid_bert : list (list Z) -> list (list Z) -> list (list Z) ->
             option (list (list Z)) -> tensor3 -> tensor3;
  txt_bert : list (list Z) -> list (list Z) -> list (list Z) ->
             list (list Z) -> tensor3;
  txt_avg2rep : Linear;
  vid_avg2rep : Linear;
  txt_projector : Sequential;
  vid_projector : Sequential;
  bn : list (list R) -> list (list R);
  moe_vid_dropout : option (list (list R) -> list (list R));
  moe_fc_vid : option (dict Linear)
}.

(** [self.modalities = list(expert_dims.keys())] *)
Definition modalities (s : self) : list string := map fst (expert_dims s).

(** The arguments of [forward] ([query_masks], [device] and [debug] do
    not enter the computation). *)
Record inputs := {
  token_ids : tensor4;
  features : dict tensor3;
  features_t : dict (list (list R));
  features_ind : dict (list (list R));
  features_avgpool : dict (list (list R));
  features_maxpool : dict (list (list R));
  out : string
}.

(** [compute_weights_from_emb], for a 2-d embedding (the only rank
    [forward] passes). *)
Definition compute_weights_from_emb (s : self) (embd : mat) : result mat :=
  dropout <- attr (moe_vid_dropout s) ;;
  let embd := dropout embd in
  outs <- foldM (fun acc md =>
                   fcs <- attr (moe_fc_vid s) ;;
                   l <- get fcs md ;;
                   ret (acc ++ [Linear_forward l embd]))
                (modalities s) [] ;;
  moe_weights <- cat_last (length embd) outs ;;
  let moe_weights := map softmax moe_weights in
  ret moe_weights.

(** [compute_weights_from_norm], for 2-d embeddings. *)
Definition compute_weights_from_norm (s : self) (embds : dict mat)
  : result mat :=
  match modalities s with
  | [] => Err IndexError
  | md0 :: _ =>
      e0 <- get embds md0 ;;
      let b := length e0 in
      let m := length (modalities s) in
      let norm_embd := repeat (repeat 0 m) b in
      norm_embd <-
        foldM (fun ne im =>
                 e <- get embds (snd im) ;;
                 ret (assign_column (fst im) (map norm2 e) ne))
              (combine (seq 0 m) (modalities s)) norm_embd ;;
      let sum_norm := map (fun row => [sum row]) norm_embd in
      let weights :=
        map2 (fun row sn => map (fun v => v / hd 0 sn) row) norm_embd sum_norm in
      ret weights
  end.

(** The five lists the video tokens are appended to, with
    [modality_to_tok_map] and [tok_id]. *)
Record vid_lists := {
  input_ids_list : list (list Z);
  token_type_ids_list : list (list Z);
  position_ids_list : list (list Z);
  features_list : list (list (list R));
  attention_mask_list : list (list Z);
  modality_to_tok_map : dict nat;
  tok_id : nat
}.

Definition append_opt {A} (l : list A) (x : option A) : list A :=
  match x with
  | Some a => l ++ [a]
  | None => l
  end.

(** The [[CLS]] token. *)
Definition cls_lists (s : self) (b : nat) : vid_lists :=
  {| input_ids_list := [full b 0%Z];
     token_type_ids_list := [full b 0%Z];
     position_ids_list := [full b 0%Z];
     features_list := [repeat (repeat 0 (same_dim s)) b];
     attention_mask_list := [full b 1%Z];
     modality_to_tok_map := [];
     tok_id := 0 |}.

(** The aggregated feature token of one modality. *)
Definition add_agg_token (s : self) (b : nat) (ind : dict vec)
           (mnp_experts maxp_experts : option (dict mat))
           (token_type : Z) (modality : string) (st : vid_lists)
  : result vid_lists :=
  let tok := S (tok_id st) in
  feat <-
    (if String.eqb (out_tok s) "sep"
     then ret (Some (repeat (repeat 0 (same_dim s)) b))
     else if String.eqb (out_tok s) "mxp"
     then d <- local maxp_experts ;; v <- get d modality ;; ret (Some v)
     else if String.eqb (out_tok s) "mnp"
     then d <- local mnp_experts ;; v <- get d modality ;; ret (Some v)
     else ret None) ;;
  i <- get ind modality ;;
  ret {| input_ids_list := input_ids_list st ++ [full b 2%Z];
         token_type_ids_list := token_type_ids_list st ++ [full b token_type];
         position_ids_list := position_ids_list st ++ [full b 0%Z];
         features_list := append_opt (features_list st) feat;
         attention_mask_list := attention_mask_list st ++ [map to_long i];
         modality_to_tok_map := set (modality_to_tok_map st) modality tok;
         tok_id := tok |}.

(** One temporal feature token of one modality. *)
Definition add_frame_token (s : self) (b : nat)
           (experts_feats : dict tensor3)
           (experts_feats_t : dict (list (list Z)))
           (experts_feats_ind : dict mat)
           (token_type : Z) (modality : string)
           (st : vid_lists) (frame_id : nat) : result vid_lists :=
  pos <-
    (if String.eqb (pos_enc s) "ordr"
     then ret (Some (full b (Z.of_nat frame_id + 1)%Z))
     else if String.eqb (pos_enc s) "tint"
     then t <- get experts_feats_t modality ;;
          c <- column_at 0%Z frame_id t ;;
          ret (Some c)
     else if String.eqb (pos_enc s) "type"
     then ret (Some (full b 1%Z))
     else ret None) ;;
  x <- get experts_feats modality ;;
  fi <- get experts_feats_ind modality ;;
  mask <- column_at 0 frame_id fi ;;
  ret {| input_ids_list := input_ids_list st ++ [full b 6%Z];
         token_type_ids_list := token_type_ids_list st ++ [full b token_type];
         position_ids_list := append_opt (position_ids_list st) pos;
         features_list := features_list st ++ [column [] frame_id x];
         attention_mask_list := attention_mask_list st ++ [map to_long mask];
         modality_to_tok_map := modality_to_tok_map st;
         tok_id := S (tok_id st) |}.

(** The tokens of one modality: the body of the loop over the
    modalities. *)
Definition add_modality (s : self) (b : nat) (ind : dict vec)
           (mnp_experts maxp_experts : option (dict mat))
           (max_expert_tokens : option (dict nat))
           (experts_feats : dict tensor3)
           (experts_feats_t : dict (list (list Z)))
           (experts_feats_ind : dict mat)
           (st : vid_lists) (modality : string) : result vid_lists :=
  ed <- get (expert_dims s) modality ;;
  let token_type := idx ed in
  st <- (if str_in (vid_inp s) ["agg"; "both"; "all"]
         then add_agg_token s b ind mnp_experts maxp_experts
                            token_type modality st
         else ret st) ;;
  if str_in (vid_inp s) ["temp"; "both"; "all"]
  then met <- local max_expert_tokens ;;
       n <- get met modality ;;
       foldM (add_frame_token s b experts_feats experts_feats_t
                              experts_feats_ind token_type modality)
             (seq 0 n) st
  else ret st.

Record prepared := {
  ind : dict (list R);
  mnp_experts : option (dict (list (list R)));
  maxp_experts : option (dict (list (list R)));
  experts_feats : dict tensor3
}.

(** The dictionaries [forward] builds before the token assembly: [ind],
    [pooled_experts], the pooled features and the temporal features
    embedded to the common dimension. *)
Definition forward_prepare (s : self) (inp : inputs) : result prepared :=
  ind <- foldM (fun ind md =>
                  fi <- get (features_ind inp) md ;;
                  mx <- max_dim1 fi ;;
                  ret (set ind md mx))
               (modalities s) [] ;;
  pooled_experts <-
    foldM (fun pe md =>
             a <- get (features_avgpool inp) md ;;
             let pe := set pe (md ++ "_avgpool")%string a in
             mx <- get (features_maxpool inp) md ;;
             ret (set pe (md ++ "_maxpool")%string mx))
          (modalities s) [] ;;
  pools <-
    (if str_in (vid_inp s) ["agg"; "both"; "all"]
     then
       r <- foldM (fun r md =>
                     layer <- get (video_dim_reduce s) md ;;
                     a <- get pooled_experts (md ++ "_avgpool")%string ;;
                     let mnp := set (fst r) md (ReduceDim_forward layer a) in
                     mx <- get pooled_experts (md ++ "_maxpool")%string ;;
                     ret (mnp, set (snd r) md (ReduceDim_forward layer mx)))
                  (modalities s) ([], []) ;;
       agg_experts <- foldM (fun agg md =>
                               v <- get (snd r) md ;; ret (set agg md v))
                            (modalities s) [] ;;
       ret (Some (fst r), Some (snd r))
     else ret (None, None)) ;;
  experts_feats <-
    (if str_in (vid_inp s) ["both"; "temp"; "all"]
     then foldM (fun ef md =>
                   layer <- get (video_dim_reduce s) md ;;
                   x <- get ef md ;;
                   ret (set ef md (map (ReduceDim_forward layer) x)))
                (modalities s) (features inp)
     else ret (features inp)) ;;
  ret {| ind := ind; mnp_experts := fst pools; maxp_experts := snd pools;
         experts_feats := experts_feats |}.

(** The text branch: the caption tokens through [txt_bert]; returns
    [text] and [text_avg], which stay unbound when the branch is not
    taken. *)
Definition forward_text (s : self) (token_ids : tensor4)
  : option (mat * mat) :=
  let b := length token_ids in
  let captions_per_video := length (hd [] token_ids) in
  let max_text_words := length (hd [] (hd [] token_ids)) in
  if String.eqb (substring 0 4 (txt_agg s)) "bert" then
    let token_ids := concat token_ids in
    let ids_size := (b * captions_per_video)%nat in
    let input_ids_list :=
      map (fun pos_id => map (fun t => to_long (nth 0 (nth pos_id t []) 0))
                             token_ids)
          (seq 0 max_text_words) in
    let token_type_ids_list :=
      map (fun _ => full ids_size 0%Z) (seq 0 max_text_words) in
    let position_ids_list :=
      map (fun pos_id => full ids_size (Z.of_nat pos_id))
          (seq 0 max_text_words) in
    let attention_mask_list :=
      map (fun pos_id => map (fun t => to_long (nth 1 (nth pos_id t []) 0))
                             token_ids)
          (seq 0 max_text_words) in
    let input_ids := stack1 0%Z ids_size input_ids_list in
    let token_type_ids := stack1 0%Z ids_size token_type_ids_list in
    let position_ids := stack1 0%Z ids_size position_ids_list in
    let attention_mask := stack1 0%Z ids_size attention_mask_list in
    let last_layer :=
      txt_bert s input_ids attention_mask token_type_ids position_ids in
    let text := column [] 0 last_layer in
    let embeddings := map (@tl (list R)) last_layer in
    let text_avg := mean_dim1 embeddings in
    Some (text, text_avg)
  else None.

(** The video token lists: [[CLS]], then the tokens of each modality. *)
Definition video_token_lists (s : self) (b : nat) (p : prepared)
           (inp : inputs) : result vid_lists :=
  let st := cls_lists s b in
  max_expert_tokens <-
    (if str_in (vid_inp s) ["temp"; "both"; "all"]
     then d <- foldM (fun d modality =>
                        x <- get (experts_feats p) modality ;;
                        ret (set d modality (size1 x)))
                     (modalities s) [] ;;
          ret (Some d)
     else ret None) ;;
  experts_feats_t <-
    (if String.eqb (pos_enc s) "tint"
     then
       let max_pos := (max_position_embeddings s - 1)%Z in
       foldM (fun d modality =>
                t <- get (features_t inp) modality ;;
                ret (set d modality
                         (map (map (fun v => to_long (clamp 0 (IZR max_pos) v)))
                              t)))
             (modalities s) []
     else ret []) ;;
  foldM (add_modality s b (ind p) (mnp_experts p) (maxp_experts p)
                      max_expert_tokens (experts_feats p) experts_feats_t
                      (features_ind inp))
        (modalities s) st.

Record video_out := {
  vid_embd : list (list R);
  vid_avg : list (list R);
  experts : dict (list (list R))
}.

(** Stacking the lists, the fusion encoder, and the per-modality
    outputs.  ([__init__] sets [debug_dataloader] to [False], so the call
    of [display_minibatch] in between is never made.) *)
Definition forward_video (s : self) (b : nat) (st : vid_lists)
  : result video_out :=
  let features := stack1 [] b (features_list st) in
  let input_ids := stack1 0%Z b (input_ids_list st) in
  let token_type_ids := stack1 0%Z b (token_type_ids_list st) in
  let position_ids :=
    if negb (String.eqb (pos_enc s) "none")
    then Some (stack1 0%Z b (position_ids_list st))
    else None in
  let attention_mask := stack1 0%Z b (attention_mask_list st) in
  let last_layer :=
    vid_bert s input_ids attention_mask token_type_ids position_ids features in
  let vid_embd := column [] 0 last_layer in
  let embeddings := map (@tl (list R)) last_layer in
  let vid_avg := mean_dim1 embeddings in
  experts <- foldM (fun ex modality =>
                      tok <- get (modality_to_tok_map st) modality ;;
                      ret (set ex modality (column [] tok last_layer)))
                   (modalities s) [] ;;
  ret {| vid_embd := vid_embd; vid_avg := vid_avg; experts := experts |}.

(** [text_weights] is 2-d from [compute_weights_from_emb] and 3-d from
    [th.ones(b, captions_per_video, m)]. *)
Inductive weights :=
| W2 (w : list (list R))
| W3 (w : tensor3).

(** The local variables of [forward] after the weights are computed. *)
Record locals := {
  l_ind : dict (list R);
  l_text : option (list (list R));
  l_text_avg : option (list (list R));
  l_vid_embd : option (list (list R));
  l_vid_avg : option (list (list R));
  l_experts : dict (list (list R));
  l_vid_weights : list (list R);
  l_text_weights : weights
}.

(** The modality re-weighting step. *)
Definition forward_weights (s : self) (b captions_per_video m : nat)
           (ind : dict vec) (text vid_embd : option mat)
           (experts : dict mat) : result (mat * weights) :=
  vid_weights <-
    (if String.eqb (vid_wgh s) "nrm"
     then compute_weights_from_norm s experts
     else if String.eqb (vid_wgh s) "emb"
     then e <- local vid_embd ;; compute_weights_from_emb s e
     else if String.eqb (vid_wgh s) "none"
     then ret (ones b m)
     else Err NotImplementedError) ;;
  vid_weights <-
    (if negb (keep_missing_modalities s)
     then
       let available := repeat (repeat 0 m) b in
       available <-
         foldM (fun av im =>
                  i <- get ind (snd im) ;;
                  ret (assign_column (fst im) i av))
               (combine (seq 0 m) (modalities s)) available ;;
       ret (mul vid_weights available)
     else ret vid_weights) ;;
  let vid_weights := map normalize_p1 vid_weights in
  text_weights <-
    (if String.eqb (txt_wgh s) "emb"
     then t <- local text ;; w <- compute_weights_from_emb s t ;; ret (W2 w)
     else if String.eqb (txt_wgh s) "none"
     then ret (W3 (repeat (repeat (repeat 1 m) captions_per_video) b))
     else Err NotImplementedError) ;;
  let text_weights :=
    match text_weights with
    | W2 w => W2 (map normalize_p1 w)
    | W3 w => W3 (map (map normalize_p1) w)
    end in
  ret (vid_weights, text_weights).

(** The representations and the projections for contrastive learning. *)
Record heads := {
  vid_reps : list (list R);
  txt_reps : list (list R);
  vid_embd_CL : list (list R);
  txt_embd_CL : list (list R)
}.

Definition forward_heads (s : self) (l : locals) : result heads :=
  vid_avg <- local (l_vid_avg l) ;;
  let vid_reps := Linear_forward (vid_avg2rep s) vid_avg in
  text_avg <- local (l_text_avg l) ;;
  let txt_reps := Linear_forward (txt_avg2rep s) text_avg in
  let vid_embd_CL := bn s (Sequential_forward (vid_projector s) vid_reps) in
  let txt_embd_CL := bn s (Sequential_forward (vid_projector s) txt_reps) in
  ret {| vid_reps := vid_reps; txt_reps := txt_reps;
         vid_embd_CL := vid_embd_CL; txt_embd_CL := txt_embd_CL |}.

(** The dictionary [forward] returns. *)
Inductive output :=
| ConfOutput (modalities : list string)
             (cross_view_conf_matrix : list (list R))
| CorrOutput (modalities : list string) (corrletaion_matrix : list (list R))
| EmbdOutput (vid_reps text_reps : list (list R)).

Definition forward_return (s : self) (out : string) (h : heads) : output :=
  if String.eqb out "conf"
  then
    let cross_view_conf_matrix :=
      sharded_cross_view_inner_product (vid_reps h) (txt_reps h)
                                       (modalities s) in
    ConfOutput (modalities s) cross_view_conf_matrix
  else if String.eqb out "corr"
  then
    let corrletaion_matrix :=
      cpt_cross_corrletaion_matrix (vid_embd_CL h) (txt_embd_CL h)
                                   (modalities s) in
    CorrOutput (modalities s) corrletaion_matrix
  else EmbdOutput (vid_reps h) (txt_reps h).

(** The fusion encoder branch of [forward]. *)
Definition forward_encode_video (s : self) (b : nat) (p : prepared)
           (inp : inputs) : result (option video_out) :=
  if String.eqb (vid_cont s) "bert"
  then st <- video_token_lists s b p inp ;;
       vo <- forward_video s b st ;;
       ret (Some vo)
  else ret None.

(** The local variables at the end of the re-weighting step. *)
Definition forward_locals (s : self) (inp : inputs) : result locals :=
  let b := length (token_ids inp) in
  let captions_per_video := length (hd [] (token_ids inp)) in
  let m := length (modalities s) in
  p <- forward_prepare s inp ;;
  let txt := forward_text s (token_ids inp) in
  v <- forward_encode_video s b p inp ;;
  let experts := match v with Some vo => experts vo | None => [] end in
  w <- forward_weights s b captions_per_video m (ind p)
                       (option_map fst txt) (option_map vid_embd v) experts ;;
  ret {| l_ind := ind p;
         l_text := option_map fst txt;
         l_text_avg := option_map snd txt;
         l_vid_embd := option_map vid_embd v;
         l_vid_avg := option_map vid_avg v;
         l_experts := experts;
         l_vid_weights := fst w;
         l_text_weights := snd w |}.

(** [MMTwins.forward] *)
Definition forward (s : self) (inp : inputs) : result output :=
  l <- forward_locals s inp ;;
  h <- forward_heads s l ;;
  ret (forward_return s (out inp) h).

(** [self] with another [txt_projector]. *)
Definition with_txt_projector (s : self) (tp : Sequential) : self :=
  {| expert_dims := expert_dims s;
     keep_missing_modalities := keep_missing_modalities s;
     same_dim := same_dim s;
     txt_agg := txt_agg s;
     txt_wgh := txt_wgh s;
     vid_inp := vid_inp s;
     vid_cont := vid_cont s;
     vid_wgh := vid_wgh s;
     pos_enc := pos_enc s;
     out_tok := out_tok s;
     max_position_embeddings := max_position_embeddings s;
     video_dim_reduce := video_dim_reduce s;
     vid_bert := vid_bert s;
     txt_bert := txt_bert s;
     txt_avg2rep := txt_avg2rep s;
     vid_avg2rep := vid_avg2rep s;
     txt_projector := tp;
     vid_projector := vid_projector s;
     bn := bn s;
     moe_vid_dropout := moe_vid_dropout s;
     moe_fc_vid := moe_fc_vid s |}.

(** [self] with other weighting modes [vid_wgh] and [txt_wgh]. *)
Definition with_weighting (s : self) (vw tw : string) : self :=
  {| expert_dims := expert_dims s;
     keep_missing_modalities := keep_missing_modalities s;
     same_dim := same_dim s;
     txt_agg := txt_agg s;
     txt_wgh := tw;
     vid_inp := vid_inp s;
     vid_cont := vid_cont s;
     vid_wgh := vw;
     pos_enc := pos_enc s;
     out_tok := out_tok s;
     max_position_embeddings := max_position_embeddings s;
     video_dim_reduce := video_dim_reduce s;
     vid_bert := vid_bert s;
     txt_bert := txt_bert s;
     txt_avg2rep := txt_avg2rep s;
     vid_avg2rep := vid_avg2rep s;
     txt_projector := txt_projector s;
     vid_projector := vid_projector s;
     bn := bn s;
     moe_vid_dropout := moe_vid_dropout s;
     moe_fc_vid := moe_fc_vid s |}.

(** The local variables with other modality weights. *)
Definition with_weights (l : locals) (vw : mat) (tw : weights) : locals :=
  {| l_ind := l_ind l;
     l_text := l_text l;
     l_text_avg := l_text_avg l;
     l_vid_embd := l_vid_embd l;
     l_vid_avg := l_vid_avg l;
     l_experts := l_experts l;
     l_vid_weights := vw;
     l_text_weights := tw |}.

(** A dictionary with an entry for key [k], for every key of [ks]. *)
Definition has_key {V} (d : dict V) (k : string) : Prop :=
  exists v, get d k = Ok v.

Definition complete {V} (ks : list string) (d : dict V) : Prop :=
  Forall (has_key d) ks.

(** The number of temporal features of a modality: [size()[1]] of its
    entry of [features]. *)
Definition n_frames (inp : inputs) (modality : string) : nat :=
  match get (features inp) modality with
  | Ok x => size1 x
  | Err _ => 0
  end.

(** What the lists hold after a prefix of the tokens: the input ids
    [ids] (each a batch vector), one entry per token in the type and mask
    lists. *)
Definition lists_hold (b : nat) (ids : list Z) (st : vid_lists) : Prop :=
  input_ids_list st = map (full b) ids /\
  length (token_type_ids_list st) = length ids /\
  length (attention_mask_list st) = length ids.

(** The input ids of the video sequence: [[CLS]] (0), then for each
    modality one aggregated token (2) and its temporal tokens (6). *)
Definition video_sequence (T : string -> nat) (mods : list string) : list Z :=
  0%Z :: flat_map (fun md => 2%Z :: repeat 6%Z (T md)) mods.

(** A small model and batch to run the forward pass on: one modality
    ["rgb"] with two temporal features, a batch of one video with one
    caption of one word.  The encoders return the features they are
    given, respectively one constant token pair. *)
Definition demo_self : self :=
  {| expert_dims := [("rgb", {| dim := 2; idx := 1%Z |})];
     keep_missing_modalities := true;
     same_dim := 2;
     txt_agg := "bertftn";
     txt_wgh := "none";
     vid_inp := "both";
     vid_cont := "bert";
     vid_wgh := "none";
     pos_enc := "ordr";
     out_tok := "mxp";
     max_position_embeddings := 32%Z;
     video_dim_reduce :=
       [("rgb", {| fc := {| weight := [[1; 0]; [0; 1]]; bias := None |} |})];
     vid_bert := fun _ _ _ _ feats => feats;
     txt_bert := fun _ _ _ _ => [[[1; 0]; [0; 1]]];
     txt_avg2rep := {| weight := [[1; 0]; [0; 1]]; bias := None |};
     vid_avg2rep := {| weight := [[1; 0]; [0; 1]]; bias := None |};
     txt_projector :=
       [LinearLayer {| weight := [[1; 0]; [0; 1]]; bias := None |}];
     vid_projector :=
       [LinearLayer {| weight := [[1; 0]; [0; 1]]; bias := None |}];
     bn := fun x => x;
     moe_vid_dropout := None;
     moe_fc_vid := None |}.

Definition demo_inputs : inputs :=
  {| token_ids := [[[[1; 1]]]];
     features := [("rgb", [[[1; 0]; [0; 1]]])];
     features_t := [("rgb", [[0; 1]])];
     features_ind := [("rgb", [[1; 1]])];
     features_avgpool := [("rgb", [[1; 1]])];
     features_maxpool := [("rgb", [[1; 1]])];
     out := "conf" |}.

End MMTwins.

(** [x[i][j]] *)
Definition entry (x : mat) (i j : nat) : R := nth j (nth i x []) 0.

(** The two hinge terms of the pair [(i, j)]: caption [i] against the
    video [j] of its row and of its column. *)
Definition hinge_pair (margin : R) (x : mat) (i j : nat) : R :=
  Torch.relu (margin - (entry x i i - entry x i j))
  + Torch.relu (margin - (entry x i i - entry x j i)).

(** ** Further code of model/loss.py *)

(** [BarlowTwinsLoss.off_diagonal]: [x.flatten()[:-1].view(n - 1, n + 1)[:, 1:]
    .flatten()].  [None] is the [AssertionError] of [assert n == m].  (For
    [n = 0] the call is [view(-1, 1)], which infers zero rows, as the
    truncated subtraction gives here.) *)
Definition off_diagonal (x : list (list R)) : option (list R) :=
  let n := length x in
  let m := Torch.cols x in
  if Nat.eqb n m
  then Some (concat (map (@tl R)
                         (Torch.chunks (n - 1) (n + 1) (removelast (concat x)))))
  else None.

(** Sum over all index pairs [(i, j)] of an [n x n] grid. *)
Definition grid_sum (n : nat) (f : nat -> nat -> R) : R :=
  Rsum n (fun i => Rsum n (fun j => f i j)).

(** ** The gating classes of model/MMTwins.py *)

Module Gating.
Import Torch.

(** [torch.sigmoid].  (Over the reals the value lies strictly between 0
    and 1; in floating point it reaches both.) *)
Definition sigmoid (t : R) : R := 1 / (1 + exp (- t)).

(** [th.cat((a, b), 1)] of two matrices: the rows are joined pairwise; the
    batch sizes have to agree. *)
Definition cat1 (a b : mat) : option mat :=
  if Nat.eqb (length a) (length b) then Some (map2 (@app R) a b) else None.

(** [F.glu(x, 1)]: the first half of every row times the sigmoid of its
    second half; the row length has to be even. *)
Definition glu (x : mat) : option mat :=
  if Nat.even (cols x)
  then Some (map (fun r =>
                    let h := Nat.div2 (length r) in
                    map2 Rmult (firstn h r) (map sigmoid (skipn h r))) x)
  else None.

(** [GatedLinearUnit.forward] *)
Definition GatedLinearUnit_forward (x mask : mat) : option mat :=
  match cat1 x mask with
  | Some x => glu x
  | None => None
  end.

(** [ContextGating]: [batch_norm] is the [nn.BatchNorm1d] layer, a function
    of the batch. *)
Record ContextGating := {
  cg_fc : MMTwins.Linear;
  add_batch_norm : bool;
  batch_norm : mat -> mat
}.

(** The tensor [x1] that [ContextGating.forward] passes to the gate. *)
Definition ContextGating_gate (m : ContextGating) (x : mat) : mat :=
  let x1 := MMTwins.Linear_forward (cg_fc m) x in
  if add_batch_norm m then batch_norm m x1 else x1.

(** [ContextGating.forward] *)
Definition ContextGating_forward (m : ContextGating) (x : mat) : option mat :=
  let x1 := MMTwins.Linear_forward (cg_fc m) x in
  let x1 := if add_batch_norm m then batch_norm m x1 else x1 in
  match cat1 x x1 with
  | Some x => glu x
  | None => None
  end.

(** [GatedEmbeddingUnit] *)
Record GatedEmbeddingUnit := {
  geu_fc : MMTwins.Linear;
  geu_cg : ContextGating;
  geu_normalize : bool
}.

(** [GatedEmbeddingUnit.forward] *)
Definition GatedEmbeddingUnit_forward (m : GatedEmbeddingUnit) (x : mat)
  : option mat :=
  let x := MMTwins.Linear_forward (geu_fc m) x in
  match ContextGating_forward (geu_cg m) x with
  | Some x => Some (if geu_normalize m then map normalize x else x)
  | None => None
  end.

(** [MimicCEGatedEmbeddingUnit] *)
Record MimicCEGatedEmbeddingUnit := { mimic_cg : ContextGating }.

(** [MimicCEGatedEmbeddingUnit.forward] *)
Definition MimicCEGatedEmbeddingUnit_forward
           (m : MimicCEGatedEmbeddingUnit) (x : mat) : option mat :=
  match ContextGating_forward (mimic_cg m) x with
  | Some x => Some (map normalize x)
  | None => None
  end.

End Gating.

(** ** Further notions for MMTwins.forward *)

(** The layer [nn.Linear], applied to vectors of [d] features, does not
    raise: its weight has the shape [[out, d]] and its bias, if any, [out]
    entries. *)
Definition Linear_accepts (l : MMTwins.Linear) (d : nat) : Prop :=
  Forall (fun w => length w = d) (MMTwins.weight l) /\
  match MMTwins.bias l with
  | Some bv => length bv = length (MMTwins.weight l)
  | None => True
  end.

(** The tensors [forward] is given for one modality fit together, for a
    batch of [b] videos: [features] is [[b, T, d]], [features_ind] is
    [[b, K]] with at least one and at least [T] columns, the pooled
    features are [[b, d]], the modality's [ReduceDim] layer takes [d]
    features, and with the position encoding ['tint'] [features_t] has at
    least [T] columns too. *)
Definition well_formed_modality (s : MMTwins.self) (inp : MMTwins.inputs)
           (b : nat) (md : string) : Prop :=
  exists (T d K : nat) x fi av mx layer,
    Py.get (MMTwins.features inp) md = Py.Ok x /\ has_shape3 b T d x /\
    Py.get (MMTwins.features_ind inp) md = Py.Ok fi /\ has_shape b K fi /\
    (1 <= K)%nat /\ (T <= K)%nat /\
    Py.get (MMTwins.features_avgpool inp) md = Py.Ok av /\ has_shape b d av /\
    Py.get (MMTwins.features_maxpool inp) md = Py.Ok mx /\ has_shape b d mx /\
    Py.get (MMTwins.video_dim_reduce s) md = Py.Ok layer /\
    Linear_accepts (MMTwins.fc layer) d /\
    (MMTwins.pos_enc s = "tint"%string ->
     exists t K',
       Py.get (MMTwins.features_t inp) md = Py.Ok t /\ has_shape b K' t /\
       (T <= K')%nat).

(** The entries of [modality_to_tok_map] are positions of aggregated
    tokens (input id 2) of the lists, and [tok_id] is the position of the
    last token. *)
Definition tok_map_holds (b : nat) (st : MMTwins.vid_lists) : Prop :=
  S (MMTwins.tok_id st) = length (MMTwins.input_ids_list st) /\
  forall md k,
    Py.get (MMTwins.modality_to_tok_map st) md = Py.Ok k ->
    (1 <= k)%nat /\
    nth_error (MMTwins.input_ids_list st) k = Some (TorchExt.full b 2%Z).

(** The position ids of the frames [frames] of one modality, for the
    position encodings that do not read the time stamps. *)
Definition frame_positions (pos_enc : string) (frames : list nat) : list Z :=
  if String.eqb pos_enc "ordr"
  then map (fun frame_id => (Z.of_nat frame_id + 1)%Z) frames
  else if String.eqb pos_enc "type"
  then map (fun _ => 1%Z) frames
  else [].

(** The position ids of the video sequence: 0 for [[CLS]] and for each
    aggregated token, then those of the temporal tokens. *)
Definition video_positions (pos_enc : string) (T : string -> nat)
           (mods : list string) : list Z :=
  0%Z :: flat_map (fun md => 0%Z :: frame_positions pos_enc (seq 0 (T md)))
                  mods.

(** [self] with another [vid_projector] and another [bn]. *)
Definition with_vid_projector (s : MMTwins.self) (vp : MMTwins.Sequential)
           (bn' : list (list R) -> list (list R)) : MMTwins.self :=
  {| MMTwins.expert_dims := MMTwins.expert_dims s;
     MMTwins.keep_missing_modalities := MMTwins.keep_missing_modalities s;
     MMTwins.same_dim := MMTwins.same_dim s;
     MMTwins.txt_agg := MMTwins.txt_agg s;
     MMTwins.txt_wgh := MMTwins.txt_wgh s;
     MMTwins.vid_inp := MMTwins.vid_inp s;
     MMTwins.vid_cont := MMTwins.vid_cont s;
     MMTwins.vid_wgh := MMTwins.vid_wgh s;
     MMTwins.pos_enc := MMTwins.pos_enc s;
     MMTwins.out_tok := MMTwins.out_tok s;
     MMTwins.max_position_embeddings := MMTwins.max_position_embeddings s;
     MMTwins.video_dim_reduce := MMTwins.video_dim_reduce s;
     MMTwins.vid_bert := MMTwins.vid_bert s;
     MMTwins.txt_bert := MMTwins.txt_bert s;
     MMTwins.txt_avg2rep := MMTwins.txt_avg2rep s;
     MMTwins.vid_avg2rep := MMTwins.vid_avg2rep s;
     MMTwins.txt_projector := MMTwins.txt_projector s;
     MMTwins.vid_projector := vp;
     MMTwins.bn := bn';
     MMTwins.moe_vid_dropout := MMTwins.moe_vid_dropout s;
     MMTwins.moe_fc_vid := MMTwins.moe_fc_vid s |}.

(** The arguments of [forward] with another [features_t]. *)
Definition with_features_t (inp : MMTwins.inputs)
           (ft : Py.dict (list (list R))) : MMTwins.inputs :=
  {| MMTwins.token_ids := MMTwins.token_ids inp;
     MMTwins.features := MMTwins.features inp;
     MMTwins.features_t := ft;
     MMTwins.features_ind := MMTwins.features_ind inp;
     MMTwins.features_avgpool := MMTwins.features_avgpool inp;
     MMTwins.features_maxpool := MMTwins.features_maxpool inp;
     MMTwins.out := MMTwins.out inp |}.

(** ** compare.py *)

Module Compare.

Definition n_last_epoch : nat := 10.

(** [l[-n:]]: the last [n] elements, all of [l] when it has fewer; for
    [n = 0] the slice is [l[0:]], the whole list. *)
Definition last_slice {A} (n : nat) (l : list A) : list A :=
  if Nat.eqb n 0 then l else skipn (length l - n) l.

(** The number printed for one metric:
    [sum(scores[-n_last_epoch:]) / n_last_epoch]. *)
Definition reported (scores : list R) : R :=
  Torch.sum (last_slice n_last_epoch scores) / INR n_last_epoch.

End Compare.

(** ** Further notions for server.py *)

(** The mean over the tokens [vb] of a video of the maximum over the tokens
    [ta] of a caption of [score ta vb]. *)
Definition max_mean (score : list R -> list R -> R)
           (caption video : list (list R)) : R :=
  Torch.mean_vec
    (map (fun vb => Torch.max_vec (map (fun ta => score ta vb) caption)) video).

(** ** Proof steps for the Python computations *)

(** One step of a computation whose first action has returned. *)
Ltac py_step := cbv beta iota zeta delta [Py.bind Py.ret].

(** Run the next action, whose result is given by the equation [E]. *)
Ltac py_run E :=
  cbv beta iota zeta delta [Py.bind Py.ret] in E; py_step; rewrite E; py_step.

(** Expose the fields [forward_weights] reads from a model whose weighting
    modes were replaced. *)
Ltac weighting_fields :=
  cbv beta iota delta
      [MMTwins.forward_weights MMTwins.with_weighting MMTwins.modalities
       MMTwins.expert_dims MMTwins.vid_wgh MMTwins.txt_wgh
       MMTwins.keep_missing_modalities MMTwins.compute_weights_from_norm
       MMTwins.compute_weights_from_emb MMTwins.moe_vid_dropout
       MMTwins.moe_fc_vid].

(** * Verification *)

(** ** Sums *)

Lemma sum_app (a b : vec) : Torch.sum (a ++ b) = Torch.sum a + Torch.sum b.
Proof.
  induction a as [|v a IH]; simpl.
  - lra.
  - rewrite IH. lra.
Qed.

Lemma Rsum_ext (n : nat) (f g : nat -> R) :
  (forall i, (i < n)%nat -> f i = g i) -> Rsum n f = Rsum n g.
Proof.
  induction n as [|n IH]; intros H; simpl.
  - reflexivity.
  - rewrite IH by (intros; apply H; lia). rewrite H by lia. reflexivity.
Qed.

Lemma Rsum_plus (n : nat) (f g : nat -> R) :
  Rsum n (fun i => f i + g i) = Rsum n f + Rsum n g.
Proof.
  induction n as [|n IH]; simpl.
  - lra.
  - rewrite IH. lra.
Qed.


Lemma Rsum_add (a b : nat) (f : nat -> R) :
  Rsum (a + b) f = Rsum a f + Rsum b (fun p => f (a + p)%nat).
Proof.
  induction b as [|b IH].
  - rewrite Nat.add_0_r. simpl. lra.
  - replace (a + S b)%nat with (S (a + b)) by lia. simpl. rewrite IH. lra.
Qed.

Lemma Rsum_mul (n k : nat) (f : nat -> R) :
  Rsum (n * k) f = Rsum n (fun i => Rsum k (fun j => f (i * k + j)%nat)).
Proof.
  induction n as [|n IH].
  - reflexivity.
  - replace (S n * k)%nat with (n * k + k)%nat by lia.
    rewrite Rsum_add, IH. reflexivity.
Qed.

Lemma Rsum_nonneg (n : nat) (f : nat -> R) :
  (forall i, (i < n)%nat -> 0 <= f i) -> 0 <= Rsum n f.
Proof.
  induction n as [|n IH]; intros H; simpl.
  - lra.
  - assert (0 <= Rsum n f) by (apply IH; intros; apply H; lia).
    assert (0 <= f n) by (apply H; lia). lra.
Qed.

Lemma Rsum_zero_iff (n : nat) (f : nat -> R) :
  (forall i, (i < n)%nat -> 0 <= f i) ->
  Rsum n f = 0 <-> (forall i, (i < n)%nat -> f i = 0).
Proof.
  induction n as [|n IH]; intros Hpos; simpl.
  - split; [intros _ i Hi; lia | reflexivity].
  - assert (Hn : forall i, (i < n)%nat -> 0 <= f i) by (intros; apply Hpos; lia).
    pose proof (Rsum_nonneg n f Hn) as Hs.
    assert (0 <= f n) by (apply Hpos; lia).
    split.
    + intros E i Hi.
      assert (Rsum n f = 0) by lra.
      destruct (Nat.eq_dec i n) as [->|Hne]; [lra|].
      apply (proj1 (IH Hn)); [assumption | lia].
    + intros E. rewrite (proj2 (IH Hn)) by (intros; apply E; lia).
      rewrite E by lia. lra.
Qed.

Lemma sum_map_seq (n : nat) (f : nat -> R) :
  Torch.sum (map f (seq 0 n)) = Rsum n f.
Proof.
  induction n as [|n IH].
  - reflexivity.
  - rewrite seq_S, map_app, sum_app, IH. simpl. lra.
Qed.

Lemma sum_map_filter (P : nat -> bool) (g : nat -> R) (l : list nat) :
  Torch.sum (map g (filter P l)) =
  Torch.sum (map (fun p => if P p then g p else 0) l).
Proof.
  induction l as [|p l IH]; simpl.
  - reflexivity.
  - destruct (P p); simpl; rewrite IH; lra.
Qed.

Lemma length_as_sum {A} (l : list A) :
  INR (length l) = Torch.sum (map (fun _ => 1) l).
Proof.
  induction l as [|a l IH].
  - reflexivity.
  - change (length (a :: l)) with (S (length l)). rewrite S_INR, IH. simpl. lra.
Qed.

(** ** Row-major layout of nested lists *)

Lemma length_concat_shape (n k : nat) (x : mat) :
  has_shape n k x -> length (concat x) = (n * k)%nat.
Proof.
  intros [Hn Hk]. subst n.
  induction Hk as [|r x Hr _ IH]; simpl.
  - reflexivity.
  - rewrite length_app, IH, Hr. reflexivity.
Qed.

Lemma nth_concat_shape (n k : nat) (x : mat) (i j : nat) :
  has_shape n k x -> (j < k)%nat ->
  nth (i * k + j) (concat x) 0 = entry x i j.
Proof.
  intros [_ Hk] Hj. unfold entry. revert i.
  induction Hk as [|r x Hr _ IH]; intros i.
  - simpl. destruct (i * k + j)%nat, i, j; reflexivity.
  - destruct i as [|i]; simpl.
    + rewrite app_nth1 by lia. reflexivity.
    + rewrite app_nth2 by lia.
      replace (k + i * k + j - length r)%nat with (i * k + j)%nat by lia.
      apply IH.
Qed.

Lemma has_shape_map_seq (n k : nat) (f : nat -> vec) :
  (forall i, (i < n)%nat -> length (f i) = k) ->
  has_shape n k (map f (seq 0 n)).
Proof.
  intros H. split.
  - rewrite length_map, length_seq. reflexivity.
  - apply Forall_forall. intros r Hr.
    apply in_map_iff in Hr. destruct Hr as (i & <- & Hi).
    apply in_seq in Hi. apply H. lia.
Qed.

Lemma entry_map_seq (n k : nat) (f : nat -> nat -> R) (i j : nat) :
  (i < n)%nat -> (j < k)%nat ->
  entry (map (fun a => map (f a) (seq 0 k)) (seq 0 n)) i j = f i j.
Proof.
  intros Hi Hj. unfold entry.
  rewrite (nth_indep _ [] (map (f 0%nat) (seq 0 k)))
    by (rewrite length_map, length_seq; exact Hi).
  rewrite (map_nth (fun a => map (f a) (seq 0 k))), seq_nth by exact Hi.
  rewrite (nth_indep _ 0 (f i 0%nat))
    by (rewrite length_map, length_seq; exact Hj).
  rewrite (map_nth (f i)), seq_nth by exact Hj.
  reflexivity.
Qed.

Lemma cols_shape (n k : nat) (x : mat) :
  has_shape (S n) k x -> Torch.cols x = k.
Proof.
  intros [Hn Hk]. unfold Torch.cols.
  destruct x as [|r x]; [discriminate|].
  inversion Hk; subst. reflexivity.
Qed.

Lemma nth_row_length (n k : nat) (x : mat) (i : nat) :
  has_shape n k x -> (i < n)%nat -> length (nth i x []) = k.
Proof.
  intros [Hn Hk] Hi. subst n.
  rewrite Forall_forall in Hk. apply Hk. apply nth_In. exact Hi.
Qed.

Lemma transpose_shape (n k : nat) (x : mat) :
  has_shape (S n) k x -> has_shape k (S n) (Torch.transpose x).
Proof.
  intros H. unfold Torch.transpose. rewrite (cols_shape _ _ _ H).
  apply has_shape_map_seq. intros i _. rewrite length_map. apply H.
Qed.

Lemma transpose_entry (n k : nat) (x : mat) (i j : nat) :
  has_shape (S n) k x -> (i < k)%nat -> (j < S n)%nat ->
  entry (Torch.transpose x) i j = entry x j i.
Proof.
  intros H Hi Hj. unfold Torch.transpose, entry.
  rewrite (cols_shape _ _ _ H).
  rewrite (nth_indep _ [] (map (fun r => nth 0 r 0) x))
    by (rewrite length_map, length_seq; exact Hi).
  rewrite (map_nth (fun c => map (fun r => nth c r 0) x)), seq_nth by exact Hi.
  simpl.
  rewrite (nth_indep _ 0 (nth i [] 0))
    by (rewrite length_map; destruct H as [-> _]; exact Hj).
  rewrite (map_nth (fun r => nth i r 0)). reflexivity.
Qed.

Lemma repeat_as_map {A} (c : A) (n a : nat) :
  repeat c n = map (fun _ => c) (seq a n).
Proof.
  revert a. induction n as [|n IH]; intros a; simpl.
  - reflexivity.
  - rewrite <- IH. reflexivity.
Qed.

Lemma map2_repeat_map {A B C} (h : A -> B -> C) (c : A) (f : nat -> B)
      (n a : nat) :
  Torch.map2 h (repeat c n) (map f (seq a n)) = map (fun i => h c (f i)) (seq a n).
Proof.
  revert a. induction n as [|n IH]; intros a; simpl.
  - reflexivity.
  - rewrite IH. reflexivity.
Qed.

Lemma concat_singletons {A} (l : list A) : concat (map (fun a => [a]) l) = l.
Proof.
  induction l as [|a l IH]; simpl.
  - reflexivity.
  - rewrite IH. reflexivity.
Qed.

Lemma nth_singletons (l : vec) (p : nat) :
  (p < length l)%nat -> nth p (map (fun a => [a]) l) [] = [nth p l 0].
Proof.
  intros Hp.
  rewrite (nth_indep _ [] [0]) by (rewrite length_map; exact Hp).
  apply (map_nth (fun a => [a])).
Qed.

(** ** MaxMarginRankingLoss *)

Section MaxMargin.
Import Torch.

Lemma keep_matrix (n : nat) :
  sub (ones n n) (eye n) =
  map (fun i => map (fun j => if Nat.eqb i j then 0 else 1) (seq 0 n)) (seq 0 n).
Proof.
  unfold sub, ones, eye. rewrite map2_repeat_map.
  apply map_ext. intros i. rewrite map2_repeat_map.
  apply map_ext. intros j. destruct (Nat.eqb i j); lra.
Qed.

Lemma diag_expanded (n : nat) (x : mat) :
  has_shape (S n) (S n) x ->
  expand (S n) (unsqueeze1 (diag x)) =
  map (fun i => map (fun _ => entry x i i) (seq 0 (S n))) (seq 0 (S n)).
Proof.
  intros H. unfold expand, unsqueeze1, diag.
  rewrite (cols_shape _ _ _ H), (proj1 H), Nat.min_id, !map_map.
  apply map_ext. intros i. cbn [hd]. apply repeat_as_map.
Qed.

(** Selecting rows of two columns and subtracting them. *)
Lemma sub_selected (l1 l2 : vec) (idx : list nat) :
  length l1 = length l2 ->
  Forall (fun p => (p < length l1)%nat) idx ->
  sub (index_select (map (fun a => [a]) l1) idx)
      (index_select (map (fun a => [a]) l2) idx) =
  map (fun p => [nth p l1 0 - nth p l2 0]) idx.
Proof.
  intros Hl Hidx. unfold sub, index_select.
  induction Hidx as [|p idx Hp _ IH]; simpl.
  - reflexivity.
  - rewrite IH, !nth_singletons by lia. reflexivity.
Qed.

Lemma nonzero_bound (v : vec) :
  Forall (fun p => (p < length v)%nat) (nonzero v).
Proof.
  apply Forall_forall. intros p Hp. unfold nonzero in Hp.
  apply filter_In in Hp. destruct Hp as [Hp _]. apply in_seq in Hp. lia.
Qed.

(** The value of [forward] before any index reasoning: a sum over the
    positions kept by the mask, divided by their number. *)
Lemma forward_flat (margin : R) (x : mat) :
  let X1 := concat (expand (length x) (unsqueeze1 (diag x))) in
  let X2 := concat x ++ concat (transpose x) in
  let keep := sub (ones (length x) (cols x)) (eye (length x)) in
  let K := concat keep ++ concat (transpose keep) in
  length (X1 ++ X1) = length X2 -> length K = length X2 ->
  MaxMarginRankingLoss.forward margin true x =
  sum (map (fun p => relu (margin - (nth p (X1 ++ X1) 0 - nth p X2 0)))
           (nonzero K))
  / INR (length (nonzero K)).
Proof.
  intros X1 X2 keep K HX HK.
  unfold MaxMarginRankingLoss.forward, mean, numel.
  unfold view_col, cat0, flatten.
  rewrite <- !map_app, concat_singletons.
  fold keep. fold X1 X2. fold K.
  rewrite sub_selected by (try exact HX; rewrite HX, <- HK; apply nonzero_bound).
  unfold rsub. rewrite !map_map. cbn [map].
  set (g := fun p => relu (margin - (nth p (X1 ++ X1) 0 - nth p X2 0))).
  replace (map (fun p => [relu (margin - (nth p (X1 ++ X1) 0 - nth p X2 0))])
               (nonzero K))
    with (map (fun a => [a]) (map g (nonzero K)))
    by (rewrite map_map; reflexivity).
  rewrite concat_singletons, length_map. reflexivity.
Qed.

Lemma is_nonzero_keep (i j : nat) :
  is_nonzero (if Nat.eqb i j then 0 else 1) = negb (Nat.eqb i j).
Proof.
  unfold is_nonzero. destruct (Nat.eqb i j); simpl.
  - destruct (Req_dec_T 0 0); [reflexivity | lra].
  - destruct (Req_dec_T 1 0); [lra | reflexivity].
Qed.

(** Summing over the kept positions is summing over the off-diagonal
    pairs of both halves of the stacked columns. *)
Lemma sum_over_kept (n : nat) (g : nat -> R) :
  let keep := sub (ones (S n) (S n)) (eye (S n)) in
  let K := concat keep ++ concat (transpose keep) in
  sum (map g (nonzero K)) =
  offdiag_sum (S n) (fun i j => g (i * S n + j)%nat
                                + g (S n * S n + (i * S n + j))%nat).
Proof.
  intros keep K.
  assert (Hk : has_shape (S n) (S n) keep).
  { unfold keep. rewrite keep_matrix. apply has_shape_map_seq.
    intros i _. rewrite length_map, length_seq. reflexivity. }
  assert (Hke : forall i j, (i < S n)%nat -> (j < S n)%nat ->
                            entry keep i j = if Nat.eqb i j then 0 else 1).
  { intros i j Hi Hj. unfold keep. rewrite keep_matrix.
    apply (entry_map_seq (S n) (S n) (fun i j => if Nat.eqb i j then 0 else 1));
      assumption. }
  pose proof (transpose_shape _ _ _ Hk) as Hkt.
  assert (HL1 : length (concat keep) = (S n * S n)%nat)
    by (apply length_concat_shape; exact Hk).
  assert (HL2 : length (concat (transpose keep)) = (S n * S n)%nat)
    by (apply length_concat_shape; exact Hkt).
  unfold nonzero. rewrite sum_map_filter, sum_map_seq.
  unfold K at 1. rewrite length_app, HL1, HL2.
  rewrite Rsum_add, !Rsum_mul. unfold offdiag_sum.
  rewrite <- Rsum_plus. apply Rsum_ext. intros i Hi.
  rewrite <- Rsum_plus. apply Rsum_ext. intros j Hj.
  unfold K. rewrite app_nth1 by (rewrite HL1; nia).
  rewrite app_nth2 by (rewrite HL1; nia).
  replace (S n * S n + (i * S n + j) - length (concat keep))%nat
    with (i * S n + j)%nat by (rewrite HL1; lia).
  rewrite (nth_concat_shape _ _ _ _ _ Hk Hj).
  rewrite (nth_concat_shape _ _ _ _ _ Hkt Hj).
  rewrite (transpose_entry _ _ _ _ _ Hk Hi Hj), !Hke by assumption.
  rewrite !is_nonzero_keep, (Nat.eqb_sym j i).
  destruct (Nat.eqb i j); simpl; lra.
Qed.

Lemma Rsum_skip_one (n i : nat) (c : R) :
  Rsum n (fun j => if Nat.eqb i j then 0 else c) =
  if Nat.ltb i n then c * (INR n - 1) else c * INR n.
Proof.
  induction n as [|n IH].
  - simpl. lra.
  - cbn [Rsum]. rewrite IH, S_INR.
    destruct (Nat.eqb_spec i n) as [->|Hne].
    + rewrite Nat.ltb_irrefl.
      replace (Nat.ltb n (S n)) with true by (symmetry; apply Nat.ltb_lt; lia).
      lra.
    + destruct (Nat.ltb_spec i n), (Nat.ltb_spec i (S n)); try lia; lra.
Qed.

Lemma Rsum_const (n : nat) (c : R) : Rsum n (fun _ => c) = INR n * c.
Proof.
  induction n as [|n IH].
  - simpl. lra.
  - cbn [Rsum]. rewrite IH, S_INR. lra.
Qed.

Lemma count_kept (n : nat) :
  let keep := sub (ones (S n) (S n)) (eye (S n)) in
  let K := concat keep ++ concat (transpose keep) in
  INR (length (nonzero K)) = 2 * INR (S n) * (INR (S n) - 1).
Proof.
  intros keep K. rewrite length_as_sum. unfold K, keep.
  rewrite sum_over_kept. unfold offdiag_sum.
  rewrite (Rsum_ext _ _ (fun _ => 2 * (INR (S n) - 1))).
  - rewrite Rsum_const. lra.
  - intros i Hi. rewrite (Rsum_ext _ _ (fun j => if Nat.eqb i j then 0 else 2)).
    + rewrite Rsum_skip_one.
      replace (Nat.ltb i (S n)) with true by (symmetry; apply Nat.ltb_lt; lia).
      reflexivity.
    + intros j _. destruct (Nat.eqb i j); lra.
Qed.

Lemma nth_stacked (n k : nat) (a b : mat) (i j : nat) :
  has_shape n k a -> has_shape n k b -> (i < n)%nat -> (j < k)%nat ->
  nth (i * k + j) (concat a ++ concat b) 0 = entry a i j /\
  nth (n * k + (i * k + j)) (concat a ++ concat b) 0 = entry b i j.
Proof.
  intros Ha Hb Hi Hj.
  pose proof (length_concat_shape _ _ _ Ha) as La.
  split.
  - rewrite app_nth1 by (rewrite La; nia). apply (nth_concat_shape n); assumption.
  - rewrite app_nth2 by (rewrite La; nia).
    replace (n * k + (i * k + j) - length (concat a))%nat
      with (i * k + j)%nat by (rewrite La; lia).
    apply (nth_concat_shape n); assumption.
Qed.

Lemma forward_offdiag (n : nat) (margin : R) (x : mat) :
  has_shape (S n) (S n) x ->
  MaxMarginRankingLoss.forward margin true x =
  offdiag_sum (S n) (hinge_pair margin x) / (2 * INR (S n) * (INR (S n) - 1)).
Proof.
  intros H.
  pose proof (transpose_shape _ _ _ H) as Ht.
  pose proof (cols_shape _ _ _ H) as Hc.
  pose proof (proj1 H) as Hn.
  assert (He : has_shape (S n) (S n) (expand (S n) (unsqueeze1 (diag x)))).
  { rewrite (diag_expanded _ _ H). apply has_shape_map_seq.
    intros i _. rewrite length_map, length_seq. reflexivity. }
  assert (HL : forall y, has_shape (S n) (S n) y ->
                         length (concat y) = (S n * S n)%nat)
    by (intros y Hy; apply length_concat_shape; exact Hy).
  assert (Hkeep : has_shape (S n) (S n) (sub (ones (S n) (S n)) (eye (S n)))).
  { rewrite keep_matrix. apply has_shape_map_seq.
    intros i _. rewrite length_map, length_seq. reflexivity. }
  rewrite forward_flat; rewrite Hn, ?Hc.
  2:{ rewrite !length_app, !HL by assumption. reflexivity. }
  2:{ rewrite !length_app, !HL
        by (try assumption; apply transpose_shape; assumption).
      reflexivity. }
  rewrite count_kept, sum_over_kept.
  f_equal. unfold offdiag_sum.
  apply Rsum_ext. intros i Hi. apply Rsum_ext. intros j Hj.
  destruct (Nat.eqb i j); [reflexivity|].
  unfold hinge_pair.
  destruct (nth_stacked _ _ _ _ i j He He Hi Hj) as [-> ->].
  destruct (nth_stacked _ _ _ _ i j H Ht Hi Hj) as [-> ->].
  rewrite (transpose_entry _ _ _ _ _ H Hi Hj).
  rewrite (diag_expanded _ _ H).
  rewrite (entry_map_seq (S n) (S n) (fun a _ => entry x a a)) by assumption.
  reflexivity.
Qed.

Lemma relu_nonneg (v : R) : 0 <= relu v.
Proof. unfold relu. apply Rmax_l. Qed.

Lemma relu_zero_iff (v : R) : relu v = 0 <-> v <= 0.
Proof.
  unfold relu, Rmax. destruct (Rle_dec 0 v); split; intros; lra.
Qed.

Lemma hinge_pair_zero_iff (margin : R) (x : mat) (i j : nat) :
  hinge_pair margin x i j = 0 <->
  entry x i i - entry x i j >= margin /\ entry x i i - entry x j i >= margin.
Proof.
  unfold hinge_pair.
  pose proof (relu_nonneg (margin - (entry x i i - entry x i j))) as H1.
  pose proof (relu_nonneg (margin - (entry x i i - entry x j i))) as H2.
  pose proof (relu_zero_iff (margin - (entry x i i - entry x i j))) as Z1.
  pose proof (relu_zero_iff (margin - (entry x i i - entry x j i))) as Z2.
  split.
  - intros E. split.
    + assert (relu (margin - (entry x i i - entry x i j)) = 0) as E1 by lra.
      apply Z1 in E1. lra.
    + assert (relu (margin - (entry x i i - entry x j i)) = 0) as E2 by lra.
      apply Z2 in E2. lra.
  - intros [G1 G2].
    rewrite (proj2 Z1), (proj2 Z2) by lra. lra.
Qed.

Lemma offdiag_sum_zero_iff (n : nat) (f : nat -> nat -> R) :
  (forall i j, 0 <= f i j) ->
  offdiag_sum n f = 0 <->
  (forall i j, (i < n)%nat -> (j < n)%nat -> i <> j -> f i j = 0).
Proof.
  intros Hf. unfold offdiag_sum.
  assert (Hin : forall i j, 0 <= (if Nat.eqb i j then 0 else f i j))
    by (intros i j; destruct (Nat.eqb i j); [lra | apply Hf]).
  rewrite Rsum_zero_iff by (intros; apply Rsum_nonneg; intros; apply Hin).
  split.
  - intros H i j Hi Hj Hne.
    specialize (H i Hi).
    rewrite Rsum_zero_iff in H by (intros; apply Hin).
    specialize (H j Hj).
    destruct (Nat.eqb_spec i j); [contradiction | exact H].
  - intros H i Hi.
    apply Rsum_zero_iff; [intros; apply Hin|].
    intros j Hj. destruct (Nat.eqb_spec i j); [reflexivity | apply H; assumption].
Qed.

End MaxMargin.

(** C1: for an [n x n] matrix with [n >= 2], [MaxMarginRankingLoss] with
    [fix_norm=True] and margin [m] returns the mean over the [2n(n-1)]
    off-diagonal comparisons: [1/(2n(n-1))] times the sum over [i <> j] of
    [relu(m - (x[i][i] - x[i][j])) + relu(m - (x[i][i] - x[j][i]))]. *)
Theorem max_margin_forward_is_offdiag_mean (n : nat) (margin : R) (x : mat) :
  has_shape n n x -> (2 <= n)%nat ->
  MaxMarginRankingLoss.forward margin true x =
  1 / (2 * INR n * (INR n - 1)) *
  offdiag_sum n (fun i j =>
    Torch.relu (margin - (entry x i i - entry x i j))
    + Torch.relu (margin - (entry x i i - entry x j i))).
Proof.
  intros H Hn. destruct n as [|n]; [lia|].
  rewrite (forward_offdiag _ _ _ H). unfold hinge_pair, Rdiv. lra.
Qed.

Lemma max_margin_forward_is_offdiag_mean_witness :
  has_shape 2 2 [[1; 0]; [0; 1]] /\ (2 <= 2)%nat /\
  MaxMarginRankingLoss.forward 1 true [[1; 0]; [0; 1]] =
  1 / (2 * INR 2 * (INR 2 - 1)) *
  offdiag_sum 2 (fun i j =>
    Torch.relu (1 - (entry [[1; 0]; [0; 1]] i i - entry [[1; 0]; [0; 1]] i j))
    + Torch.relu (1 - (entry [[1; 0]; [0; 1]] i i - entry [[1; 0]; [0; 1]] j i))).
Proof.
  assert (H : has_shape 2 2 [[1; 0]; [0; 1]])
    by (split; [reflexivity | repeat constructor]).
  split; [exact H|]. split; [lia|].
  apply (max_margin_forward_is_offdiag_mean 2 1 [[1; 0]; [0; 1]] H). lia.
Defined.

(** C7, as stated, on the float64 matrix [[1, 2^-70], [0, 1]] with margin
    1: the loss is exactly 0, although the first diagonal score exceeds the
    other score of its row by [1 - 2^-70] only, which is less than the
    margin.  The subtraction [1 - 2^-70] rounds to 1. *)
Lemma max_margin_zero_without_margin :
  Float64.MaxMarginRankingLoss_forward PrimFloat.one true Float64.near_margin
  = PrimFloat.zero /\
  Float64.to_R (nth 0 (nth 0 Float64.near_margin []) PrimFloat.zero)
  - Float64.to_R (nth 1 (nth 0 Float64.near_margin []) PrimFloat.zero)
  < Float64.to_R PrimFloat.one.
Proof.
  split; [vm_compute; reflexivity|].
  unfold Float64.to_R, Float64.near_margin. cbn [nth].
  repeat match goal with
         | |- context [FloatOps.Prim2SF ?f] =>
             let v := eval vm_compute in (FloatOps.Prim2SF f) in
             change (FloatOps.Prim2SF f) with v
         end.
  cbv iota.
  assert (E1 : IZR 4503599627370496 * powerRZ 2 (-52) = 1).
  { change (-52)%Z with (- Z.of_nat 52)%Z.
    rewrite powerRZ_neg', <- pow_powerRZ. simpl. lra. }
  assert (E2 : 0 < IZR 4503599627370496 * powerRZ 2 (-122)).
  { apply Rmult_lt_0_compat; [lra|]. apply powerRZ_lt. lra. }
  lra.
Qed.

(** C7, amended: for an [n x n] matrix with [n >= 2],
    [MaxMarginRankingLoss] with [fix_norm=True] returns exactly 0 if every
    diagonal score exceeds every other score of its row and of its column
    by at least the margin. *)
Theorem max_margin_forward_zero_if (n : nat) (margin : R) (x : mat) :
  has_shape n n x -> (2 <= n)%nat ->
  (forall i j, (i < n)%nat -> (j < n)%nat -> i <> j ->
     entry x i i - entry x i j >= margin /\
     entry x i i - entry x j i >= margin) ->
  MaxMarginRankingLoss.forward margin true x = 0.
Proof.
  intros H Hn G. destruct n as [|n]; [lia|].
  rewrite (forward_offdiag _ _ _ H).
  assert (Hpos : forall i j, 0 <= hinge_pair margin x i j).
  { intros i j. unfold hinge_pair.
    pose proof (relu_nonneg (margin - (entry x i i - entry x i j))).
    pose proof (relu_nonneg (margin - (entry x i i - entry x j i))). lra. }
  unfold Rdiv.
  rewrite (proj2 (offdiag_sum_zero_iff (S n) (hinge_pair margin x) Hpos)).
  - lra.
  - intros i j Hi Hj Hne. apply hinge_pair_zero_iff. apply G; assumption.
Qed.

Lemma max_margin_forward_zero_if_witness :
  has_shape 2 2 [[1; 0]; [0; 1]] /\
  MaxMarginRankingLoss.forward 1 true [[1; 0]; [0; 1]] = 0.
Proof.
  assert (H : has_shape 2 2 [[1; 0]; [0; 1]])
    by (split; [reflexivity | repeat constructor]).
  split; [exact H|].
  apply (max_margin_forward_zero_if 2 1 [[1; 0]; [0; 1]] H); [lia|].
  intros i j Hi Hj Hne.
  destruct i as [|[|i]], j as [|[|j]]; try lia; unfold entry; simpl; lra.
Defined.

(** ** Cross-entropy *)

Section CrossEntropy.
Import Torch.

Lemma Rsum_shift (n : nat) (f : nat -> R) :
  Rsum (S n) f = f 0%nat + Rsum n (fun k => f (S k)).
Proof.
  induction n as [|n IH].
  - simpl. lra.
  - change (Rsum (S (S n)) f) with (Rsum (S n) f + f (S n)).
    rewrite IH. simpl. lra.
Qed.

Lemma sum_map_nth (f : R -> R) (l : vec) :
  sum (map f l) = Rsum (length l) (fun k => f (nth k l 0)).
Proof.
  induction l as [|a l IH].
  - reflexivity.
  - cbn [length]. rewrite Rsum_shift. simpl. rewrite IH. reflexivity.
Qed.

Lemma Rsum_pos (n : nat) (f : nat -> R) :
  (0 < n)%nat -> (forall i, 0 < f i) -> 0 < Rsum n f.
Proof.
  intros Hn Hf. destruct n as [|n]; [lia|].
  simpl.
  assert (0 <= Rsum n f) by (apply Rsum_nonneg; intros; left; apply Hf).
  specialize (Hf n). lra.
Qed.

Lemma map2_seq {A} (f : A -> nat -> R) (d : A) (l : list A) (a : nat) :
  map2 f l (seq a (length l)) =
  map (fun i => f (nth (i - a) l d) i) (seq a (length l)).
Proof.
  revert a. induction l as [|x l IH]; intros a.
  - reflexivity.
  - cbn [length seq map2 map]. rewrite Nat.sub_diag. cbn [nth].
    rewrite IH. f_equal.
    apply map_ext_in. intros i Hi. apply in_seq in Hi.
    replace (i - a)%nat with (S (i - S a)) by lia. reflexivity.
Qed.

Lemma nth_log_softmax (v : vec) (i : nat) :
  (i < length v)%nat ->
  nth i (log_softmax v) 0 =
  nth i v 0 - ln (Rsum (length v) (fun k => exp (nth k v 0))).
Proof.
  intros Hi. unfold log_softmax.
  rewrite (nth_indep _ 0 (0 - ln (sum (map exp v))))
    by (rewrite length_map; exact Hi).
  rewrite (map_nth (fun a => a - ln (sum (map exp v)))).
  rewrite sum_map_nth. reflexivity.
Qed.

(** [nn.CrossEntropyLoss] against the targets [0 .. n-1] is the
    cross-entropy of the specification. *)
Lemma CrossEntropyLoss_arange (n : nat) (z : mat) :
  has_shape n n z ->
  CrossEntropyLoss z (arange n) = softmax_cross_entropy n (entry z) (fun i => i).
Proof.
  intros H. pose proof (proj1 H) as Hn.
  unfold CrossEntropyLoss, nll_loss, softmax_cross_entropy, arange.
  rewrite length_map, Hn. f_equal.
  replace (seq 0 n) with (seq 0 (length (map log_softmax z)))
    by (rewrite length_map, Hn; reflexivity).
  rewrite (map2_seq _ []), length_map, Hn, sum_map_seq.
  apply Rsum_ext. intros i Hi.
  rewrite Nat.sub_0_r.
  change (@nil R) with (log_softmax []) at 1.
  rewrite (map_nth log_softmax).
  pose proof (nth_row_length _ _ _ _ H Hi) as Hr.
  rewrite nth_log_softmax by (rewrite Hr; exact Hi).
  rewrite Hr. fold (entry z i i).
  assert (0 < Rsum n (fun k => exp (nth k (nth i z []) 0)))
    by (apply Rsum_pos; [lia | intros; apply exp_pos]).
  unfold Rdiv. rewrite ln_mult, ln_Rinv, ln_exp
    by (try apply exp_pos; try apply Rinv_0_lt_compat; assumption).
  unfold entry. lra.
Qed.

Lemma div_scalar_shape (n k : nat) (x : mat) (c : R) :
  has_shape n k x -> has_shape n k (div_scalar x c).
Proof.
  intros [Hn Hk]. unfold div_scalar. split.
  - rewrite length_map. exact Hn.
  - apply Forall_map. eapply Forall_impl; [|exact Hk].
    intros r Hr. simpl. rewrite length_map. exact Hr.
Qed.

Lemma div_scalar_entry (n k : nat) (x : mat) (c : R) (i j : nat) :
  has_shape n k x -> (i < n)%nat -> (j < k)%nat ->
  entry (div_scalar x c) i j = entry x i j / c.
Proof.
  intros H Hi Hj. unfold entry, div_scalar.
  change (@nil R) with (map (fun v => v / c) []) at 1.
  rewrite (map_nth (map (fun v => v / c))).
  rewrite (nth_indep _ 0 (0 / c))
    by (rewrite length_map, (nth_row_length _ _ _ _ H Hi); exact Hj).
  apply (map_nth (fun v => v / c)).
Qed.

Lemma softmax_cross_entropy_ext (n : nat) (z z' : nat -> nat -> R) :
  (forall i j, (i < n)%nat -> (j < n)%nat -> z i j = z' i j) ->
  softmax_cross_entropy n z (fun i => i) = softmax_cross_entropy n z' (fun i => i).
Proof.
  intros E. unfold softmax_cross_entropy. f_equal.
  apply Rsum_ext. intros i Hi.
  rewrite (E i i Hi Hi).
  rewrite (Rsum_ext n (fun k => exp (z i k)) (fun k => exp (z' i k)))
    by (intros k Hk; rewrite (E i k Hi Hk); reflexivity).
  reflexivity.
Qed.

(** The symmetric cross-entropy both losses compute from the scaled
    matrix. *)
Lemma symmetric_cross_entropy (n : nat) (x : mat) (c : R) :
  has_shape n n x ->
  let xv := div_scalar x c in
  CrossEntropyLoss xv (arange (length xv))
  + CrossEntropyLoss (transpose xv) (arange (length xv)) =
  softmax_cross_entropy n (fun i j => entry x i j / c) (fun i => i)
  + softmax_cross_entropy n (fun i j => entry x j i / c) (fun i => i).
Proof.
  intros H xv.
  pose proof (div_scalar_shape _ _ _ c H) as Hv. fold xv in Hv.
  rewrite (proj1 Hv).
  destruct n as [|n].
  - destruct x; [reflexivity | destruct H; discriminate].
  - rewrite (CrossEntropyLoss_arange _ _ Hv).
    rewrite (CrossEntropyLoss_arange _ _ (transpose_shape _ _ _ Hv)).
    f_equal; apply softmax_cross_entropy_ext; intros i j Hi Hj.
    + apply (div_scalar_entry _ _ _ _ _ _ H Hi Hj).
    + rewrite (transpose_entry _ _ _ _ _ Hv Hi Hj).
      apply (div_scalar_entry _ _ _ _ _ _ H Hj Hi).
Qed.

End CrossEntropy.

(** C4: for an [n x n] matrix [x], [InfoNceLoss(T).forward(x)] returns
    [CE(x/T, t) + CE((x/T)^T, t)] with [t = [0, ..., n-1]] and [CE] the
    mean-reduced softmax cross-entropy with integer class targets: the
    target of row [i] and of column [i] is the diagonal entry. *)
Theorem info_nce_forward_is_symmetric_cross_entropy
        (n : nat) (T : R) (x : Heap.ref) (s : Heap.store) :
  has_shape n n (s x) ->
  fst (InfoNceLoss.forward T x s) =
  softmax_cross_entropy n (fun i j => entry (s x) i j / T) (fun i => i)
  + softmax_cross_entropy n (fun i j => entry (s x) j i / T) (fun i => i).
Proof.
  intros H. unfold InfoNceLoss.forward, Heap.bind, Heap.idiv, Heap.read, Heap.ret.
  cbn [fst]. unfold Heap.update. rewrite Nat.eqb_refl.
  apply (symmetric_cross_entropy n (s x) T H).
Qed.

Lemma info_nce_forward_is_symmetric_cross_entropy_witness :
  let s : Heap.store := fun _ => [[1; 0]; [0; 1]] in
  has_shape 2 2 (s 0%nat) /\
  fst (InfoNceLoss.forward (7 / 100) 0%nat s) =
  softmax_cross_entropy 2 (fun i j => entry (s 0%nat) i j / (7 / 100)) (fun i => i)
  + softmax_cross_entropy 2 (fun i j => entry (s 0%nat) j i / (7 / 100)) (fun i => i).
Proof.
  intros s.
  assert (H : has_shape 2 2 (s 0%nat))
    by (split; [reflexivity | repeat constructor]).
  split; [exact H|].
  exact (info_nce_forward_is_symmetric_cross_entropy 2 (7 / 100) 0%nat s H).
Defined.

(** ** In-place scaling of the argument *)

Section InPlace.
Import Torch Heap.

Lemma forward_store_info_nce (T : R) (x : ref) (s : store) :
  snd (InfoNceLoss.forward T x s) = update s x (div_scalar (s x) T).
Proof. reflexivity. Qed.

Lemma forward_store_barlow (lambd : R) (c : ref) (s : store) :
  snd (BarlowTwinsLoss.forward lambd c s) = update s c (div_scalar (s c) (7 / 100)).
Proof. reflexivity. Qed.

Lemma update_same (s : store) (r : ref) (v : mat) : update s r v r = v.
Proof. unfold update. rewrite Nat.eqb_refl. reflexivity. Qed.

Lemma map_fixed_iff {A} (f : A -> A) (l : list A) :
  map f l = l <-> Forall (fun a => f a = a) l.
Proof.
  induction l as [|a l IH]; simpl.
  - split; [constructor | reflexivity].
  - split.
    + intros E. injection E as Ea El. constructor; [exact Ea | apply IH, El].
    + intros F. inversion F; subst. f_equal; [assumption | apply IH; assumption].
Qed.

Lemma div_fixed_iff (v c : R) : v / c = v <-> v = 0 \/ c = 1.
Proof.
  split.
  - intros E. destruct (Req_dec v 0) as [Hv|Hv]; [left; exact Hv | right].
    assert (Hc : / c = 1).
    { apply (Rmult_eq_reg_l v); [|exact Hv]. unfold Rdiv in E. lra. }
    rewrite <- (Rinv_inv c), Hc. apply Rinv_1.
  - intros [-> | ->]; unfold Rdiv.
    + lra.
    + rewrite Rinv_1. lra.
Qed.

Lemma div_scalar_fixed_iff (x : mat) (c : R) :
  div_scalar x c = x <-> c = 1 \/ Forall (Forall (fun v => v = 0)) x.
Proof.
  unfold div_scalar. rewrite map_fixed_iff. split.
  - intros F. destruct (Req_dec c 1) as [Hc|Hc]; [left; exact Hc | right].
    eapply Forall_impl; [|exact F]. intros r Hr. cbv beta in Hr.
    apply map_fixed_iff in Hr.
    eapply Forall_impl; [|exact Hr]. intros v Hv. cbv beta in Hv.
    apply div_fixed_iff in Hv. destruct Hv; [assumption | contradiction].
  - intros [Hc | F].
    + apply Forall_forall. intros r _. apply map_fixed_iff.
      apply Forall_forall. intros v _. apply div_fixed_iff. right. exact Hc.
    + eapply Forall_impl; [|exact F]. intros r Hr. cbv beta in Hr.
      apply map_fixed_iff.
      eapply Forall_impl; [|exact Hr]. intros v Hv. cbv beta in Hv.
      apply div_fixed_iff. left. exact Hv.
Qed.

End InPlace.

(** C8, as stated, at the all-zero matrix: after either call the caller's
    tensor still holds its original values. *)
Lemma inplace_scaling_keeps_zero_matrix :
  let s : Heap.store := fun _ => [[0; 0]; [0; 0]] in
  ~ (snd (InfoNceLoss.forward (7 / 100) 0%nat s) 0%nat <> s 0%nat) /\
  ~ (snd (BarlowTwinsLoss.forward (51 / 10000) 0%nat s) 0%nat <> s 0%nat).
Proof.
  intros s.
  assert (E : Torch.div_scalar (s 0%nat) (7 / 100) = s 0%nat).
  { apply div_scalar_fixed_iff. right. repeat constructor. }
  split; intros H; apply H.
  - rewrite forward_store_info_nce, update_same. exact E.
  - rewrite forward_store_barlow, update_same. exact E.
Qed.

(** C8, amended: both [forward]s write through the reference they are
    given: after the call the caller's tensor holds [x] divided by the
    temperature ([self.T], respectively the constant 0.07). *)
Theorem forward_scales_argument_in_place
        (T lambd : R) (x : Heap.ref) (s : Heap.store) :
  snd (InfoNceLoss.forward T x s) x = Torch.div_scalar (s x) T /\
  snd (BarlowTwinsLoss.forward lambd x s) x = Torch.div_scalar (s x) (7 / 100).
Proof.
  rewrite forward_store_info_nce, forward_store_barlow, !update_same.
  split; reflexivity.
Qed.

(** ** BarlowTwinsLoss *)

Lemma barlow_forward_value (n : nat) (lambd : R) (c : Heap.ref) (s : Heap.store) :
  has_shape n n (s c) ->
  fst (BarlowTwinsLoss.forward lambd c s) =
  softmax_cross_entropy n (fun i j => entry (s c) i j / (7 / 100)) (fun i => i)
  + softmax_cross_entropy n (fun i j => entry (s c) j i / (7 / 100)) (fun i => i).
Proof.
  intros H.
  unfold BarlowTwinsLoss.forward, Heap.bind, Heap.idiv, Heap.read, Heap.ret.
  cbn [fst]. unfold Heap.update. rewrite Nat.eqb_refl.
  apply (symmetric_cross_entropy n (s c) (7 / 100) H).
Qed.

Lemma softmax_cross_entropy_zero_2 :
  softmax_cross_entropy 2 (fun _ _ => 0) (fun i => i) = ln 2.
Proof.
  unfold softmax_cross_entropy. simpl. rewrite exp_0.
  replace (1 / (0 + 1 + 1)) with (/ 2) by lra.
  rewrite ln_Rinv by lra. lra.
Qed.

Lemma ln_2_lt_1 : ln 2 < 1.
Proof.
  apply Rlt_le_trans with (ln (exp 1)).
  - apply ln_increasing; [lra|].
    pose proof (exp_ineq1 1 ltac:(lra)). lra.
  - rewrite ln_exp. lra.
Qed.

(** C3 at the 2 x 2 zero matrix: the Barlow Twins objective is 2 for every
    [lambd], while [BarlowTwinsLoss(lambd).forward] returns [2 ln 2], the
    symmetric cross-entropy of the matrix divided by 0.07. *)
Theorem barlow_twins_forward_is_not_the_objective (lambd : R) :
  let s : Heap.store := fun _ => [[0; 0]; [0; 0]] in
  fst (BarlowTwinsLoss.forward lambd 0%nat s) = 2 * ln 2 /\
  barlow_twins_objective lambd 2 (s 0%nat) = 2 /\
  fst (BarlowTwinsLoss.forward lambd 0%nat s)
  <> barlow_twins_objective lambd 2 (s 0%nat).
Proof.
  intros s.
  assert (H : has_shape 2 2 (s 0%nat))
    by (split; [reflexivity | repeat constructor]).
  assert (Z : forall i j, (i < 2)%nat -> (j < 2)%nat ->
                          entry (s 0%nat) i j / (7 / 100) = 0).
  { intros i j Hi Hj.
    destruct i as [|[|i]]; [| |lia]; (destruct j as [|[|j]]; [| |lia]);
      unfold entry; simpl; lra. }
  assert (E1 : fst (BarlowTwinsLoss.forward lambd 0%nat s) = 2 * ln 2).
  { rewrite (barlow_forward_value 2 lambd 0%nat s H).
    rewrite (softmax_cross_entropy_ext 2 _ (fun _ _ => 0)) by (intros; apply Z; assumption).
    rewrite (softmax_cross_entropy_ext 2 (fun i j => entry (s 0%nat) j i / (7 / 100))
                                       (fun _ _ => 0))
      by (intros; apply Z; assumption).
    rewrite softmax_cross_entropy_zero_2. lra. }
  assert (E2 : barlow_twins_objective lambd 2 (s 0%nat) = 2).
  { unfold barlow_twins_objective, offdiag_sum. simpl. lra. }
  split; [exact E1|]. split; [exact E2|].
  rewrite E1, E2. pose proof ln_2_lt_1. lra.
Qed.

(** ** Normalisation and inner products *)

Section Similarity.
Import Torch.

Lemma mat_ext (n k : nat) (a b : mat) :
  has_shape n k a -> has_shape n k b ->
  (forall i j, (i < n)%nat -> (j < k)%nat -> entry a i j = entry b i j) ->
  a = b.
Proof.
  intros Ha Hb E.
  apply (nth_ext a b [] []).
  - rewrite (proj1 Ha), (proj1 Hb). reflexivity.
  - intros i Hi. rewrite (proj1 Ha) in Hi.
    apply (nth_ext _ _ 0 0).
    + rewrite (nth_row_length _ _ _ _ Ha Hi), (nth_row_length _ _ _ _ Hb Hi).
      reflexivity.
    + intros j Hj. rewrite (nth_row_length _ _ _ _ Ha Hi) in Hj.
      apply E; assumption.
Qed.

Lemma transpose_involutive (m d : nat) (v : mat) :
  has_shape m (S d) v -> transpose (transpose v) = v.
Proof.
  intros H. destruct m as [|m].
  - destruct v; [reflexivity | destruct H; discriminate].
  - pose proof (transpose_shape _ _ _ H) as Ht.
    pose proof (transpose_shape _ _ _ Ht) as Htt.
    apply (mat_ext (S m) (S d)); try assumption.
    intros i j Hi Hj.
    rewrite (transpose_entry _ _ _ _ _ Ht Hi Hj).
    apply (transpose_entry _ _ _ _ _ H Hj Hi).
Qed.

Lemma sumsq_nonneg (v : vec) : 0 <= sum (map (fun a => a * a) v).
Proof.
  induction v as [|a v IH]; simpl.
  - lra.
  - nra.
Qed.


Lemma dot_scaled (u v : vec) (a b : R) :
  dot (map (fun x => x / a) u) (map (fun y => y / b) v) = dot u v / (a * b).
Proof.
  unfold dot. revert v. induction u as [|x u IH]; intros [|y v]; simpl;
    try (unfold Rdiv; lra).
  rewrite IH. unfold Rdiv. rewrite Rinv_mult. lra.
Qed.

Lemma normalize_eps_pos : 0 < normalize_eps.
Proof. unfold normalize_eps. apply Rinv_0_lt_compat. apply pow_lt. lra. Qed.

(** The inner product of two normalised vectors. *)
Lemma dot_normalize (u v : vec) :
  dot (normalize u) (normalize v) =
  dot u v / (Rmax (norm2 u) normalize_eps * Rmax (norm2 v) normalize_eps).
Proof. unfold normalize. apply dot_scaled. Qed.

Lemma dot_normalize_cosine (u v : vec) :
  normalize_eps <= norm2 u -> normalize_eps <= norm2 v ->
  dot (normalize u) (normalize v) = cosine_similarity u v.
Proof.
  intros Hu Hv. rewrite dot_normalize. unfold cosine_similarity.
  rewrite !Rmax_left by assumption. reflexivity.
Qed.

Lemma normalize_length (v : vec) : length (normalize v) = length v.
Proof. unfold normalize. apply length_map. Qed.

Lemma normalize_rows_shape (n d : nat) (x : mat) :
  has_shape n d x -> has_shape n d (map normalize x).
Proof.
  intros [Hn Hd]. split.
  - rewrite length_map. exact Hn.
  - apply Forall_map. eapply Forall_impl; [|exact Hd].
    intros r Hr. cbv beta. rewrite normalize_length. exact Hr.
Qed.

Lemma nth_normalize_rows (x : mat) (i : nat) :
  nth i (map normalize x) [] = normalize (nth i x []).
Proof. change (@nil R) with (normalize []) at 1. apply map_nth. Qed.

(** Entry [(i, j)] of [a @ b.T] is the inner product of row [i] of [a]
    and row [j] of [b]. *)
Lemma matmul_transpose_entry (m d : nat) (a b : mat) (i j : nat) :
  has_shape m (S d) b -> (i < length a)%nat -> (j < m)%nat ->
  entry (matmul a (transpose b)) i j = dot (nth i a []) (nth j b []).
Proof.
  intros Hb Hi Hj. unfold matmul.
  rewrite (transpose_involutive _ _ _ Hb). unfold entry.
  rewrite (nth_indep _ [] (map (dot []) b)) by (rewrite length_map; exact Hi).
  rewrite (map_nth (fun r => map (dot r) b)).
  rewrite (nth_indep _ 0 (dot (nth i a []) []))
    by (rewrite length_map, (proj1 Hb); exact Hj).
  apply (map_nth (dot (nth i a []))).
Qed.

Lemma matmul_transpose_shape (m d : nat) (a b : mat) :
  has_shape m (S d) b -> has_shape (length a) m (matmul a (transpose b)).
Proof.
  intros Hb. unfold matmul. rewrite (transpose_involutive _ _ _ Hb). split.
  - apply length_map.
  - apply Forall_map, Forall_forall. intros r _.
    rewrite length_map. apply Hb.
Qed.

End Similarity.

Lemma sharded_entry (n m d : nat) (vid txt : mat) (subspaces : list string)
      (i j : nat) :
  has_shape n (S d) txt -> has_shape m (S d) vid -> (i < n)%nat -> (j < m)%nat ->
  entry (sharded_cross_view_inner_product vid txt subspaces) i j =
  Torch.dot (Torch.normalize (nth i txt [])) (Torch.normalize (nth j vid [])).
Proof.
  intros Ht Hv Hi Hj. unfold sharded_cross_view_inner_product.
  rewrite (matmul_transpose_entry m d)
    by (try apply normalize_rows_shape; try rewrite length_map, (proj1 Ht);
        assumption).
  rewrite !nth_normalize_rows. reflexivity.
Qed.

Lemma tiny_norm (t : R) : 0 <= t -> Torch.norm2 [t] = t.
Proof.
  intros H. unfold Torch.norm2. simpl. rewrite Rplus_0_r. apply sqrt_square, H.
Qed.

(** C6, as stated, at a caption of norm [1e-13]: the row is nonzero, but
    the entry is [1/10] while the cosine similarity is 1. *)
Lemma sharded_inner_product_tiny_row_not_cosine :
  let T := [[/ 10 ^ 13]] in
  let V := [[1]] in
  Forall nonzero_vec T /\ Forall nonzero_vec V /\
  entry (sharded_cross_view_inner_product V T []) 0 0 = 1 / 10 /\
  cosine_similarity (nth 0 T []) (nth 0 V []) = 1 /\
  entry (sharded_cross_view_inner_product V T []) 0 0
  <> cosine_similarity (nth 0 T []) (nth 0 V []).
Proof.
  intros T V.
  assert (Ht : 0 < / 10 ^ 13) by (apply Rinv_0_lt_compat, pow_lt; lra).
  assert (He : Torch.normalize_eps = 10 * / 10 ^ 13).
  { unfold Torch.normalize_eps. field. }
  assert (E1 : entry (sharded_cross_view_inner_product V T []) 0 0 = 1 / 10).
  { rewrite (sharded_entry 1 1 0)
      by (try (split; [reflexivity | repeat constructor]); lia).
    rewrite dot_normalize. cbn [nth T V].
    rewrite !tiny_norm by lra.
    rewrite Rmax_right by lra. rewrite Rmax_left by lra.
    unfold Torch.dot. simpl. rewrite He. field. }
  assert (E2 : cosine_similarity (nth 0 T []) (nth 0 V []) = 1).
  { unfold cosine_similarity. cbn [nth T V]. rewrite !tiny_norm by lra.
    unfold Torch.dot. simpl. field. }
  split; [repeat constructor; lra|]. split; [repeat constructor; lra|].
  split; [exact E1|]. split; [exact E2|].
  rewrite E1, E2. lra.
Qed.

Lemma norm2_le (v : list R) (c : R) :
  0 <= c -> Torch.sum (map (fun a => a * a) v) <= c * c -> Torch.norm2 v <= c.
Proof.
  intros Hc H. unfold Torch.norm2.
  rewrite <- (sqrt_square c Hc). apply sqrt_le_1_alt, H.
Qed.

(** Discharges [norm2 v <= norm_bound] for a vector of small numerals. *)
Ltac small_norm :=
  apply norm2_le; unfold norm_bound; [simpl; lra | simpl; lra].

Ltac small_rows :=
  unfold bounded_rows;
  repeat (apply Forall_cons; [small_norm|]); apply Forall_nil.

Ltac small_tokens :=
  unfold bounded_tokens;
  repeat (apply Forall_cons; [small_rows|]); apply Forall_nil.

(** C6, amended: for captions [T] ([n x d]) and videos [V] ([m x d]),
    [d >= 1], with rows of norm at most [1e18],
    [sharded_cross_view_inner_product] returns the [n x m] matrix whose
    [(i, j)] entry is the inner product of [T_i / max(||T_i||, 1e-12)] and
    [V_j / max(||V_j||, 1e-12)], that is
    [<T_i, V_j> / (max(||T_i||, 1e-12) * max(||V_j||, 1e-12))]; this is the
    cosine similarity of caption [i] and video [j] whenever both rows have
    norm at least [1e-12]. *)
Theorem sharded_inner_product_is_clamped_cosine
        (n m d : nat) (vid txt : mat) (subspaces : list string) :
  has_shape n d txt -> has_shape m d vid -> (1 <= d)%nat ->
  bounded_rows txt -> bounded_rows vid ->
  has_shape n m (sharded_cross_view_inner_product vid txt subspaces) /\
  forall i j, (i < n)%nat -> (j < m)%nat ->
    let s := entry (sharded_cross_view_inner_product vid txt subspaces) i j in
    let ti := nth i txt [] in
    let vj := nth j vid [] in
    s = Torch.dot (Torch.normalize ti) (Torch.normalize vj) /\
    s = Torch.dot ti vj / (Rmax (Torch.norm2 ti) Torch.normalize_eps
                           * Rmax (Torch.norm2 vj) Torch.normalize_eps) /\
    (Torch.normalize_eps <= Torch.norm2 ti ->
     Torch.normalize_eps <= Torch.norm2 vj ->
     s = cosine_similarity ti vj).
Proof.
  intros Ht Hv Hd _ _. destruct d as [|d]; [lia|]. split.
  - unfold sharded_cross_view_inner_product.
    rewrite <- (proj1 Ht), <- (length_map Torch.normalize txt).
    apply (matmul_transpose_shape m d), normalize_rows_shape, Hv.
  - intros i j Hi Hj s ti vj. unfold s.
    rewrite (sharded_entry n m d) by assumption.
    fold ti vj. split; [reflexivity|]. split; [apply dot_normalize|].
    apply dot_normalize_cosine.
Qed.

Lemma sharded_inner_product_is_clamped_cosine_witness :
  has_shape 1 2 [[3; 4]] /\ has_shape 2 2 [[1; 0]; [0; 1]] /\
  bounded_rows [[3; 4]] /\ bounded_rows [[1; 0]; [0; 1]] /\
  has_shape 1 2 (sharded_cross_view_inner_product [[1; 0]; [0; 1]] [[3; 4]] []).
Proof.
  assert (Ht : has_shape 1 2 [[3; 4]])
    by (split; [reflexivity | repeat constructor]).
  assert (Hv : has_shape 2 2 [[1; 0]; [0; 1]])
    by (split; [reflexivity | repeat constructor]).
  assert (Bt : bounded_rows [[3; 4]]) by small_rows.
  assert (Bv : bounded_rows [[1; 0]; [0; 1]]) by small_rows.
  split; [exact Ht|]. split; [exact Hv|]. split; [exact Bt|]. split; [exact Bv|].
  apply (sharded_inner_product_is_clamped_cosine 1 2 2 _ _ [] Ht Hv);
    [lia | exact Bt | exact Bv].
Defined.

(** ** Views, repetition and batched products *)

Section Views.
Import Torch.

Lemma chunks_concat {A} (n k : nat) (x : list (list A)) :
  has_shape n k x -> chunks n k (concat x) = x.
Proof.
  revert n. induction x as [|r x IH]; intros n [Hn Hk]; subst n.
  - reflexivity.
  - inversion Hk as [|? ? Hr Hx]; subst.
    unfold chunks. cbn [length seq map concat].
    f_equal.
    + simpl. rewrite firstn_app, Nat.sub_diag, firstn_all. simpl.
      apply app_nil_r.
    + rewrite <- seq_shift, map_map.
      rewrite <- (IH (length x)) at 2 by (split; [reflexivity | assumption]).
      unfold chunks. apply map_ext. intros i.
      replace (S i * length r)%nat with (length r + i * length r)%nat by lia.
      rewrite skipn_app, skipn_all2 by lia.
      replace (length r + i * length r - length r)%nat
        with (i * length r)%nat by lia.
      reflexivity.
Qed.

Lemma map2_map_repeat {A B C D} (f : B -> C -> D) (g : A -> B) (c : C)
      (l : list A) :
  map2 f (map g l) (repeat c (length l)) = map (fun a => f (g a) c) l.
Proof.
  induction l as [|a l IH]; simpl.
  - reflexivity.
  - rewrite IH. reflexivity.
Qed.

Lemma map2_repeat_left {A B C D} (f : C -> B -> D) (g : A -> B) (c : C)
      (l : list A) :
  map2 f (repeat c (length l)) (map g l) = map (fun a => f c (g a)) l.
Proof.
  induction l as [|a l IH]; simpl.
  - reflexivity.
  - rewrite IH. reflexivity.
Qed.

Lemma concat_repeat_singleton {A} (a : A) (k : nat) :
  concat (repeat [a] k) = repeat a k.
Proof.
  induction k as [|k IH]; simpl.
  - reflexivity.
  - rewrite IH. reflexivity.
Qed.

Lemma map_over_indices {A B} (f : A -> B) (d : A) (l : list A) :
  map f l = map (fun j => f (nth j l d)) (seq 0 (length l)).
Proof.
  induction l as [|a l IH].
  - reflexivity.
  - cbn [length seq map nth]. rewrite <- seq_shift, map_map.
    rewrite IH. reflexivity.
Qed.

(** The matrix of inner products of the rows of [t] and [v]. *)
Lemma matmul_transpose_rows (m d : nat) (t v : mat) :
  has_shape m (S d) v ->
  matmul t (transpose v) = map (fun r => map (dot r) v) t.
Proof.
  intros H. unfold matmul. rewrite (transpose_involutive _ _ _ H).
  reflexivity.
Qed.

(** The similarity tensor of [cpt_mean_maximum_similarity]:
    [sim[i][j][a][b] = <tn[i][a], vn[j][b]>]. *)
Lemma sim_broadcast (vt d : nat) (tn vn : tensor3) :
  Forall (has_shape vt (S d)) vn ->
  matmul4 (repeat_dim1 (length vn) (unsqueeze1_3 tn))
          (permute_0132 (repeat_dim0 (length tn) (unsqueeze0_3 vn))) =
  map (fun t => map (fun v => map (fun r => map (dot r) v) t) vn) tn.
Proof.
  intros Hv.
  unfold matmul4, repeat_dim1, unsqueeze1_3, repeat_dim0, unsqueeze0_3,
    permute_0132.
  rewrite concat_repeat_singleton, map_repeat, map_map.
  rewrite (map2_map_repeat (map2 matmul)).
  apply map_ext. intros t. cbv beta.
  rewrite concat_repeat_singleton, map2_repeat_left.
  apply map_ext_in. intros v Hin.
  rewrite Forall_forall in Hv.
  apply (matmul_transpose_rows vt d), Hv, Hin.
Qed.

Lemma length_concat_rows {A} (n k : nat) (x : list (list A)) :
  has_shape n k x -> length (concat x) = (n * k)%nat.
Proof.
  intros [Hn Hk]. subst n.
  induction Hk as [|r x Hr _ IH]; simpl.
  - reflexivity.
  - rewrite length_app, IH, Hr. reflexivity.
Qed.

Lemma concat_shape3 {A} (b t d : nat) (x : list (list (list A))) :
  length x = b -> Forall (has_shape t d) x -> has_shape (b * t) d (concat x).
Proof.
  intros Hb Hx. split.
  - apply length_concat_rows. split; [exact Hb|].
    eapply Forall_impl; [|exact Hx]. intros m Hm. apply Hm.
  - apply Forall_concat.
    eapply Forall_impl; [|exact Hx]. intros m Hm. apply Hm.
Qed.

Lemma concat_map_concat {A} (l : list (list (list A))) :
  concat (map (@concat A) l) = concat (concat l).
Proof.
  induction l as [|x l IH]; simpl.
  - reflexivity.
  - rewrite concat_app, IH. reflexivity.
Qed.

(** The similarity tensor of [cpt_mean_maximum_similarity2]:
    [sim[i][a][j][b] = <tn[i][a], vn[j][b]>]. *)
Lemma sim_flat (tb tt vb vt d : nat) (tn vn : tensor3) :
  has_shape3 tb tt (S d) tn -> has_shape3 vb vt (S d) vn ->
  view2_4 tb tt vb vt
          (matmul (view3_2 (tb * tt) (S d) tn)
                  (transpose (view3_2 (vb * vt) (S d) vn))) =
  map (map (fun r => map (fun v => map (dot r) v) vn)) tn.
Proof.
  intros [Htb Ht] [Hvb Hv].
  pose proof (concat_shape3 _ _ _ _ Htb Ht) as Sct.
  pose proof (concat_shape3 _ _ _ _ Hvb Hv) as Scv.
  unfold view3_2. rewrite !chunks_concat by assumption.
  rewrite (matmul_transpose_rows _ _ _ _ Scv).
  set (g := fun r : list R => map (fun v => map (dot r) v) vn).
  assert (Hg : forall r, has_shape vb vt (g r)).
  { intros r. unfold g. split.
    - rewrite length_map. exact Hvb.
    - apply Forall_map. eapply Forall_impl; [|exact Hv].
      intros v Hvv. cbv beta. rewrite length_map. apply Hvv. }
  assert (E : map (fun r => map (dot r) (concat vn)) (concat tn)
              = map (@concat R) (map g (concat tn))).
  { rewrite map_map. apply map_ext. intros r. unfold g.
    rewrite concat_map. reflexivity. }
  rewrite E. unfold view2_4. rewrite concat_map_concat.
  assert (SY : length (map g (concat tn)) = (tb * tt)%nat)
    by (rewrite length_map; apply Sct).
  assert (FY : Forall (has_shape vb vt) (map g (concat tn)))
    by (apply Forall_map, Forall_forall; intros r _; apply Hg).
  rewrite (chunks_concat (tb * tt * vb) vt)
    by (apply concat_shape3; assumption).
  rewrite (chunks_concat (tb * tt) vb)
    by (split; [exact SY | eapply Forall_impl; [|exact FY]; intros m Hm; apply Hm]).
  rewrite concat_map. apply chunks_concat. split.
  - rewrite length_map. exact Htb.
  - apply Forall_map. eapply Forall_impl; [|exact Ht].
    intros m Hm. cbv beta. rewrite length_map. apply Hm.
Qed.

End Views.

(** ** The two max-mean similarity routines *)

Section MaxMean.
Import Torch.

Lemma shape_of_rows {A B} (f : A -> list B) (n k : nat) (l : list A) :
  length l = n -> (forall a, length (f a) = k) -> has_shape n k (map f l).
Proof.
  intros Hl Hf. split.
  - rewrite length_map. exact Hl.
  - apply Forall_map, Forall_forall. intros a _. apply Hf.
Qed.

Lemma view2_same_shape (n k : nat) (x : mat) :
  has_shape n k x -> view2 n k x = x.
Proof. apply chunks_concat. Qed.

Lemma first_routine (vt d : nat) (tn vn : tensor3) :
  Forall (has_shape vt (S d)) vn ->
  let sim := matmul4 (repeat_dim1 (length vn) (unsqueeze1_3 tn))
                     (permute_0132 (repeat_dim0 (length tn) (unsqueeze0_3 vn))) in
  view2 (length tn) (length vn)
        (map (map mean_vec) (map (map (map max_vec)) sim)) = t2v_of tn vn /\
  map (map mean_vec) (map (map max_dim0) sim) = v2t_of tn vn.
Proof.
  intros Hv sim. unfold sim. rewrite (sim_broadcast vt d) by exact Hv.
  rewrite !map_map. split.
  - rewrite view2_same_shape.
    + apply map_ext. intros t. rewrite !map_map. reflexivity.
    + apply shape_of_rows; [reflexivity|].
      intros t. rewrite !length_map. reflexivity.
  - apply map_ext. intros t. rewrite !map_map. reflexivity.
Qed.

Lemma nth_map_default {A} (f : A -> R) (l : list A) (d : A) (j : nat) :
  (j < length l)%nat -> nth j (map f l) 0 = f (nth j l d).
Proof.
  intros Hj. rewrite (nth_indep _ 0 (f d)) by (rewrite length_map; exact Hj).
  apply map_nth.
Qed.

(** Reducing over the first dimension of a matrix given by its rows. *)
Lemma transpose_of_rows {A} (h : A -> vec) (k : nat) (a : A) (t : list A) :
  (forall r, length (h r) = k) ->
  transpose (map h (a :: t)) =
  map (fun j => map (fun r => nth j (h r) 0) (a :: t)) (seq 0 k).
Proof.
  intros Hh. unfold transpose, cols. cbn [map hd]. rewrite Hh.
  apply map_ext. intros j. cbn [map]. rewrite map_map. reflexivity.
Qed.

Lemma second_routine_t2v (tn vn : tensor3) :
  Forall (fun t => t <> []) tn ->
  map mean_dim0
      (map (map (map max_vec))
           (map (map (fun r => map (fun v => map (dot r) v) vn)) tn)) =
  t2v_of tn vn.
Proof.
  intros Ht. unfold t2v_of. rewrite !map_map.
  apply map_ext_in. intros t Hin.
  rewrite Forall_forall in Ht. specialize (Ht t Hin).
  destruct t as [|a t]; [contradiction|].
  rewrite map_map. unfold mean_dim0.
  rewrite (transpose_of_rows
             (fun r => map max_vec (map (fun v => map (dot r) v) vn))
             (length vn))
    by (intros r; rewrite !length_map; reflexivity).
  rewrite map_map.
  rewrite (map_over_indices
             (fun v => mean_vec (map max_vec (token_scores (a :: t) v))) []).
  apply map_ext_in. intros j Hj. apply in_seq in Hj.
  f_equal. unfold token_scores. rewrite map_map.
  apply map_ext. intros r. rewrite map_map.
  apply (nth_map_default (fun v => max_vec (map (dot r) v))). lia.
Qed.

Lemma second_routine_v2t (vb vt d : nat) (tn vn : tensor3) :
  Forall (fun t => t <> []) tn ->
  has_shape3 (S vb) vt d vn ->
  map (map mean_vec)
      (map max_dim0_3
           (map (map (fun r => map (fun v => map (dot r) v) vn)) tn)) =
  v2t_of tn vn.
Proof.
  intros Ht [Hvb Hv]. unfold v2t_of. rewrite !map_map.
  apply map_ext_in. intros t Hin.
  rewrite Forall_forall in Ht. specialize (Ht t Hin).
  destruct t as [|a t]; [contradiction|].
  destruct vn as [|v0 vn']; [discriminate|].
  set (vn := v0 :: vn') in *.
  assert (Hlen : forall v, In v vn -> length v = vt).
  { intros v Hvin. rewrite Forall_forall in Hv. apply (Hv v Hvin). }
  unfold max_dim0_3.
  replace (length (hd [] (map (fun r => map (fun v => map (dot r) v) vn) (a :: t))))
    with (length vn) by (cbn [map hd]; rewrite length_map; reflexivity).
  replace (cols (hd [] (map (fun r => map (fun v => map (dot r) v) vn) (a :: t))))
    with vt
    by (unfold cols, vn; cbn [map hd]; rewrite length_map;
        symmetry; apply Hlen; left; reflexivity).
  rewrite map_map.
  rewrite (map_over_indices
             (fun v => mean_vec (max_dim0 (token_scores (a :: t) v))) []).
  apply map_ext_in. intros j Hj. apply in_seq in Hj.
  f_equal. unfold max_dim0, token_scores.
  rewrite (transpose_of_rows (fun r => map (dot r) (nth j vn [])) vt)
    by (intros r; rewrite length_map; apply Hlen, nth_In; lia).
  rewrite map_map.
  apply map_ext. intros k. f_equal. rewrite map_map.
  apply map_ext. intros r. f_equal.
  change (@nil R) with (map (dot r) []) at 1.
  apply (map_nth (fun v => map (dot r) v)).
Qed.

End MaxMean.

Section RoutinesAgree.
Import Torch Server.

Lemma normalize3_shape (b t d : nat) (x : tensor3) :
  has_shape3 b t d x -> has_shape3 b t d (normalize3 x).
Proof.
  intros [Hb Hx]. unfold normalize3. split.
  - rewrite length_map. exact Hb.
  - apply Forall_map. eapply Forall_impl; [|exact Hx].
    intros m Hm. apply normalize_rows_shape, Hm.
Qed.

Lemma shape3_dims (b t d : nat) (x : tensor3) :
  has_shape3 (S b) (S t) d x ->
  length x = S b /\ length (hd [] x) = S t /\ length (hd [] (hd [] x)) = d.
Proof.
  intros [Hb Hx]. split; [exact Hb|].
  destruct x as [|m x]; [discriminate|].
  inversion Hx as [|? ? [Hm Hr] _]; subst. cbn [hd]. split; [exact Hm|].
  destruct m as [|r m]; [discriminate|].
  inversion Hr; subst. reflexivity.
Qed.

Lemma shape3_nonempty (b t d : nat) (x : tensor3) :
  has_shape3 b (S t) d x -> Forall (fun m => m <> []) x.
Proof.
  intros [_ Hx]. eapply Forall_impl; [|exact Hx].
  intros m [Hm _] E. subst m. discriminate.
Qed.

(** Both routines, in terms of the normalised inputs. *)
Lemma routines_closed_form (tb tt vb vt d : nat) (vid_rep txt_rep : tensor3) :
  has_shape3 (S tb) (S tt) (S d) txt_rep ->
  has_shape3 (S vb) (S vt) (S d) vid_rep ->
  let tn := normalize3 txt_rep in
  let vn := normalize3 vid_rep in
  t2v (cpt_mean_maximum_similarity vid_rep txt_rep) = t2v_of tn vn /\
  v2t (cpt_mean_maximum_similarity vid_rep txt_rep)
  = view2 (S vb) (S tb) (v2t_of tn vn) /\
  t2v (cpt_mean_maximum_similarity2 vid_rep txt_rep) = t2v_of tn vn /\
  v2t (cpt_mean_maximum_similarity2 vid_rep txt_rep) = v2t_of tn vn.
Proof.
  intros Ht Hv tn vn.
  destruct (shape3_dims _ _ _ _ Ht) as (Lt & Lt1 & Lt2).
  destruct (shape3_dims _ _ _ _ Hv) as (Lv & Lv1 & Lv2).
  pose proof (normalize3_shape _ _ _ _ Ht) as Htn. fold tn in Htn.
  pose proof (normalize3_shape _ _ _ _ Hv) as Hvn. fold vn in Hvn.
  assert (Ltn : length tn = length txt_rep) by apply length_map.
  assert (Lvn : length vn = length vid_rep) by apply length_map.
  destruct (first_routine (S vt) d tn vn (proj2 Hvn)) as [F1 F2].
  unfold cpt_mean_maximum_similarity, cpt_mean_maximum_similarity2.
  cbn [t2v v2t]. fold tn vn.
  rewrite Ltn, Lvn, Lt, Lv in F1, F2.
  rewrite Lt1, Lt2, Lv1, Lv2, Lt, Lv.
  rewrite (sim_flat (S tb) (S tt) (S vb) (S vt) d tn vn Htn Hvn).
  repeat split.
  - exact F1.
  - rewrite F2. reflexivity.
  - apply second_routine_t2v, (shape3_nonempty _ _ _ _ Htn).
  - apply (second_routine_v2t vb (S vt) (S d)); [|exact Hvn].
    apply (shape3_nonempty _ _ _ _ Htn).
Qed.

Lemma v2t_of_shape (tn vn : tensor3) :
  has_shape (length tn) (length vn) (v2t_of tn vn).
Proof.
  unfold v2t_of. apply shape_of_rows; [reflexivity|].
  intros t. apply length_map.
Qed.

Lemma t2v_of_shape (tn vn : tensor3) :
  has_shape (length tn) (length vn) (t2v_of tn vn).
Proof.
  unfold t2v_of. apply shape_of_rows; [reflexivity|].
  intros t. apply length_map.
Qed.

Lemma t2v_of_entry (txt_rep vid_rep : tensor3) (i j : nat) :
  (i < length txt_rep)%nat -> (j < length vid_rep)%nat ->
  entry (t2v_of (normalize3 txt_rep) (normalize3 vid_rep)) i j =
  mean_max (fun a b => dot (normalize a) (normalize b))
           (nth i txt_rep []) (nth j vid_rep []).
Proof.
  intros Hi Hj. unfold entry, t2v_of, normalize3.
  rewrite map_map.
  rewrite (nth_indep _ [] ((fun t => map (fun v => mean_vec (map max_vec
             (token_scores (map normalize t) v))) (map (map normalize) vid_rep)) []))
    by (rewrite length_map; exact Hi).
  rewrite (map_nth (fun t => map (fun v => mean_vec (map max_vec
             (token_scores (map normalize t) v))) (map (map normalize) vid_rep))).
  rewrite map_map.
  rewrite (nth_map_default _ _ [] j Hj).
  unfold mean_max, token_scores. rewrite !map_map. f_equal.
  apply map_ext. intros a. rewrite map_map. reflexivity.
Qed.

End RoutinesAgree.

Lemma mean_max_ext (f g : list R -> list R -> R) (c w : list (list R)) :
  (forall a b, In a c -> In b w -> f a b = g a b) ->
  mean_max f c w = mean_max g c w.
Proof.
  intros E. unfold mean_max. f_equal.
  apply map_ext_in. intros a Ha. f_equal.
  apply map_ext_in. intros b Hb. apply E; assumption.
Qed.

(** C2, as stated, at one caption with one token of norm [1e-13] and one
    video with one unit token: the token vectors are nonzero, both routines
    return [t2v[0][0] = 1/10], and the mean of the maxima of the cosine
    similarities is 1. *)
Lemma max_mean_similarity_tiny_token_not_cosine :
  let txt_rep := [[[/ 10 ^ 13]]] in
  let vid_rep := [[[1]]] in
  Forall (Forall nonzero_vec) txt_rep /\ Forall (Forall nonzero_vec) vid_rep /\
  entry (Server.t2v (Server.cpt_mean_maximum_similarity vid_rep txt_rep)) 0 0
  = 1 / 10 /\
  entry (Server.t2v (Server.cpt_mean_maximum_similarity2 vid_rep txt_rep)) 0 0
  = 1 / 10 /\
  mean_max cosine_similarity (nth 0 txt_rep []) (nth 0 vid_rep []) = 1 /\
  entry (Server.t2v (Server.cpt_mean_maximum_similarity vid_rep txt_rep)) 0 0
  <> mean_max cosine_similarity (nth 0 txt_rep []) (nth 0 vid_rep []).
Proof.
  intros txt_rep vid_rep.
  assert (Ht : has_shape3 1 1 1 txt_rep)
    by (split; [reflexivity | repeat constructor]).
  assert (Hv : has_shape3 1 1 1 vid_rep)
    by (split; [reflexivity | repeat constructor]).
  destruct (routines_closed_form 0 0 0 0 0 vid_rep txt_rep Ht Hv)
    as (E1 & _ & E2 & _).
  assert (Hp : 0 < / 10 ^ 13) by (apply Rinv_0_lt_compat, pow_lt; lra).
  assert (He : Torch.normalize_eps = 10 * / 10 ^ 13).
  { unfold Torch.normalize_eps. field. }
  assert (V : entry (t2v_of (Torch.normalize3 txt_rep) (Torch.normalize3 vid_rep)) 0 0
              = 1 / 10).
  { rewrite t2v_of_entry by (simpl; lia).
    unfold mean_max, Torch.mean_vec. cbn [nth txt_rep vid_rep map Torch.max_vec fold_left].
    rewrite dot_normalize, !tiny_norm by lra.
    rewrite Rmax_right by lra. rewrite Rmax_left by lra.
    unfold Torch.dot. simpl. rewrite He. field. }
  assert (C : mean_max cosine_similarity (nth 0 txt_rep []) (nth 0 vid_rep []) = 1).
  { unfold mean_max, Torch.mean_vec, cosine_similarity.
    cbn [nth txt_rep vid_rep map Torch.max_vec fold_left].
    rewrite !tiny_norm by lra. unfold Torch.dot. simpl. field. }
  split; [repeat constructor; lra|]. split; [repeat constructor; lra|].
  rewrite E1, E2, V, C. repeat split; try reflexivity. lra.
Qed.

(** ** MMTwins.forward: the projection heads *)

Section Projection.
Import Torch TorchExt Py MMTwins.

Lemma forward_locals_txt_projector (s : self) (tp : Sequential) (inp : inputs) :
  forward_locals (with_txt_projector s tp) inp = forward_locals s inp.
Proof. destruct s. reflexivity. Qed.

Lemma forward_heads_txt_projector (s : self) (tp : Sequential) (l : locals) :
  forward_heads (with_txt_projector s tp) l = forward_heads s l.
Proof. destruct s. reflexivity. Qed.

Lemma forward_return_txt_projector (s : self) (tp : Sequential) (o : string)
      (h : heads) :
  forward_return (with_txt_projector s tp) o h = forward_return s o h.
Proof. destruct s. reflexivity. Qed.

End Projection.

(** C9: in [MMTwins.forward] both contrastive embeddings come from the same
    projection head, [vid_embd_CL = bn(vid_projector(vid_reps))] and
    [txt_embd_CL = bn(vid_projector(txt_reps))], and [txt_projector] never
    influences a returned value: two runs that differ only in
    [txt_projector] return the same result for every input. *)
Theorem txt_projector_never_influences_forward
        (s : MMTwins.self) (tp : MMTwins.Sequential) (inp : MMTwins.inputs)
        (l : MMTwins.locals) :
  MMTwins.forward (MMTwins.with_txt_projector s tp) inp = MMTwins.forward s inp /\
  match MMTwins.forward_heads s l with
  | Py.Ok h =>
      MMTwins.vid_embd_CL h
      = MMTwins.bn s (MMTwins.Sequential_forward (MMTwins.vid_projector s)
                                                 (MMTwins.vid_reps h)) /\
      MMTwins.txt_embd_CL h
      = MMTwins.bn s (MMTwins.Sequential_forward (MMTwins.vid_projector s)
                                                 (MMTwins.txt_reps h))
  | Py.Err _ => True
  end.
Proof.
  split.
  - unfold MMTwins.forward.
    rewrite forward_locals_txt_projector.
    destruct (MMTwins.forward_locals s inp) as [l0|e]; [|reflexivity].
    cbn [Py.bind]. rewrite forward_heads_txt_projector.
    destruct (MMTwins.forward_heads s l0) as [h|e]; [|reflexivity].
    cbn [Py.bind]. rewrite forward_return_txt_projector. reflexivity.
  - unfold MMTwins.forward_heads.
    destruct (MMTwins.l_vid_avg l) as [va|]; [|exact I].
    destruct (MMTwins.l_text_avg l) as [ta|]; [|exact I].
    cbn. split; reflexivity.
Qed.

(** ** Dictionaries and loops *)

Section Dicts.
Import Py MMTwins.

Lemma get_set_same {V} (d : dict V) (k : string) (v : V) :
  get (set d k v) k = Ok v.
Proof.
  induction d as [|[k' v'] d IH]; simpl.
  - rewrite String.eqb_refl. reflexivity.
  - destruct (String.eqb k k') eqn:E; simpl.
    + rewrite String.eqb_refl. reflexivity.
    + rewrite E. exact IH.
Qed.

Lemma get_set_other {V} (d : dict V) (k k' : string) (v : V) :
  k' <> k -> get (set d k v) k' = get d k'.
Proof.
  intros Hne. induction d as [|[k0 v0] d IH]; simpl.
  - destruct (String.eqb_spec k' k); [contradiction | reflexivity].
  - destruct (String.eqb_spec k k0) as [->|Hk]; simpl.
    + destruct (String.eqb_spec k' k0); [contradiction | reflexivity].
    + destruct (String.eqb_spec k' k0); [reflexivity | exact IH].
Qed.

Lemma has_key_set_same {V} (d : dict V) (k : string) (v : V) :
  has_key (set d k v) k.
Proof. exists v. apply get_set_same. Qed.

Lemma has_key_set {V} (d : dict V) (k k' : string) (v : V) :
  has_key d k' -> has_key (set d k v) k'.
Proof.
  intros [x Hx]. destruct (string_dec k' k) as [->|Hne].
  - apply has_key_set_same.
  - exists x. rewrite get_set_other by exact Hne. exact Hx.
Qed.

Lemma complete_set {V} (ks : list string) (d : dict V) (k : string) (v : V) :
  complete ks d -> complete (ks ++ [k]) (set d k v).
Proof.
  intros H. apply Forall_app. split.
  - eapply Forall_impl; [|exact H]. intros a Ha. apply has_key_set, Ha.
  - constructor; [apply has_key_set_same | constructor].
Qed.

Lemma complete_in {V} (ks : list string) (d : dict V) (k : string) :
  complete ks d -> In k ks -> has_key d k.
Proof. intros H Hin. unfold complete in H. rewrite Forall_forall in H. auto. Qed.

Lemma has_key_fst {V} (d : dict V) (k : string) :
  In k (map fst d) -> has_key d k.
Proof.
  induction d as [|[k' v'] d IH]; simpl; intros Hin.
  - contradiction.
  - destruct (String.eqb_spec k k') as [->|Hne].
    + exists v'. simpl. rewrite String.eqb_refl. reflexivity.
    + destruct Hin as [E|Hin]; [congruence|].
      destruct (IH Hin) as [x Hx]. exists x. simpl.
      destruct (String.eqb_spec k k'); [contradiction | exact Hx].
Qed.

(** A loop that cannot raise establishes its invariant [P], stated on
    the part of the list already visited. *)
Lemma foldM_invariant {A S} (P : list A -> S -> Prop)
      (f : S -> A -> result S) (l : list A) :
  forall (pre : list A) (s : S),
    P pre s ->
    (forall pre' a s, In a l -> P pre' s ->
                      exists s', f s a = Ok s' /\ P (pre' ++ [a]) s') ->
    exists s', foldM f l s = Ok s' /\ P (pre ++ l) s'.
Proof.
  induction l as [|a l IH]; intros pre s HP Hstep.
  - exists s. rewrite app_nil_r. split; [reflexivity | exact HP].
  - destruct (Hstep pre a s (or_introl eq_refl) HP) as (s1 & E1 & P1).
    destruct (IH (pre ++ [a]) s1 P1) as (s2 & E2 & P2).
    { intros pre' a' s' Hin. apply Hstep. right. exact Hin. }
    exists s2. split.
    + simpl. rewrite E1. exact E2.
    + rewrite <- app_assoc in P2. exact P2.
Qed.

End Dicts.

(** ** MMTwins.forward: the dictionaries before the token assembly *)

Section Prepare.
Import Torch TorchExt Py MMTwins.

Variables (s : self) (inp : inputs).
Hypothesis Hfeatures : complete (modalities s) (features inp).
Hypothesis Hind :
  forall md, In md (modalities s) ->
    exists fi, get (features_ind inp) md = Ok fi /\
               Forall (fun row => (1 <= length row)%nat) fi.
Hypothesis Havg : complete (modalities s) (features_avgpool inp).
Hypothesis Hmax : complete (modalities s) (features_maxpool inp).
Hypothesis Hreduce : complete (modalities s) (video_dim_reduce s).

Lemma ReduceDim_forward_length (m : ReduceDim) (x : mat) :
  length (ReduceDim_forward m x) = length x.
Proof. unfold ReduceDim_forward, Linear_forward. rewrite !length_map. reflexivity. Qed.

Lemma size1_reduced (m : ReduceDim) (x : tensor3) :
  size1 (map (ReduceDim_forward m) x) = size1 x.
Proof.
  unfold size1. destruct x as [|a x]; [reflexivity|].
  apply ReduceDim_forward_length.
Qed.

Lemma max_dim1_ok (fi : mat) :
  Forall (fun row => (1 <= length row)%nat) fi ->
  max_dim1 fi = Ok (map max_vec fi).
Proof.
  intros H. unfold max_dim1.
  replace (forallb (fun row => negb (Nat.eqb (length row) 0)) fi) with true;
    [reflexivity|].
  symmetry. apply forallb_forall. rewrite Forall_forall in H.
  intros row Hin. specialize (H row Hin).
  destruct (Nat.eqb_spec (length row) 0); [lia | reflexivity].
Qed.

Lemma ind_loop :
  exists d,
    foldM (fun ind md =>
             bind (get (features_ind inp) md)
                  (fun fi => bind (max_dim1 fi)
                                  (fun mx => ret (set ind md mx))))
          (modalities s) [] = Ok d /\
    complete (modalities s) d.
Proof.
  apply (foldM_invariant (fun pre d => complete pre d) _ _ [] []).
  - constructor.
  - intros pre md d Hin HP.
    destruct (Hind md Hin) as (fi & Efi & Hrows).
    rewrite Efi. cbn [bind]. rewrite (max_dim1_ok fi Hrows).
    eexists. split; [reflexivity|]. apply complete_set, HP.
Qed.

Lemma pooled_loop :
  exists d,
    foldM (fun pe md =>
             bind (get (features_avgpool inp) md)
                  (fun a =>
                     let pe := set pe (md ++ "_avgpool")%string a in
                     bind (get (features_maxpool inp) md)
                          (fun mx => ret (set pe (md ++ "_maxpool")%string mx))))
          (modalities s) [] = Ok d /\
    (forall md, In md (modalities s) ->
                has_key d (md ++ "_avgpool")%string /\
                has_key d (md ++ "_maxpool")%string).
Proof.
  destruct (foldM_invariant
              (fun pre d => forall md, In md pre ->
                                       has_key d (md ++ "_avgpool")%string /\
                                       has_key d (md ++ "_maxpool")%string)
              (fun pe md =>
                 bind (get (features_avgpool inp) md)
                      (fun a =>
                         let pe := set pe (md ++ "_avgpool")%string a in
                         bind (get (features_maxpool inp) md)
                              (fun mx => ret (set pe (md ++ "_maxpool")%string mx))))
              (modalities s) [] []) as (d & E & P).
  - intros md [].
  - intros pre md d Hin HP.
    destruct (complete_in _ _ _ Havg Hin) as [a Ea].
    destruct (complete_in _ _ _ Hmax Hin) as [mx Emx].
    rewrite Ea. cbn [bind]. rewrite Emx. eexists. split; [reflexivity|].
    intros md' Hin'. apply in_app_or in Hin'. destruct Hin' as [Hin'|[<-|[]]].
    + destruct (HP md' Hin') as [H1 H2].
      split; apply has_key_set, has_key_set; assumption.
    + split; [apply has_key_set, has_key_set_same | apply has_key_set_same].
  - exists d. split; [exact E | exact P].
Qed.

Lemma pools_loop (pooled_experts : dict mat) :
  (forall md, In md (modalities s) ->
              has_key pooled_experts (md ++ "_avgpool")%string /\
              has_key pooled_experts (md ++ "_maxpool")%string) ->
  exists r,
    foldM (fun r md =>
             bind (get (video_dim_reduce s) md)
                  (fun layer =>
                     bind (get pooled_experts (md ++ "_avgpool")%string)
                          (fun a =>
                             let mnp := set (fst r) md (ReduceDim_forward layer a) in
                             bind (get pooled_experts (md ++ "_maxpool")%string)
                                  (fun mx =>
                                     ret (mnp, set (snd r) md
                                                   (ReduceDim_forward layer mx))))))
          (modalities s) ([], []) = Ok r /\
    complete (modalities s) (fst r) /\ complete (modalities s) (snd r).
Proof.
  intros Hp.
  apply (foldM_invariant
           (fun pre (r : dict mat * dict mat) =>
              complete pre (fst r) /\ complete pre (snd r)) _ _ [] ([], [])).
  - split; constructor.
  - intros pre md r Hin [H1 H2].
    destruct (complete_in _ _ _ Hreduce Hin) as [layer El].
    destruct (Hp md Hin) as [[a Ea] [mx Emx]].
    rewrite El. cbn [bind]. rewrite Ea. cbn [bind]. rewrite Emx.
    eexists. split; [reflexivity|].
    cbn [fst snd]. split; apply complete_set; assumption.
Qed.

Lemma agg_loop (maxp : dict mat) :
  complete (modalities s) maxp ->
  exists d,
    foldM (fun agg md => bind (get maxp md) (fun v => ret (set agg md v)))
          (modalities s) [] = Ok d.
Proof.
  intros Hc.
  destruct (foldM_invariant (fun _ (_ : dict mat) => True)
              (fun agg md => bind (get maxp md) (fun v => ret (set agg md v)))
              (modalities s) [] []) as (d & E & _).
  - exact I.
  - intros pre md d Hin _.
    destruct (complete_in _ _ _ Hc Hin) as [v Ev]. rewrite Ev.
    eexists. split; [reflexivity | exact I].
  - exists d. exact E.
Qed.

Lemma reduce_loop :
  exists ef,
    foldM (fun ef md =>
             bind (get (video_dim_reduce s) md)
                  (fun layer =>
                     bind (get ef md)
                          (fun x => ret (set ef md (map (ReduceDim_forward layer) x)))))
          (modalities s) (features inp) = Ok ef /\
    (forall k x, get (features inp) k = Ok x ->
                 exists x', get ef k = Ok x' /\ size1 x' = size1 x).
Proof.
  destruct (foldM_invariant
              (fun (_ : list string) ef =>
                 forall k x, get (features inp) k = Ok x ->
                             exists x', get ef k = Ok x' /\ size1 x' = size1 x)
              (fun ef md =>
                 bind (get (video_dim_reduce s) md)
                      (fun layer =>
                         bind (get ef md)
                              (fun x => ret (set ef md (map (ReduceDim_forward layer) x)))))
              (modalities s) [] (features inp)) as (ef & E & P).
  - intros k x Hk. exists x. split; [exact Hk | reflexivity].
  - intros pre md ef Hin HP.
    destruct (complete_in _ _ _ Hreduce Hin) as [layer El].
    destruct (complete_in _ _ _ Hfeatures Hin) as [x0 Ex0].
    destruct (HP md x0 Ex0) as (x1 & Ex1 & S1).
    rewrite El. cbn [bind]. rewrite Ex1. eexists. split; [reflexivity|].
    intros k x Hk. destruct (string_dec k md) as [->|Hne].
    + rewrite get_set_same. eexists. split; [reflexivity|].
      rewrite size1_reduced. congruence.
    + rewrite get_set_other by exact Hne. apply HP, Hk.
  - exists ef. split; [exact E | exact P].
Qed.

Lemma forward_prepare_ok :
  vid_inp s = "both"%string \/ vid_inp s = "all"%string ->
  exists p,
    forward_prepare s inp = Ok p /\
    complete (modalities s) (ind p) /\
    (exists mnp maxp,
        mnp_experts p = Some mnp /\ maxp_experts p = Some maxp /\
        complete (modalities s) mnp /\ complete (modalities s) maxp) /\
    (forall md, In md (modalities s) ->
                exists x, get (experts_feats p) md = Ok x /\
                          size1 x = n_frames inp md).
Proof.
  intros Hv.
  destruct ind_loop as (ind & Ei & Ci).
  destruct pooled_loop as (pe & Ep & Cp).
  destruct (pools_loop pe Cp) as (r & Er & Cr1 & Cr2).
  destruct (agg_loop (snd r) Cr2) as (agg & Ea).
  destruct reduce_loop as (ef & Ee & Ce).
  assert (B1 : str_in (vid_inp s) ["agg"; "both"; "all"]%string = true)
    by (destruct Hv as [-> | ->]; reflexivity).
  assert (B2 : str_in (vid_inp s) ["both"; "temp"; "all"]%string = true)
    by (destruct Hv as [-> | ->]; reflexivity).
  eexists. split.
  - unfold forward_prepare. py_run Ei. py_run Ep.
    rewrite B1, B2. py_run Er. py_run Ea. py_run Ee. reflexivity.
  - cbn [MMTwins.ind mnp_experts maxp_experts experts_feats fst snd].
    split; [exact Ci|]. split.
    + exists (fst r), (snd r). repeat split; assumption.
    + intros md Hin. unfold n_frames.
      destruct (complete_in _ _ _ Hfeatures Hin) as [x0 Ex0].
      rewrite Ex0. apply (Ce md x0 Ex0).
Qed.

End Prepare.

(** ** MMTwins.forward: the video token lists *)

Section Assembly.
Import Torch TorchExt Py MMTwins.

Variables (s : self) (inp : inputs) (b : nat) (p : prepared).
Variable T : string -> nat.

Hypothesis Hinp : vid_inp s = "both"%string \/ vid_inp s = "all"%string.
Hypothesis Hind : complete (modalities s) (ind p).
Hypothesis Hpools :
  exists mnp maxp,
    mnp_experts p = Some mnp /\ maxp_experts p = Some maxp /\
    complete (modalities s) mnp /\ complete (modalities s) maxp.
Hypothesis Hfeats :
  forall md, In md (modalities s) ->
             exists x, get (experts_feats p) md = Ok x /\ size1 x = T md.
Hypothesis Hfind :
  forall md, In md (modalities s) ->
    exists fi, get (features_ind inp) md = Ok fi /\
               Forall (fun row => (T md <= length row)%nat) fi.
Hypothesis Htint :
  pos_enc s = "tint"%string ->
  forall md, In md (modalities s) ->
    exists t, get (features_t inp) md = Ok t /\
              Forall (fun row => (T md <= length row)%nat) t.

Lemma column_at_ok {A} (d : A) (k n : nat) (t : list (list A)) :
  Forall (fun row => (n <= length row)%nat) t -> (k < n)%nat ->
  column_at d k t = Ok (column d k t).
Proof.
  intros H Hk. unfold column_at.
  replace (forallb (fun row => Nat.ltb k (length row)) t) with true;
    [reflexivity|].
  symmetry. apply forallb_forall. rewrite Forall_forall in H.
  intros row Hin. specialize (H row Hin). apply Nat.ltb_lt. lia.
Qed.

Lemma max_expert_tokens_loop :
  exists d,
    foldM (fun d modality =>
             bind (get (experts_feats p) modality)
                  (fun x => ret (set d modality (size1 x))))
          (modalities s) [] = Ok d /\
    (forall md, In md (modalities s) -> get d md = Ok (T md)).
Proof.
  destruct (foldM_invariant
              (fun pre (d : dict nat) =>
                 forall md, In md pre -> get d md = Ok (T md))
              (fun d modality =>
                 bind (get (experts_feats p) modality)
                      (fun x => ret (set d modality (size1 x))))
              (modalities s) [] []) as (d & E & P).
  - intros md [].
  - intros pre md d Hin HP.
    destruct (Hfeats md Hin) as (x & Ex & Sx). rewrite Ex.
    eexists. split; [reflexivity|].
    intros md' Hin'. destruct (string_dec md' md) as [->|Hne].
    + rewrite get_set_same, Sx. reflexivity.
    + rewrite get_set_other by exact Hne.
      apply in_app_or in Hin'. destruct Hin' as [Hin'|[E|[]]];
        [apply HP, Hin' | congruence].
  - exists d. split; [exact E | exact P].
Qed.

Lemma experts_feats_t_loop (max_pos : Z) :
  pos_enc s = "tint"%string ->
  exists d,
    foldM (fun d modality =>
             bind (get (features_t inp) modality)
                  (fun t =>
                     ret (set d modality
                              (map (map (fun v => to_long (clamp 0 (IZR max_pos) v)))
                                   t))))
          (modalities s) [] = Ok d /\
    (forall md, In md (modalities s) ->
       exists t, get d md = Ok t /\
                 Forall (fun row => (T md <= length row)%nat) t).
Proof.
  intros Ht.
  destruct (foldM_invariant
              (fun pre (d : dict (list (list Z))) =>
                 forall md, In md pre ->
                   exists t, get d md = Ok t /\
                             Forall (fun row => (T md <= length row)%nat) t)
              (fun d modality =>
                 bind (get (features_t inp) modality)
                      (fun t =>
                         ret (set d modality
                                  (map (map (fun v =>
                                               to_long (clamp 0 (IZR max_pos) v)))
                                       t))))
              (modalities s) [] []) as (d & E & P).
  - intros md [].
  - intros pre md d Hin HP.
    destruct (Htint Ht md Hin) as (t & Et & Hrows). rewrite Et.
    eexists. split; [reflexivity|].
    intros md' Hin'. destruct (string_dec md' md) as [->|Hne].
    + rewrite get_set_same. eexists. split; [reflexivity|].
      apply Forall_map. revert Hrows. apply Forall_impl.
      intros row Hrow. rewrite length_map. exact Hrow.
    + rewrite get_set_other by exact Hne.
      apply in_app_or in Hin'. destruct Hin' as [Hin'|[E|[]]];
        [apply HP, Hin' | congruence].
  - exists d. split; [exact E | exact P].
Qed.

Section Tokens.

Variable experts_feats_t : dict (list (list Z)).
Variable max_expert_tokens : dict nat.
Hypothesis Hmet :
  forall md, In md (modalities s) -> get max_expert_tokens md = Ok (T md).
Hypothesis Hfeats_t :
  pos_enc s = "tint"%string ->
  forall md, In md (modalities s) ->
    exists t, get experts_feats_t md = Ok t /\
              Forall (fun row => (T md <= length row)%nat) t.

Lemma add_frame_token_ok (token_type : Z) (md : string) (ids : list Z)
      (st : vid_lists) (frame_id : nat) :
  In md (modalities s) -> (frame_id < T md)%nat -> lists_hold b ids st ->
  exists st',
    add_frame_token s b (experts_feats p) experts_feats_t (features_ind inp)
                    token_type md st frame_id = Ok st' /\
    lists_hold b (ids ++ [6%Z]) st'.
Proof.
  intros Hin Hframe (H1 & H2 & H3).
  destruct (Hfeats md Hin) as (x & Ex & _).
  destruct (Hfind md Hin) as (fi & Efi & Hfi).
  pose proof (column_at_ok 0 frame_id (T md) fi Hfi Hframe) as Emask.
  assert (Hpos : exists pos,
             (if String.eqb (pos_enc s) "ordr"
              then ret (Some (full b (Z.of_nat frame_id + 1)%Z))
              else if String.eqb (pos_enc s) "tint"
              then bind (get experts_feats_t md)
                        (fun t => bind (column_at 0%Z frame_id t)
                                       (fun c => ret (Some c)))
              else if String.eqb (pos_enc s) "type"
              then ret (Some (full b 1%Z))
              else ret None) = Ok pos).
  { destruct (String.eqb (pos_enc s) "ordr"); [eexists; reflexivity|].
    destruct (String.eqb_spec (pos_enc s) "tint") as [Ht|_].
    - destruct (Hfeats_t Ht md Hin) as (t & Et & Hrows).
      rewrite Et. cbn [bind].
      rewrite (column_at_ok 0%Z frame_id (T md) t Hrows Hframe).
      eexists. reflexivity.
    - destruct (String.eqb (pos_enc s) "type"); eexists; reflexivity. }
  destruct Hpos as [pos Epos].
  unfold add_frame_token. py_run Epos. py_run Ex. py_run Efi. py_run Emask.
  eexists. split; [reflexivity|].
  unfold lists_hold. cbn [input_ids_list token_type_ids_list attention_mask_list].
  rewrite H1, map_app, !length_app, H2, H3. cbn [map length].
  repeat split.
Qed.

Lemma frames_loop (token_type : Z) (md : string) (ids : list Z)
      (st : vid_lists) (n : nat) :
  In md (modalities s) -> (n <= T md)%nat -> lists_hold b ids st ->
  exists st',
    foldM (add_frame_token s b (experts_feats p) experts_feats_t
                           (features_ind inp) token_type md)
          (seq 0 n) st = Ok st' /\
    lists_hold b (ids ++ repeat 6%Z n) st'.
Proof.
  intros Hin Hn H0.
  destruct (foldM_invariant
              (fun (pre : list nat) st' =>
                 lists_hold b (ids ++ repeat 6%Z (length pre)) st')
              (add_frame_token s b (experts_feats p) experts_feats_t
                               (features_ind inp) token_type md)
              (seq 0 n) [] st) as (st' & E & P).
  - cbn [length repeat]. rewrite app_nil_r. exact H0.
  - intros pre k st1 Hk H1. apply in_seq in Hk.
    destruct (add_frame_token_ok token_type md _ st1 k Hin ltac:(lia) H1)
      as (st2 & E2 & H2).
    exists st2. split; [exact E2|].
    rewrite length_app, Nat.add_comm. cbn [length Nat.add repeat].
    rewrite repeat_cons, app_assoc. exact H2.
  - exists st'. split; [exact E|].
    cbn [app] in P. rewrite length_seq in P. exact P.
Qed.

Lemma add_agg_token_ok (token_type : Z) (md : string) (ids : list Z)
      (st : vid_lists) :
  In md (modalities s) -> lists_hold b ids st ->
  exists st',
    add_agg_token s b (ind p) (mnp_experts p) (maxp_experts p)
                  token_type md st = Ok st' /\
    lists_hold b (ids ++ [2%Z]) st'.
Proof.
  intros Hin (H1 & H2 & H3).
  destruct Hpools as (mnp & maxp & Emnp & Emaxp & Cmnp & Cmaxp).
  destruct (complete_in _ _ _ Hind Hin) as [i Ei].
  destruct (complete_in _ _ _ Cmnp Hin) as [vn Evn].
  destruct (complete_in _ _ _ Cmaxp Hin) as [vx Evx].
  assert (Hfeat : exists feat,
             (if String.eqb (out_tok s) "sep"
              then ret (Some (repeat (repeat 0 (same_dim s)) b))
              else if String.eqb (out_tok s) "mxp"
              then bind (local (maxp_experts p))
                        (fun d => bind (get d md) (fun v => ret (Some v)))
              else if String.eqb (out_tok s) "mnp"
              then bind (local (mnp_experts p))
                        (fun d => bind (get d md) (fun v => ret (Some v)))
              else ret None) = Ok feat).
  { rewrite Emnp, Emaxp. cbn [local]. py_step. rewrite Evn, Evx.
    destruct (String.eqb (out_tok s) "sep"); [eexists; reflexivity|].
    destruct (String.eqb (out_tok s) "mxp"); [eexists; reflexivity|].
    destruct (String.eqb (out_tok s) "mnp"); eexists; reflexivity. }
  destruct Hfeat as [feat Efeat].
  unfold add_agg_token. py_run Efeat. py_run Ei.
  eexists. split; [reflexivity|].
  unfold lists_hold. cbn [input_ids_list token_type_ids_list attention_mask_list].
  rewrite H1, map_app, !length_app, H2, H3. cbn [map length].
  repeat split.
Qed.

Lemma add_modality_ok (md : string) (ids : list Z) (st : vid_lists) :
  In md (modalities s) -> lists_hold b ids st ->
  exists st',
    add_modality s b (ind p) (mnp_experts p) (maxp_experts p)
                 (Some max_expert_tokens) (experts_feats p) experts_feats_t
                 (features_ind inp) st md = Ok st' /\
    lists_hold b (ids ++ 2%Z :: repeat 6%Z (T md)) st'.
Proof.
  intros Hin H0.
  destruct (has_key_fst (expert_dims s) md Hin) as [ed Eed].
  assert (B1 : str_in (vid_inp s) ["agg"; "both"; "all"]%string = true)
    by (destruct Hinp as [-> | ->]; reflexivity).
  assert (B2 : str_in (vid_inp s) ["temp"; "both"; "all"]%string = true)
    by (destruct Hinp as [-> | ->]; reflexivity).
  destruct (add_agg_token_ok (idx ed) md ids st Hin H0) as (st1 & E1 & H1).
  destruct (frames_loop (idx ed) md _ st1 (T md) Hin (le_n _) H1)
    as (st2 & E2 & H2).
  unfold add_modality. py_run Eed. rewrite B1, B2. py_run E1.
  cbn [local]. py_step. rewrite (Hmet md Hin). py_step.
  exists st2. split; [exact E2|].
  rewrite <- app_assoc in H2. exact H2.
Qed.

Lemma modalities_loop :
  exists st,
    foldM (add_modality s b (ind p) (mnp_experts p) (maxp_experts p)
                        (Some max_expert_tokens) (experts_feats p)
                        experts_feats_t (features_ind inp))
          (modalities s) (cls_lists s b) = Ok st /\
    lists_hold b (video_sequence T (modalities s)) st.
Proof.
  destruct (foldM_invariant
              (fun pre st => lists_hold b (video_sequence T pre) st)
              (add_modality s b (ind p) (mnp_experts p) (maxp_experts p)
                            (Some max_expert_tokens) (experts_feats p)
                            experts_feats_t (features_ind inp))
              (modalities s) [] (cls_lists s b)) as (st & E & P).
  - repeat split.
  - intros pre md st0 Hin H0.
    destruct (add_modality_ok md _ st0 Hin H0) as (st1 & E1 & H1).
    exists st1. split; [exact E1|].
    unfold video_sequence in *. rewrite flat_map_app. cbn [flat_map].
    rewrite app_nil_r. exact H1.
  - exists st. split; [exact E | exact P].
Qed.

End Tokens.

Lemma video_token_lists_ok :
  exists st,
    video_token_lists s b p inp = Ok st /\
    lists_hold b (video_sequence T (modalities s)) st.
Proof.
  destruct max_expert_tokens_loop as (met & Em & Hm).
  assert (B2 : str_in (vid_inp s) ["temp"; "both"; "all"]%string = true)
    by (destruct Hinp as [-> | ->]; reflexivity).
  unfold video_token_lists. rewrite B2. py_run Em.
  destruct (String.eqb_spec (pos_enc s) "tint") as [Ht|Hnt].
  - destruct (experts_feats_t_loop (max_position_embeddings s - 1) Ht)
      as (eft & Et & Ct).
    py_run Et. apply modalities_loop; [exact Hm | intros _; exact Ct].
  - py_step. apply modalities_loop; [exact Hm | intros Ht; contradiction].
Qed.

End Assembly.

Section Sequence.
Import Torch TorchExt Py MMTwins.

Lemma nth_full {A} (z d : A) (b i : nat) :
  (i < b)%nat -> nth i (full b z) d = z.
Proof.
  unfold full. revert i. induction b as [|b IH]; intros i Hi; [lia|].
  destruct i as [|i]; [reflexivity|]. simpl. apply IH. lia.
Qed.

Lemma stack_full (b : nat) (ids : list Z) :
  stack1 0%Z b (map (full b) ids) = repeat ids b.
Proof.
  unfold stack1. rewrite (repeat_as_map ids b 0).
  apply map_ext_in. intros i Hi. apply in_seq in Hi.
  rewrite map_map. rewrite <- (map_id ids) at 2.
  apply map_ext. intros z. apply nth_full. lia.
Qed.

Lemma video_sequence_length (T : string -> nat) (mods : list string) :
  length (video_sequence T mods)
  = (1 + list_sum (map (fun md => 1 + T md) mods))%nat.
Proof.
  unfold video_sequence. cbn [length Nat.add]. f_equal.
  induction mods as [|md mods IH]; [reflexivity|].
  cbn [flat_map map list_sum]. rewrite length_app, IH.
  cbn [length Nat.add]. rewrite repeat_length. reflexivity.
Qed.

End Sequence.

Section WellFormed.
Import Torch TorchExt Py MMTwins.

Variables (s : self) (inp : inputs) (b : nat).
Hypothesis Hb : (1 <= b)%nat.
Hypothesis Hw :
  forall md, In md (modalities s) -> well_formed_modality s inp b md.

Lemma well_formed_n_frames (md : string) (T d : nat) (x : tensor3) :
  get (features inp) md = Ok x -> has_shape3 b T d x -> n_frames inp md = T.
Proof.
  intros Ex [Hl Hx]. unfold n_frames, size1. rewrite Ex.
  destruct x as [|m x]; [simpl in Hl; lia|].
  inversion Hx as [|? ? Hm _]; subst. apply Hm.
Qed.

Lemma well_formed_complete :
  complete (modalities s) (features inp) /\
  complete (modalities s) (features_avgpool inp) /\
  complete (modalities s) (features_maxpool inp) /\
  complete (modalities s) (video_dim_reduce s).
Proof.
  repeat split; apply Forall_forall; intros md Hin;
    destruct (Hw md Hin)
      as (T & d & K & x & fi & av & mx & layer & Ex & _ & _ & _ & _ & _
          & Eav & _ & Emx & _ & El & _);
    eexists; eassumption.
Qed.

Lemma well_formed_ind (md : string) :
  In md (modalities s) ->
  exists fi, get (features_ind inp) md = Ok fi /\
             Forall (fun row => (1 <= length row)%nat) fi /\
             Forall (fun row => (n_frames inp md <= length row)%nat) fi.
Proof.
  intros Hin.
  destruct (Hw md Hin)
    as (T & d & K & x & fi & av & mx & layer & Ex & Sx & Efi & Sfi & HK & HT & _).
  rewrite (well_formed_n_frames md T d x Ex Sx).
  exists fi. split; [exact Efi|].
  destruct Sfi as [_ Hrows].
  split; (eapply Forall_impl; [|exact Hrows]); intros row Hrow; cbv beta in *;
    lia.
Qed.

Lemma well_formed_tint :
  pos_enc s = "tint"%string ->
  forall md, In md (modalities s) ->
    exists t, get (features_t inp) md = Ok t /\
              Forall (fun row => (n_frames inp md <= length row)%nat) t.
Proof.
  intros Ht md Hin.
  destruct (Hw md Hin)
    as (T & d & K & x & fi & av & mx & layer & Ex & Sx & _ & _ & _ & _ & _ & _
        & _ & _ & _ & _ & Htint).
  rewrite (well_formed_n_frames md T d x Ex Sx).
  destruct (Htint Ht) as (t & K' & Et & [_ Hrows] & HK').
  exists t. split; [exact Et|].
  eapply Forall_impl; [|exact Hrows]. intros row Hrow. cbv beta in *. lia.
Qed.

(** On well-formed inputs the dictionaries are prepared and the token
    lists are built, with the input ids of the video sequence. *)
Lemma video_lists_built :
  vid_inp s = "both"%string \/ vid_inp s = "all"%string ->
  exists p st,
    forward_prepare s inp = Ok p /\
    video_token_lists s b p inp = Ok st /\
    lists_hold b (video_sequence (n_frames inp) (modalities s)) st /\
    (forall md, In md (modalities s) ->
                exists x, get (experts_feats p) md = Ok x /\
                          size1 x = n_frames inp md).
Proof.
  intros Hv.
  destruct well_formed_complete as (Hf & Ha & Hm & Hr).
  destruct (forward_prepare_ok s inp Hf
              (fun md Hin =>
                 match well_formed_ind md Hin with
                 | ex_intro _ fi (conj E (conj H1 _)) =>
                     ex_intro _ fi (conj E H1)
                 end)
              Ha Hm Hr Hv)
    as (p & Ep & Cind & Cpools & Cfeats).
  destruct (video_token_lists_ok s inp b p (n_frames inp) Hv Cind Cpools Cfeats
              (fun md Hin =>
                 match well_formed_ind md Hin with
                 | ex_intro _ fi (conj E (conj _ H2)) =>
                     ex_intro _ fi (conj E H2)
                 end)
              well_formed_tint)
    as (st & Est & Hst).
  exists p, st. repeat split; try assumption; apply Hst.
Qed.

End WellFormed.

(** C10: with [vid_cont='bert'] and [vid_inp] ['both'] or ['all'], on a
    non-empty batch whose tensors fit together for every modality, the
    video token sequence [forward] assembles and hands to the encoder is
    [[CLS]] (input id 0), then for each modality in order one aggregated
    token (input id 2) followed by the [T_mod] temporal feature tokens of
    that modality (input id 6); its length is
    [1 + sum over the modalities of (1 + T_mod)]. *)
Theorem video_token_sequence_layout (s : MMTwins.self) (inp : MMTwins.inputs) :
  MMTwins.vid_cont s = "bert"%string ->
  MMTwins.vid_inp s = "both"%string \/ MMTwins.vid_inp s = "all"%string ->
  let b := length (MMTwins.token_ids inp) in
  (1 <= b)%nat ->
  (forall md, In md (MMTwins.modalities s) -> well_formed_modality s inp b md) ->
  let T := MMTwins.n_frames inp in
  let ids := 0%Z :: flat_map (fun md => 2%Z :: repeat 6%Z (T md))
                             (MMTwins.modalities s) in
  exists p st,
    MMTwins.forward_prepare s inp = Py.Ok p /\
    MMTwins.video_token_lists s b p inp = Py.Ok st /\
    MMTwins.forward_encode_video s b p inp
    = Py.bind (MMTwins.forward_video s b st) (fun vo => Py.ret (Some vo)) /\
    MMTwins.input_ids_list st = map (TorchExt.full b) ids /\
    TorchExt.stack1 0%Z b (MMTwins.input_ids_list st) = repeat ids b /\
    length (MMTwins.input_ids_list st)
    = (1 + list_sum (map (fun md => 1 + T md) (MMTwins.modalities s)))%nat /\
    length (MMTwins.token_type_ids_list st) = length (MMTwins.input_ids_list st) /\
    length (MMTwins.attention_mask_list st) = length (MMTwins.input_ids_list st).
Proof.
  intros Hc Hv b Hb Hw T ids.
  destruct (video_lists_built s inp b Hb Hw Hv)
    as (p & st & Ep & Est & (Hids & Htt & Ham) & _).
  fold (MMTwins.video_sequence T (MMTwins.modalities s)) in ids.
  exists p, st.
  assert (L : length (MMTwins.input_ids_list st) = length ids)
    by (rewrite Hids; apply length_map).
  split; [exact Ep|]. split; [exact Est|]. split.
  { unfold MMTwins.forward_encode_video. rewrite Hc, Est. reflexivity. }
  split; [exact Hids|]. split.
  { rewrite Hids. apply stack_full. }
  split.
  { rewrite L. apply video_sequence_length. }
  split; [rewrite L; exact Htt | rewrite L; exact Ham].
Qed.

(** The batch of [demo_inputs] is well formed. *)
Lemma demo_well_formed (md : string) :
  In md (MMTwins.modalities MMTwins.demo_self) ->
  well_formed_modality MMTwins.demo_self MMTwins.demo_inputs 1 md.
Proof.
  intros [<-|[]].
  exists 2%nat, 2%nat, 2%nat.
  do 5 eexists.
  split; [reflexivity|]. split; [repeat constructor|].
  split; [reflexivity|]. split; [repeat constructor|].
  split; [lia|]. split; [lia|].
  split; [reflexivity|]. split; [repeat constructor|].
  split; [reflexivity|]. split; [repeat constructor|].
  split; [reflexivity|]. split; [repeat constructor|].
  discriminate.
Qed.

Lemma video_token_sequence_layout_witness :
  exists p st,
    MMTwins.forward_prepare MMTwins.demo_self MMTwins.demo_inputs = Py.Ok p /\
    MMTwins.video_token_lists MMTwins.demo_self 1 p MMTwins.demo_inputs
    = Py.Ok st /\
    MMTwins.input_ids_list st = [[0]; [2]; [6]; [6]]%Z /\
    length (MMTwins.input_ids_list st) = 4%nat.
Proof.
  destruct (video_token_sequence_layout MMTwins.demo_self MMTwins.demo_inputs)
    as (p & st & Ep & Est & _ & Hids & _ & Hlen & _).
  - reflexivity.
  - left. reflexivity.
  - apply le_n.
  - exact demo_well_formed.
  - exists p, st. split; [exact Ep|]. split; [exact Est|].
    split; [exact Hids | exact Hlen].
Defined.

(** ** MMTwins.forward: the modality weights *)

Section Weights.
Import Torch TorchExt Py MMTwins.

(** What a loop that returned has established. *)
Lemma foldM_returned {A S} (P : list A -> S -> Prop)
      (f : S -> A -> result S) (l : list A) :
  forall (pre : list A) (s s' : S),
    P pre s ->
    (forall pre' a s s1, P pre' s -> f s a = Ok s1 -> P (pre' ++ [a]) s1) ->
    foldM f l s = Ok s' -> P (pre ++ l) s'.
Proof.
  induction l as [|a l IH]; intros pre s s' HP Hstep E.
  - injection E as <-. rewrite app_nil_r. exact HP.
  - simpl in E. destruct (f s a) as [s1|e] eqn:E1; [|discriminate].
    cbn [bind] in E. rewrite (app_assoc pre [a] l : pre ++ a :: l = _).
    apply (IH (pre ++ [a]) s1 s'); [|exact Hstep | exact E].
    apply (Hstep pre a s s1 HP E1).
Qed.

Lemma forward_video_experts (s : self) (b : nat) (st : vid_lists)
      (vo : video_out) :
  forward_video s b st = Ok vo -> complete (modalities s) (experts vo).
Proof.
  unfold forward_video. py_step.
  match goal with
  | |- context [foldM ?f ?l ?s0] =>
      destruct (foldM f l s0) as [ex|e] eqn:E; [|discriminate]
  end.
  intros H. injection H as <-. cbn [experts].
  apply (fun H0 Hs =>
           foldM_returned (fun pre (d : dict mat) => complete pre d)
                          _ _ [] _ _ H0 Hs E); [constructor|].
  intros pre md d d1 HP Hd. cbv beta in Hd.
  destruct (get (modality_to_tok_map st) md); [|discriminate].
  injection Hd as <-. apply complete_set, HP.
Qed.

Lemma compute_weights_from_norm_ok (s : self) (embds : dict mat) :
  modalities s <> [] -> complete (modalities s) embds ->
  exists w, compute_weights_from_norm s embds = Ok w.
Proof.
  intros Hne Hc. unfold compute_weights_from_norm.
  destruct (modalities s) as [|md0 mods] eqn:Em; [contradiction|].
  destruct (complete_in _ _ _ Hc (or_introl eq_refl)) as [e0 Ee0].
  py_run Ee0.
  match goal with
  | |- context [foldM ?f ?l ?s0] =>
      destruct (foldM_invariant (fun _ (_ : mat) => True) f l [] s0)
        as (ne & E & _)
  end.
  - exact I.
  - intros pre [i md] ne Hin _.
    apply in_combine_r in Hin.
    destruct (complete_in _ _ _ Hc Hin) as [e Ee]. cbn [snd fst]. rewrite Ee.
    eexists. split; [reflexivity | exact I].
  - rewrite E. eexists. reflexivity.
Qed.

End Weights.

Section WeightingModes.
Import Torch TorchExt Py MMTwins.

Variables (s : self) (b captions_per_video m : nat) (ind : dict (list R))
          (text vid_embd : option (list (list R)))
          (experts : dict (list (list R))).

Lemma forward_weights_none_returns (vw : string) (w1 : mat * weights) :
  forward_weights (with_weighting s vw "none") b captions_per_video m ind
                  text vid_embd experts = Ok w1 ->
  exists w2,
    forward_weights (with_weighting s "none" "none") b captions_per_video m
                    ind text vid_embd experts = Ok w2.
Proof.
  destruct s. weighting_fields.
  change (String.eqb "none" "nrm") with false.
  change (String.eqb "none" "emb") with false.
  change (String.eqb "none" "none") with true.
  cbv beta iota.
  match goal with
  | |- bind ?c _ = _ -> _ => destruct c as [v1|e]; [|discriminate]
  end.
  py_step.
  destruct keep_missing_modalities0; cbn [negb]; py_step;
    [eexists; reflexivity|].
  match goal with
  | |- context [foldM ?f ?l ?s0] => destruct (foldM f l s0) as [av|e]
  end.
  - intros _. eexists. reflexivity.
  - discriminate.
Qed.

Lemma forward_weights_nrm_returns (w2 : mat * weights) :
  modalities s <> [] -> complete (modalities s) experts ->
  forward_weights (with_weighting s "none" "none") b captions_per_video m
                  ind text vid_embd experts = Ok w2 ->
  exists w1,
    forward_weights (with_weighting s "nrm" "none") b captions_per_video m
                    ind text vid_embd experts = Ok w1.
Proof.
  intros Hne Hc.
  destruct (compute_weights_from_norm_ok s experts Hne Hc) as [w Ew].
  revert Ew. destruct s. weighting_fields. intros Ew.
  change (String.eqb "none" "nrm") with false.
  change (String.eqb "none" "emb") with false.
  change (String.eqb "none" "none") with true.
  change (String.eqb "nrm" "nrm") with true.
  cbv beta iota. rewrite Ew. py_step.
  destruct keep_missing_modalities0; cbn [negb]; py_step;
    [eexists; reflexivity|].
  match goal with
  | |- context [foldM ?f ?l ?s0] => destruct (foldM f l s0) as [av|e]
  end.
  - intros _. eexists. reflexivity.
  - discriminate.
Qed.

End WeightingModes.

Section WeightingForward.
Import Torch TorchExt Py MMTwins.

Variables (s : self) (inp : inputs).

Lemma forward_prepare_weighting (vw tw : string) :
  forward_prepare (with_weighting s vw tw) inp = forward_prepare s inp.
Proof. destruct s. reflexivity. Qed.

Lemma forward_encode_video_weighting (vw tw : string) (b : nat) (p : prepared) :
  forward_encode_video (with_weighting s vw tw) b p inp
  = forward_encode_video s b p inp.
Proof. destruct s. reflexivity. Qed.

Lemma forward_text_weighting (vw tw : string) :
  forward_text (with_weighting s vw tw) (token_ids inp)
  = forward_text s (token_ids inp).
Proof. destruct s. reflexivity. Qed.

Lemma forward_heads_weighting (vw tw : string) (l : locals) :
  forward_heads (with_weighting s vw tw) l = forward_heads s l.
Proof. destruct s. reflexivity. Qed.

Lemma forward_return_weighting (vw tw : string) (o : string) (h : heads) :
  forward_return (with_weighting s vw tw) o h = forward_return s o h.
Proof. destruct s. reflexivity. Qed.

Lemma modalities_weighting (vw tw : string) :
  modalities (with_weighting s vw tw) = modalities s.
Proof. destruct s. reflexivity. Qed.

(** The heads read [vid_avg] and [text_avg] only. *)
Lemma forward_heads_reads (l l' : locals) :
  l_vid_avg l = l_vid_avg l' -> l_text_avg l = l_text_avg l' ->
  forward_heads s l = forward_heads s l'.
Proof. intros E1 E2. unfold forward_heads. rewrite E1, E2. reflexivity. Qed.

(** If the weights of the second mode are computed whenever those of the
    first are, the second run returns what the first returns. *)
Lemma forward_weighting_transfer (vw1 tw1 vw2 tw2 : string) :
  (forall p v w1,
      forward_prepare s inp = Ok p ->
      forward_encode_video s (length (token_ids inp)) p inp = Ok v ->
      option_map vid_avg v <> None ->
      forward_weights (with_weighting s vw1 tw1)
                      (length (token_ids inp))
                      (length (hd [] (token_ids inp)))
                      (length (modalities s)) (ind p)
                      (option_map fst (forward_text s (token_ids inp)))
                      (option_map vid_embd v)
                      match v with Some vo => experts vo | None => [] end
      = Ok w1 ->
      exists w2,
        forward_weights (with_weighting s vw2 tw2)
                        (length (token_ids inp))
                        (length (hd [] (token_ids inp)))
                        (length (modalities s)) (ind p)
                        (option_map fst (forward_text s (token_ids inp)))
                        (option_map vid_embd v)
                        match v with Some vo => experts vo | None => [] end
        = Ok w2) ->
  forall d, forward (with_weighting s vw1 tw1) inp = Ok d ->
            forward (with_weighting s vw2 tw2) inp = Ok d.
Proof.
  intros Hw d. unfold forward, forward_locals.
  rewrite !forward_prepare_weighting, !forward_text_weighting,
    !modalities_weighting.
  pose proof (Hw) as Hw'. clear Hw.
  destruct (forward_prepare s inp) as [p|e] eqn:Ep; [|discriminate]. py_step.
  rewrite !forward_encode_video_weighting.
  destruct (forward_encode_video s (length (token_ids inp)) p inp) as [v|e]
    eqn:Ev; [|discriminate].
  assert (Hw := fun w1 => Hw' p v w1 eq_refl Ev). clear Hw'. py_step.
  match goal with
  | |- context [forward_weights (with_weighting s vw1 tw1)
                                ?a1 ?a2 ?a3 ?a4 ?a5 ?a6 ?a7] =>
      destruct (forward_weights (with_weighting s vw1 tw1)
                                a1 a2 a3 a4 a5 a6 a7)
        as [w1|err] eqn:E1; [|discriminate]
  end.
  rewrite !forward_heads_weighting.
  intros H.
  assert (Hv : option_map vid_avg v <> None).
  { intros Hn. unfold forward_heads in H. cbn [l_vid_avg] in H.
    rewrite Hn in H. discriminate. }
  destruct (Hw w1 Hv eq_refl) as [w2 E2]. rewrite E2.
  py_step. rewrite (forward_heads_weighting vw2 tw2).
  match type of H with
  | context [forward_heads s ?l1] =>
      match goal with
      | |- context [forward_heads s ?l2] =>
          rewrite (forward_heads_reads l2 l1) by reflexivity;
          destruct (forward_heads s l1) as [h|e]; [|discriminate]
      end
  end.
  rewrite forward_return_weighting in H. rewrite forward_return_weighting.
  exact H.
Qed.

(** Whatever the weighting modes, two runs that return agree. *)
Lemma forward_weighting_agree (vw1 tw1 vw2 tw2 : string) (d1 d2 : output) :
  forward (with_weighting s vw1 tw1) inp = Ok d1 ->
  forward (with_weighting s vw2 tw2) inp = Ok d2 ->
  d1 = d2.
Proof.
  unfold forward, forward_locals.
  rewrite ?forward_prepare_weighting, ?forward_text_weighting,
    ?modalities_weighting.
  destruct (forward_prepare s inp) as [p|e]; [|discriminate]. py_step.
  rewrite ?forward_encode_video_weighting.
  destruct (forward_encode_video s (length (token_ids inp)) p inp) as [v|e];
    [|discriminate].
  py_step.
  match goal with
  | |- context [forward_weights (with_weighting s vw1 tw1)
                                ?a1 ?a2 ?a3 ?a4 ?a5 ?a6 ?a7] =>
      destruct (forward_weights (with_weighting s vw1 tw1)
                                a1 a2 a3 a4 a5 a6 a7)
        as [w1|err]; [|discriminate];
      destruct (forward_weights (with_weighting s vw2 tw2)
                                a1 a2 a3 a4 a5 a6 a7)
        as [w2|err]; [|intros _; discriminate]
  end.
  rewrite ?forward_heads_weighting.
  intros E1 E2.
  match type of E1 with
  | context [forward_heads s ?l1] =>
      match type of E2 with
      | context [forward_heads s ?l2] =>
          rewrite (forward_heads_reads l2 l1) in E2 by reflexivity;
          destruct (forward_heads s l1) as [h|e]; [|discriminate]
      end
  end.
  rewrite forward_return_weighting in E1, E2.
  rewrite E1 in E2. injection E2 as E2. exact E2.
Qed.

End WeightingForward.

Section NormVersusNone.
Import Torch TorchExt Py MMTwins.

Lemma encode_video_experts (s : self) (b : nat) (p : prepared) (inp : inputs)
      (vo : video_out) :
  forward_encode_video s b p inp = Ok (Some vo) ->
  complete (modalities s) (experts vo).
Proof.
  unfold forward_encode_video.
  destruct (String.eqb (vid_cont s) "bert"); [|discriminate].
  destruct (video_token_lists s b p inp) as [st|e]; [|discriminate].
  py_step. destruct (forward_video s b st) as [vo'|e] eqn:E; [|discriminate].
  intros H. injection H as <-. apply (forward_video_experts s b st vo' E).
Qed.

(** The runs with [vid_wgh='nrm'] and [vid_wgh='none'] return the same
    dictionary. *)
Lemma norm_and_none_agree (s : self) (inp : inputs) :
  (forall d, forward (with_weighting s "nrm" "none") inp = Ok d ->
             forward (with_weighting s "none" "none") inp = Ok d) /\
  (modalities s <> [] ->
   forall d, forward (with_weighting s "none" "none") inp = Ok d ->
             forward (with_weighting s "nrm" "none") inp = Ok d).
Proof.
  split.
  - apply forward_weighting_transfer. intros p v w1 _ _ _ E.
    apply (forward_weights_none_returns _ _ _ _ _ _ _ _ "nrm" w1 E).
  - intros Hne. apply forward_weighting_transfer. intros p v w2 _ Ev Hv E.
    destruct v as [vo|]; [|contradiction Hv; reflexivity].
    apply (forward_weights_nrm_returns _ _ _ _ _ _ _ _ w2 Hne); [|exact E].
    apply (encode_video_experts _ _ _ _ _ Ev).
Qed.

End NormVersusNone.

(** C5, as stated, is an existence claim; its negation holds: no model and
    input make two runs that differ only in the weighting modes (such as
    [vid_wgh='nrm'] against [vid_wgh='none'], with [txt_wgh='none']) return
    different dictionaries. *)
Lemma no_input_separates_weighting_modes :
  ~ exists (s : MMTwins.self) (inp : MMTwins.inputs)
           (vw1 tw1 vw2 tw2 : string) (d1 d2 : MMTwins.output),
      MMTwins.forward (MMTwins.with_weighting s vw1 tw1) inp = Py.Ok d1 /\
      MMTwins.forward (MMTwins.with_weighting s vw2 tw2) inp = Py.Ok d2 /\
      d1 <> d2.
Proof.
  intros (s & inp & vw1 & tw1 & vw2 & tw2 & d1 & d2 & E1 & E2 & Hne).
  apply Hne. exact (forward_weighting_agree s inp vw1 tw1 vw2 tw2 d1 d2 E1 E2).
Qed.

(** C5, amended: the modality re-weighting step does not influence the
    returned values.  Two runs that differ only in the weighting modes
    return the same dictionary whenever both return; a run with
    [vid_wgh='nrm'] and a run with [vid_wgh='none'] (both with
    [txt_wgh='none']) return the same dictionary, and with at least one
    modality each returns whenever the other does; the heads that produce
    every output read [vid_avg] and [text_avg] but neither [vid_weights]
    nor [text_weights]. *)
Theorem modality_weights_never_reach_outputs
        (s : MMTwins.self) (inp : MMTwins.inputs) :
  (forall vw1 tw1 vw2 tw2 d1 d2,
      MMTwins.forward (MMTwins.with_weighting s vw1 tw1) inp = Py.Ok d1 ->
      MMTwins.forward (MMTwins.with_weighting s vw2 tw2) inp = Py.Ok d2 ->
      d1 = d2) /\
  (forall d,
      MMTwins.forward (MMTwins.with_weighting s "nrm" "none") inp = Py.Ok d ->
      MMTwins.forward (MMTwins.with_weighting s "none" "none") inp = Py.Ok d) /\
  (MMTwins.modalities s <> [] ->
   forall d,
     MMTwins.forward (MMTwins.with_weighting s "none" "none") inp = Py.Ok d ->
     MMTwins.forward (MMTwins.with_weighting s "nrm" "none") inp = Py.Ok d) /\
  (forall l vw tw,
      MMTwins.forward_heads s (MMTwins.with_weights l vw tw)
      = MMTwins.forward_heads s l).
Proof.
  split; [intros vw1 tw1 vw2 tw2 d1 d2; apply forward_weighting_agree|].
  split; [apply norm_and_none_agree|].
  split; [apply norm_and_none_agree|].
  intros l vw tw. apply forward_heads_reads; reflexivity.
Qed.

Lemma modality_weights_never_reach_outputs_witness :
  exists d,
    MMTwins.forward (MMTwins.with_weighting MMTwins.demo_self "none" "none")
                    MMTwins.demo_inputs = Py.Ok d /\
    MMTwins.forward (MMTwins.with_weighting MMTwins.demo_self "nrm" "none")
                    MMTwins.demo_inputs = Py.Ok d.
Proof.
  eexists. split.
  - reflexivity.
  - apply (modality_weights_never_reach_outputs MMTwins.demo_self
                                                MMTwins.demo_inputs).
    + discriminate.
    + reflexivity.
Defined.


(** * Further properties of the sources *)

(** ** model/loss.py: off_diagonal *)

Lemma sum_concat_map (g : R -> R) (f : nat -> list R) (a : nat) :
  Torch.sum (map g (concat (map f (seq 0 a))))
  = Rsum a (fun r => Torch.sum (map g (f r))).
Proof.
  induction a as [|a IH].
  - reflexivity.
  - rewrite seq_S, map_app, concat_app, map_app, sum_app, IH.
    simpl. rewrite app_nil_r. lra.
Qed.

Lemma nth_map_seq {A} (f : nat -> A) (d : A) (k i : nat) :
  (i < k)%nat -> nth i (map f (seq 0 k)) d = f i.
Proof.
  intros Hi.
  rewrite (nth_indep _ d (f 0%nat)) by (rewrite length_map, length_seq; exact Hi).
  rewrite (map_nth f), seq_nth by exact Hi. reflexivity.
Qed.

Lemma firstn_skipn_indices {A} (d : A) (l : list A) (a k : nat) :
  (a + k <= length l)%nat ->
  firstn k (skipn a l) = map (fun c => nth (a + c) l d) (seq 0 k).
Proof.
  intros H.
  apply (nth_ext _ _ d d).
  - rewrite length_firstn, length_skipn, length_map, length_seq. lia.
  - intros i Hi.
    rewrite length_firstn, length_skipn in Hi.
    rewrite nth_firstn.
    replace (Nat.ltb i k) with true by (symmetry; apply Nat.ltb_lt; lia).
    rewrite nth_skipn, nth_map_seq by lia. reflexivity.
Qed.

Lemma nth_removelast {A} (d : A) (l : list A) (i : nat) :
  (i < length l - 1)%nat -> nth i (removelast l) d = nth i l d.
Proof.
  revert i. induction l as [|a l IH]; intros i Hi; [simpl in Hi; lia|].
  destruct l as [|b l]; [simpl in Hi; lia|].
  change (removelast (a :: b :: l)) with (a :: removelast (b :: l)).
  destruct i as [|i]; [reflexivity|].
  cbn [nth]. apply IH. cbn [length] in *. lia.
Qed.

Lemma length_removelast {A} (l : list A) :
  length (removelast l) = (length l - 1)%nat.
Proof.
  induction l as [|a l IH]; [reflexivity|].
  destruct l as [|b l]; [reflexivity|].
  change (removelast (a :: b :: l)) with (a :: removelast (b :: l)).
  cbn [length] in *. rewrite IH. lia.
Qed.

(** Position [i * n + j] of the flattened matrix is a multiple of [n + 1]
    exactly on the diagonal. *)
Lemma flat_index_diagonal (n i j : nat) :
  (i < n)%nat -> (j < n)%nat ->
  Nat.eqb ((i * n + j) mod (S n)) 0 = Nat.eqb i j.
Proof.
  intros Hi Hj.
  destruct (Nat.eqb_spec i j) as [->|Hne].
  - replace (j * n + j)%nat with (0 + j * S n)%nat by lia.
    rewrite Nat.Div0.mod_add, Nat.mod_small by lia. reflexivity.
  - apply Nat.eqb_neq.
    destruct (Nat.lt_ge_cases i j) as [Hlt|Hge].
    + replace (i * n + j)%nat with ((j - i) + i * S n)%nat by lia.
      rewrite Nat.Div0.mod_add, Nat.mod_small by lia. lia.
    + replace (i * n + j)%nat with ((S n + j - i) + (i - 1) * S n)%nat by nia.
      rewrite Nat.Div0.mod_add, Nat.mod_small by lia. lia.
Qed.

Lemma tl_map_seq {A} (f : nat -> A) (m : nat) :
  tl (map f (seq 0 (S m))) = map (fun c => f (S c)) (seq 0 m).
Proof. cbn [seq map tl]. rewrite <- seq_shift, map_map. reflexivity. Qed.

Lemma Rsum_one (f : nat -> R) : Rsum 1 f = f 0%nat.
Proof. simpl. lra. Qed.

(** The rows [off_diagonal] keeps, by flat position. *)
Lemma off_diagonal_rows (k : nat) (x : list (list R)) :
  has_shape (S k) (S k) x ->
  off_diagonal x =
  Some (concat (map (fun r => map (fun c => nth (r * S (S k) + S c) (concat x) 0)
                                  (seq 0 (S k)))
                    (seq 0 k))).
Proof.
  intros H. unfold off_diagonal.
  rewrite (proj1 H), (cols_shape _ _ _ H), Nat.eqb_refl.
  pose proof (length_concat_rows _ _ _ H) as L.
  replace (S k - 1)%nat with k by lia.
  replace (S k + 1)%nat with (S (S k)) by lia.
  unfold Torch.chunks. rewrite map_map. do 2 f_equal.
  apply map_ext_in. intros r Hr. apply in_seq in Hr.
  rewrite (firstn_skipn_indices 0)
    by (rewrite length_removelast, L; nia).
  rewrite tl_map_seq. apply map_ext_in. intros c Hc. apply in_seq in Hc.
  apply nth_removelast. rewrite L. nia.
Qed.

Lemma off_diagonal_sum (k : nat) (x : list (list R)) (g : R -> R) :
  has_shape (S k) (S k) x ->
  Rsum k (fun r => Rsum (S k) (fun c => g (nth (r * S (S k) + S c) (concat x) 0)))
  = offdiag_sum (S k) (fun i j => g (entry x i j)).
Proof.
  intros H.
  set (h := fun p => if Nat.eqb (p mod S (S k)) 0 then 0 else g (nth p (concat x) 0)).
  assert (E1 : offdiag_sum (S k) (fun i j => g (entry x i j)) = Rsum (S k * S k) h).
  { rewrite Rsum_mul. unfold offdiag_sum.
    apply Rsum_ext. intros i Hi. apply Rsum_ext. intros j Hj.
    unfold h. rewrite (flat_index_diagonal (S k) i j Hi Hj).
    rewrite (nth_concat_shape _ _ _ _ _ H Hj). reflexivity. }
  rewrite E1.
  replace (S k * S k)%nat with (k * S (S k) + 1)%nat by lia.
  rewrite Rsum_add, Rsum_mul, Rsum_one.
  assert (Z : h (k * S (S k) + 0)%nat = 0).
  { unfold h. replace (k * S (S k) + 0)%nat with (0 + k * S (S k))%nat by lia.
    rewrite Nat.Div0.mod_add, Nat.mod_small by lia. reflexivity. }
  rewrite Z, Rplus_0_r.
  apply Rsum_ext. intros r Hr.
  rewrite (Rsum_shift (S k)).
  assert (Z0 : h (r * S (S k) + 0)%nat = 0).
  { unfold h. replace (r * S (S k) + 0)%nat with (0 + r * S (S k))%nat by lia.
    rewrite Nat.Div0.mod_add, Nat.mod_small by lia. reflexivity. }
  rewrite Z0, Rplus_0_l.
  apply Rsum_ext. intros c Hc. unfold h.
  replace (r * S (S k) + S c)%nat with (S c + r * S (S k))%nat by lia.
  rewrite Nat.Div0.mod_add, Nat.mod_small by lia. reflexivity.
Qed.

(** X1: [off_diagonal] of an [n x n] matrix returns [n (n - 1)] elements,
    the entries off the diagonal: summing any function [g] over the result
    is summing [g (x[i][j])] over the pairs [i <> j]. *)
Theorem off_diagonal_holds_offdiagonal_entries (n : nat) (x : list (list R)) :
  has_shape n n x ->
  exists l,
    off_diagonal x = Some l /\
    length l = (n * (n - 1))%nat /\
    forall g : R -> R,
      Torch.sum (map g l) = offdiag_sum n (fun i j => g (entry x i j)).
Proof.
  intros H. destruct n as [|k].
  - destruct x; [|destruct H; discriminate].
    exists []. repeat split.
  - rewrite (off_diagonal_rows k x H). eexists. split; [reflexivity|]. split.
    + rewrite (length_concat_rows k (S k)).
      * replace (S k - 1)%nat with k by lia. lia.
      * apply has_shape_map_seq. intros r _. rewrite length_map, length_seq.
        reflexivity.
    + intros g. rewrite sum_concat_map.
      rewrite <- (off_diagonal_sum k x g H).
      apply Rsum_ext. intros r _. rewrite map_map. apply sum_map_seq.
Qed.

Lemma off_diagonal_holds_offdiagonal_entries_witness :
  has_shape 2 2 [[1; 2]; [3; 4]] /\
  exists l,
    off_diagonal [[1; 2]; [3; 4]] = Some l /\
    length l = (2 * (2 - 1))%nat /\
    forall g : R -> R,
      Torch.sum (map g l)
      = offdiag_sum 2 (fun i j => g (entry [[1; 2]; [3; 4]] i j)).
Proof.
  assert (H : has_shape 2 2 [[1; 2]; [3; 4]])
    by (split; [reflexivity | repeat constructor]).
  split; [exact H|].
  exact (off_diagonal_holds_offdiagonal_entries 2 [[1; 2]; [3; 4]] H).
Defined.

(** ** model/loss.py: MaxMarginRankingLoss without fix_norm *)

Lemma map2_indices {A B C} (f : A -> B -> C) (da : A) (db : B)
      (a : list A) (b : list B) :
  length a = length b ->
  Torch.map2 f a b = map (fun p => f (nth p a da) (nth p b db)) (seq 0 (length a)).
Proof.
  revert b. induction a as [|x a IH]; intros [|y b] H; try discriminate.
  - reflexivity.
  - cbn [length seq map Torch.map2 nth]. rewrite <- seq_shift, map_map.
    rewrite (IH b) by (simpl in H; lia). reflexivity.
Qed.

Lemma sub_columns (a b : list R) :
  Torch.sub (map (fun v => [v]) a) (map (fun v => [v]) b)
  = map (fun v => [v]) (Torch.map2 Rminus a b).
Proof.
  unfold Torch.sub. revert b. induction a as [|x a IH]; intros [|y b]; simpl;
    try reflexivity.
  rewrite IH. reflexivity.
Qed.

(** The value of [forward] with [fix_norm=False]: every position of the
    stacked columns counts. *)
Lemma forward_all_pairs (k : nat) (margin : R) (x : list (list R)) :
  has_shape (S k) (S k) x ->
  MaxMarginRankingLoss.forward margin false x =
  grid_sum (S k) (hinge_pair margin x) / (2 * INR (S k) * INR (S k)).
Proof.
  intros H.
  pose proof (transpose_shape _ _ _ H) as Ht.
  pose proof (proj1 H) as Hn.
  assert (He : has_shape (S k) (S k)
                 (Torch.expand (S k) (Torch.unsqueeze1 (Torch.diag x)))).
  { rewrite (diag_expanded _ _ H). apply has_shape_map_seq.
    intros i _. rewrite length_map, length_seq. reflexivity. }
  assert (HL : forall y : list (list R), has_shape (S k) (S k) y ->
                                         length (concat y) = (S k * S k)%nat)
    by (intros y Hy; apply length_concat_rows; exact Hy).
  unfold MaxMarginRankingLoss.forward, Torch.mean, Torch.numel.
  unfold Torch.view_col, Torch.cat0. rewrite Hn.
  rewrite <- !map_app, sub_columns.
  set (X1 := concat (Torch.expand (S k) (Torch.unsqueeze1 (Torch.diag x)))).
  set (X2 := concat x ++ concat (Torch.transpose x)).
  assert (L1 : length (X1 ++ X1) = (S k * S k + S k * S k)%nat)
    by (unfold X1; rewrite length_app, !HL by assumption; reflexivity).
  assert (L2 : length X2 = (S k * S k + S k * S k)%nat)
    by (unfold X2; rewrite length_app, !HL by assumption; reflexivity).
  rewrite (map2_indices Rminus 0 0) by (rewrite L1, L2; reflexivity).
  rewrite L1. unfold Torch.rsub. rewrite !map_map. cbn [map].
  replace (map (fun p => [Torch.relu (margin - (nth p (X1 ++ X1) 0 - nth p X2 0))])
               (seq 0 (S k * S k + S k * S k)))
    with (map (fun v => [v])
              (map (fun p => Torch.relu (margin - (nth p (X1 ++ X1) 0 - nth p X2 0)))
                   (seq 0 (S k * S k + S k * S k))))
    by (rewrite map_map; reflexivity).
  rewrite concat_singletons, length_map, length_seq, sum_map_seq.
  rewrite plus_INR, mult_INR.
  replace (INR (S k) * INR (S k) + INR (S k) * INR (S k))
    with (2 * INR (S k) * INR (S k)) by lra.
  f_equal. rewrite Rsum_add, !Rsum_mul. unfold grid_sum.
  rewrite <- Rsum_plus. apply Rsum_ext. intros i Hi.
  rewrite <- Rsum_plus. apply Rsum_ext. intros j Hj.
  unfold hinge_pair, X1, X2.
  destruct (nth_stacked _ _ _ _ i j He He Hi Hj) as [-> ->].
  destruct (nth_stacked _ _ _ _ i j H Ht Hi Hj) as [-> ->].
  rewrite (transpose_entry _ _ _ _ _ H Hi Hj).
  rewrite (diag_expanded _ _ H).
  rewrite (entry_map_seq (S k) (S k) (fun a _ => entry x a a)) by assumption.
  reflexivity.
Qed.

Lemma Rsum_pick (n i : nat) (g : nat -> R) :
  (i < n)%nat ->
  Rsum n g = Rsum n (fun j => if Nat.eqb i j then 0 else g j) + g i.
Proof.
  induction n as [|n IH]; intros Hi; [lia|].
  cbn [Rsum]. destruct (Nat.eqb_spec i n) as [->|Hne].
  - rewrite (Rsum_ext n (fun j => if Nat.eqb n j then 0 else g j) g).
    + lra.
    + intros j Hj. destruct (Nat.eqb_spec n j); [lia | reflexivity].
  - rewrite IH by lia. lra.
Qed.

Lemma grid_sum_split (n : nat) (f : nat -> nat -> R) :
  grid_sum n f = offdiag_sum n f + Rsum n (fun i => f i i).
Proof.
  unfold grid_sum, offdiag_sum. rewrite <- Rsum_plus.
  apply Rsum_ext. intros i Hi. apply (Rsum_pick n i (f i) Hi).
Qed.

Lemma hinge_pair_nonneg (margin : R) (x : list (list R)) (i j : nat) :
  0 <= hinge_pair margin x i j.
Proof.
  unfold hinge_pair.
  pose proof (relu_nonneg (margin - (entry x i i - entry x i j))).
  pose proof (relu_nonneg (margin - (entry x i i - entry x j i))). lra.
Qed.

Lemma offdiag_sum_nonneg (n : nat) (f : nat -> nat -> R) :
  (forall i j, 0 <= f i j) -> 0 <= offdiag_sum n f.
Proof.
  intros Hf. unfold offdiag_sum.
  apply Rsum_nonneg. intros i _. apply Rsum_nonneg. intros j _.
  destruct (Nat.eqb i j); [lra | apply Hf].
Qed.

Lemma forward_fix_norm_nonneg (k : nat) (margin : R) (x : list (list R)) :
  has_shape (S k) (S k) x -> 0 <= MaxMarginRankingLoss.forward margin true x.
Proof.
  intros H. rewrite (forward_offdiag _ _ _ H).
  pose proof (offdiag_sum_nonneg (S k) (hinge_pair margin x)
                                 (hinge_pair_nonneg margin x)) as Hs.
  pose proof (pos_INR k) as Hk. rewrite S_INR.
  destruct (Req_dec (INR k) 0) as [Z|NZ].
  - rewrite Z. replace (2 * (0 + 1) * (0 + 1 - 1)) with 0 by lra.
    unfold Rdiv. rewrite Rinv_0. lra.
  - apply Rmult_le_pos; [exact Hs|]. left. apply Rinv_0_lt_compat. nra.
Qed.

(** X2: with [fix_norm=False] the loss of an [n x n] matrix, [n >= 2], is
    the mean over all [2 n^2] comparisons, the diagonal ones included, each
    of which is [relu(margin)]; it equals
    [((n - 1) * L + relu(margin)) / n] for the loss [L] with
    [fix_norm=True], and is at least [relu(margin) / n]. *)
Theorem max_margin_without_fix_norm (n : nat) (margin : R) (x : list (list R)) :
  has_shape n n x -> (2 <= n)%nat ->
  MaxMarginRankingLoss.forward margin false x
  = 1 / (2 * INR n * INR n) *
    grid_sum n (fun i j =>
      Torch.relu (margin - (entry x i i - entry x i j))
      + Torch.relu (margin - (entry x i i - entry x j i))) /\
  MaxMarginRankingLoss.forward margin false x
  = ((INR n - 1) * MaxMarginRankingLoss.forward margin true x
     + Torch.relu margin) / INR n /\
  Torch.relu margin / INR n <= MaxMarginRankingLoss.forward margin false x.
Proof.
  intros H Hn. destruct n as [|k]; [lia|].
  assert (Hk : 2 <= INR (S k)) by (apply (le_INR 2); lia).
  pose proof (forward_fix_norm_nonneg k margin x H) as Hpos.
  pose proof (relu_nonneg margin) as Hr.
  assert (E : MaxMarginRankingLoss.forward margin false x
              = ((INR (S k) - 1) * MaxMarginRankingLoss.forward margin true x
                 + Torch.relu margin) / INR (S k)).
  { rewrite (forward_all_pairs _ _ _ H), (forward_offdiag _ _ _ H).
    rewrite grid_sum_split.
    rewrite (Rsum_ext (S k) (fun i => hinge_pair margin x i i)
                      (fun _ => 2 * Torch.relu margin)).
    - rewrite Rsum_const. field. lra.
    - intros i _. unfold hinge_pair.
      replace (margin - (entry x i i - entry x i i)) with margin by lra. lra. }
  split; [|split].
  - rewrite (forward_all_pairs _ _ _ H). unfold hinge_pair, Rdiv. lra.
  - exact E.
  - rewrite E. unfold Rdiv.
    apply Rmult_le_compat_r; [left; apply Rinv_0_lt_compat; lra|]. nra.
Qed.

Lemma max_margin_without_fix_norm_witness :
  has_shape 2 2 [[1; 0]; [0; 1]] /\ (2 <= 2)%nat /\
  Torch.relu 1 / INR 2 <= MaxMarginRankingLoss.forward 1 false [[1; 0]; [0; 1]].
Proof.
  assert (H : has_shape 2 2 [[1; 0]; [0; 1]])
    by (split; [reflexivity | repeat constructor]).
  split; [exact H|]. split; [lia|].
  apply (max_margin_without_fix_norm 2 1 [[1; 0]; [0; 1]] H). lia.
Defined.

Lemma entry_map_map (f : R -> R) (n k : nat) (x : list (list R)) (i j : nat) :
  has_shape n k x -> (i < n)%nat -> (j < k)%nat ->
  entry (map (map f) x) i j = f (entry x i j).
Proof.
  intros H Hi Hj. unfold entry.
  change (@nil R) with (map f []) at 1.
  rewrite (map_nth (map f)).
  rewrite (nth_indep _ 0 (f 0))
    by (rewrite length_map, (nth_row_length _ _ _ _ H Hi); exact Hj).
  apply (map_nth f).
Qed.

Lemma map_map_shape (f : R -> R) (n k : nat) (x : list (list R)) :
  has_shape n k x -> has_shape n k (map (map f) x).
Proof.
  intros [Hn Hk]. split.
  - rewrite length_map. exact Hn.
  - apply Forall_map. eapply Forall_impl; [|exact Hk].
    intros r Hr. cbv beta. rewrite length_map. exact Hr.
Qed.

(** The loss is a function of the hinge terms. *)
Lemma forward_from_hinges (k : nat) (margin : R) (fix_norm : bool)
      (x y : list (list R)) :
  has_shape (S k) (S k) x -> has_shape (S k) (S k) y ->
  (forall i j, (i < S k)%nat -> (j < S k)%nat ->
               hinge_pair margin x i j = hinge_pair margin y i j) ->
  MaxMarginRankingLoss.forward margin fix_norm x
  = MaxMarginRankingLoss.forward margin fix_norm y.
Proof.
  intros Hx Hy E. destruct fix_norm.
  - rewrite (forward_offdiag _ _ _ Hx), (forward_offdiag _ _ _ Hy). f_equal.
    unfold offdiag_sum. apply Rsum_ext. intros i Hi. apply Rsum_ext. intros j Hj.
    rewrite (E i j Hi Hj). reflexivity.
  - rewrite (forward_all_pairs _ _ _ Hx), (forward_all_pairs _ _ _ Hy). f_equal.
    unfold grid_sum. apply Rsum_ext. intros i Hi. apply Rsum_ext. intros j Hj.
    apply (E i j Hi Hj).
Qed.

(** X3: the max-margin loss only sees score differences: adding the same
    constant to every entry of the matrix leaves it unchanged, with or
    without [fix_norm]. *)
Theorem max_margin_shift_invariant
        (n : nat) (margin c : R) (fix_norm : bool) (x : list (list R)) :
  has_shape n n x ->
  MaxMarginRankingLoss.forward margin fix_norm (map (map (fun v => v + c)) x)
  = MaxMarginRankingLoss.forward margin fix_norm x.
Proof.
  intros H. destruct n as [|k].
  - destruct x; [reflexivity | destruct H; discriminate].
  - apply (forward_from_hinges k); [apply map_map_shape, H | exact H |].
    intros i j Hi Hj. unfold hinge_pair.
    rewrite !(entry_map_map _ _ _ _ _ _ H) by assumption.
    f_equal; f_equal; lra.
Qed.

Lemma max_margin_shift_invariant_witness :
  has_shape 2 2 [[1; 0]; [0; 1]] /\
  MaxMarginRankingLoss.forward 1 true (map (map (fun v => v + 5)) [[1; 0]; [0; 1]])
  = MaxMarginRankingLoss.forward 1 true [[1; 0]; [0; 1]].
Proof.
  assert (H : has_shape 2 2 [[1; 0]; [0; 1]])
    by (split; [reflexivity | repeat constructor]).
  split; [exact H|].
  exact (max_margin_shift_invariant 2 1 5 true [[1; 0]; [0; 1]] H).
Defined.

(** X4: the max-margin loss treats rows and columns alike: the loss of the
    transposed matrix is the loss of the matrix, with or without
    [fix_norm]. *)
Theorem max_margin_transpose_invariant
        (n : nat) (margin : R) (fix_norm : bool) (x : list (list R)) :
  has_shape n n x ->
  MaxMarginRankingLoss.forward margin fix_norm (Torch.transpose x)
  = MaxMarginRankingLoss.forward margin fix_norm x.
Proof.
  intros H. destruct n as [|k].
  - destruct x; [reflexivity | destruct H; discriminate].
  - apply (forward_from_hinges k); [apply transpose_shape, H | exact H |].
    intros i j Hi Hj. unfold hinge_pair.
    rewrite !(transpose_entry _ _ _ _ _ H) by assumption. lra.
Qed.

Lemma max_margin_transpose_invariant_witness :
  has_shape 2 2 [[1; 2]; [3; 4]] /\
  MaxMarginRankingLoss.forward 1 true (Torch.transpose [[1; 2]; [3; 4]])
  = MaxMarginRankingLoss.forward 1 true [[1; 2]; [3; 4]].
Proof.
  assert (H : has_shape 2 2 [[1; 2]; [3; 4]])
    by (split; [reflexivity | repeat constructor]).
  split; [exact H|].
  exact (max_margin_transpose_invariant 2 1 true [[1; 2]; [3; 4]] H).
Defined.

(** ** model/loss.py: InfoNceLoss and BarlowTwinsLoss *)

Lemma Rsum_ge_term (n i : nat) (f : nat -> R) :
  (forall j, 0 <= f j) -> (i < n)%nat -> f i <= Rsum n f.
Proof.
  intros Hf Hi. rewrite (Rsum_pick n i f Hi).
  assert (0 <= Rsum n (fun j => if Nat.eqb i j then 0 else f j)).
  { apply Rsum_nonneg. intros j _. destruct (Nat.eqb i j); [lra | apply Hf]. }
  lra.
Qed.

Lemma ln_le_1 (r : R) : 0 < r -> r <= 1 -> ln r <= 0.
Proof.
  intros H0 H1. destruct H1 as [Hlt|Heq].
  - pose proof (ln_increasing r 1 H0 Hlt) as H. rewrite ln_1 in H. lra.
  - rewrite Heq, ln_1. lra.
Qed.

Lemma softmax_cross_entropy_nonneg (n : nat) (z : nat -> nat -> R) :
  0 <= softmax_cross_entropy n z (fun i => i).
Proof.
  unfold softmax_cross_entropy.
  assert (Hs : 0 <= Rsum n (fun i => - ln (exp (z i i) / Rsum n (fun k => exp (z i k))))).
  { apply Rsum_nonneg. intros i Hi.
    assert (Hpos : 0 < Rsum n (fun k => exp (z i k)))
      by (apply Rsum_pos; [lia | intros; apply exp_pos]).
    pose proof (Rsum_ge_term n i (fun k => exp (z i k))
                             (fun j => Rlt_le _ _ (exp_pos (z i j))) Hi) as Hle.
    cbv beta in Hle. pose proof (exp_pos (z i i)) as He.
    assert (Hr : 0 < exp (z i i) / Rsum n (fun k => exp (z i k)))
      by (apply Rdiv_lt_0_compat; assumption).
    assert (Hr1 : exp (z i i) / Rsum n (fun k => exp (z i k)) <= 1).
    { apply (Rmult_le_reg_r (Rsum n (fun k => exp (z i k)))); [exact Hpos|].
      unfold Rdiv. rewrite Rmult_assoc, Rinv_l by lra. lra. }
    pose proof (ln_le_1 _ Hr Hr1) as Hl. lra. }
  destruct n as [|n].
  - unfold Rdiv. simpl. rewrite Rinv_0. lra.
  - apply Rmult_le_pos; [exact Hs|]. left. apply Rinv_0_lt_compat.
    apply lt_0_INR. lia.
Qed.

Lemma info_nce_forward_value (n : nat) (T : R) (x : Heap.ref) (s : Heap.store) :
  has_shape n n (s x) ->
  fst (InfoNceLoss.forward T x s) =
  softmax_cross_entropy n (fun i j => entry (s x) i j / T) (fun i => i)
  + softmax_cross_entropy n (fun i j => entry (s x) j i / T) (fun i => i).
Proof.
  intros H. unfold InfoNceLoss.forward, Heap.bind, Heap.idiv, Heap.read, Heap.ret.
  cbn [fst]. unfold Heap.update. rewrite Nat.eqb_refl.
  apply (symmetric_cross_entropy n (s x) T H).
Qed.

(** X5: the InfoNCE loss of a square matrix is never negative. *)
Theorem info_nce_forward_nonneg (n : nat) (T : R) (x : Heap.ref) (s : Heap.store) :
  has_shape n n (s x) -> 0 <= fst (InfoNceLoss.forward T x s).
Proof.
  intros H. rewrite (info_nce_forward_value n T x s H).
  pose proof (softmax_cross_entropy_nonneg n (fun i j => entry (s x) i j / T)).
  pose proof (softmax_cross_entropy_nonneg n (fun i j => entry (s x) j i / T)).
  lra.
Qed.

Lemma info_nce_forward_nonneg_witness :
  let s : Heap.store := fun _ => [[1; 0]; [0; 1]] in
  has_shape 2 2 (s 0%nat) /\ 0 <= fst (InfoNceLoss.forward (7 / 100) 0%nat s).
Proof.
  intros s.
  assert (H : has_shape 2 2 (s 0%nat))
    by (split; [reflexivity | repeat constructor]).
  split; [exact H|].
  exact (info_nce_forward_nonneg 2 (7 / 100) 0%nat s H).
Defined.

(** X6: calling [InfoNceLoss.forward] twice on the same tensor scales it
    twice: after the second call the tensor holds [x / T / T], and the second
    loss is the symmetric cross-entropy of [x / T / T], not of [x / T]. *)
Theorem info_nce_forward_twice (n : nat) (T : R) (x : Heap.ref) (s : Heap.store) :
  has_shape n n (s x) ->
  let s1 := snd (InfoNceLoss.forward T x s) in
  snd (InfoNceLoss.forward T x s1) x
  = Torch.div_scalar (Torch.div_scalar (s x) T) T /\
  fst (InfoNceLoss.forward T x s1) =
  softmax_cross_entropy n (fun i j => entry (s x) i j / T / T) (fun i => i)
  + softmax_cross_entropy n (fun i j => entry (s x) j i / T / T) (fun i => i).
Proof.
  intros H s1.
  assert (E1 : s1 x = Torch.div_scalar (s x) T)
    by (unfold s1; rewrite forward_store_info_nce; apply update_same).
  split.
  - rewrite forward_store_info_nce, update_same, E1. reflexivity.
  - pose proof (div_scalar_shape _ _ _ T H) as H1. rewrite <- E1 in H1.
    rewrite (info_nce_forward_value n T x s1 H1). rewrite E1.
    f_equal; apply softmax_cross_entropy_ext; intros i j Hi Hj;
      rewrite (div_scalar_entry _ _ _ _ _ _ H) by assumption; reflexivity.
Qed.

Lemma info_nce_forward_twice_witness :
  let s : Heap.store := fun _ => [[1; 0]; [0; 1]] in
  has_shape 2 2 (s 0%nat) /\
  snd (InfoNceLoss.forward (7 / 100) 0%nat
         (snd (InfoNceLoss.forward (7 / 100) 0%nat s))) 0%nat
  = Torch.div_scalar (Torch.div_scalar (s 0%nat) (7 / 100)) (7 / 100).
Proof.
  intros s.
  assert (H : has_shape 2 2 (s 0%nat))
    by (split; [reflexivity | repeat constructor]).
  split; [exact H|].
  exact (proj1 (info_nce_forward_twice 2 (7 / 100) 0%nat s H)).
Defined.

(** X7: [BarlowTwinsLoss.forward] never reads [lambd].  On a [d x d]
    matrix [c] (and a machine with CUDA, where the code moves the targets)
    it returns, whatever [lambd], the mean softmax cross-entropy of
    [c / 0.07] by rows plus the one by columns, with the diagonal as
    targets; this value is never negative, and two calls that differ only
    in [lambd] return the same loss and leave the same tensors. *)
Theorem barlow_twins_forward_ignores_lambd
        (d : nat) (lambd lambd' : R) (c : Heap.ref) (s : Heap.store) :
  has_shape d d (s c) ->
  fst (BarlowTwinsLoss.forward lambd c s) =
  softmax_cross_entropy d (fun i j => entry (s c) i j / (7 / 100)) (fun i => i)
  + softmax_cross_entropy d (fun i j => entry (s c) j i / (7 / 100)) (fun i => i)
  /\ 0 <= fst (BarlowTwinsLoss.forward lambd c s)
  /\ BarlowTwinsLoss.forward lambd c s = BarlowTwinsLoss.forward lambd' c s.
Proof.
  intros H. rewrite (barlow_forward_value d lambd c s H).
  split; [reflexivity|]. split; [|reflexivity].
  pose proof (softmax_cross_entropy_nonneg d
                (fun i j => entry (s c) i j / (7 / 100))).
  pose proof (softmax_cross_entropy_nonneg d
                (fun i j => entry (s c) j i / (7 / 100))).
  lra.
Qed.

Lemma barlow_twins_forward_ignores_lambd_witness :
  let s : Heap.store := fun _ => [[1; 0]; [0; 1]] in
  has_shape 2 2 (s 0%nat) /\
  0 <= fst (BarlowTwinsLoss.forward (51 / 10000) 0%nat s).
Proof.
  intros s.
  assert (H : has_shape 2 2 (s 0%nat))
    by (split; [reflexivity | repeat constructor]).
  split; [exact H|].
  exact (proj1 (proj2 (barlow_twins_forward_ignores_lambd
                         2 (51 / 10000) 1 0%nat s H))).
Defined.

(** X9: the InfoNCE loss is symmetric in captions and videos: the loss of
    the transposed matrix is the loss of the matrix. *)
Theorem info_nce_transpose_invariant
        (n : nat) (T : R) (x : Heap.ref) (s s' : Heap.store) :
  has_shape n n (s x) ->
  s' x = Torch.transpose (s x) ->
  fst (InfoNceLoss.forward T x s') = fst (InfoNceLoss.forward T x s).
Proof.
  intros H E. destruct n as [|k].
  - assert (Z : s x = []) by (destruct (s x); [reflexivity | destruct H; discriminate]).
    unfold InfoNceLoss.forward, Heap.bind, Heap.idiv, Heap.read, Heap.ret.
    cbn [fst]. unfold Heap.update. rewrite !Nat.eqb_refl, E, Z. reflexivity.
  - assert (H' : has_shape (S k) (S k) (s' x))
      by (rewrite E; apply transpose_shape, H).
    rewrite (info_nce_forward_value _ T x s' H'), (info_nce_forward_value _ T x s H).
    rewrite E, Rplus_comm.
    f_equal; apply softmax_cross_entropy_ext; intros i j Hi Hj;
      rewrite (transpose_entry _ _ _ _ _ H) by assumption; reflexivity.
Qed.

Lemma info_nce_transpose_invariant_witness :
  let s : Heap.store := fun _ => [[1; 2]; [3; 4]] in
  let s' : Heap.store := fun _ => Torch.transpose [[1; 2]; [3; 4]] in
  has_shape 2 2 (s 0%nat) /\
  fst (InfoNceLoss.forward (7 / 100) 0%nat s')
  = fst (InfoNceLoss.forward (7 / 100) 0%nat s).
Proof.
  intros s s'.
  assert (H : has_shape 2 2 (s 0%nat))
    by (split; [reflexivity | repeat constructor]).
  split; [exact H|].
  exact (info_nce_transpose_invariant 2 (7 / 100) 0%nat s s' H eq_refl).
Defined.

(** ** server.py: the entries of the similarity matrices *)

Lemma shape3_row_nonempty (b t d : nat) (x : tensor3) (i : nat) :
  has_shape3 b (S t) d x -> (i < b)%nat -> nth i x [] <> [].
Proof.
  intros [Hb Hx] Hi E. rewrite Forall_forall in Hx.
  assert (Hin : In (nth i x []) x) by (apply nth_In; lia).
  destruct (Hx _ Hin) as [Hl _]. rewrite E in Hl. discriminate.
Qed.

Lemma v2t_of_entry (txt_rep vid_rep : tensor3) (i j : nat) :
  (i < length txt_rep)%nat -> (j < length vid_rep)%nat ->
  nth i txt_rep [] <> [] ->
  entry (v2t_of (Torch.normalize3 txt_rep) (Torch.normalize3 vid_rep)) i j =
  max_mean (fun a b => Torch.dot (Torch.normalize a) (Torch.normalize b))
           (nth i txt_rep []) (nth j vid_rep []).
Proof.
  intros Hi Hj Hne. unfold entry, v2t_of, Torch.normalize3.
  rewrite map_map.
  rewrite (nth_indep _ [] ((fun t => map (fun v => Torch.mean_vec (Torch.max_dim0
             (token_scores (map Torch.normalize t) v)))
             (map (map Torch.normalize) vid_rep)) []))
    by (rewrite length_map; exact Hi).
  rewrite (map_nth (fun t => map (fun v => Torch.mean_vec (Torch.max_dim0
             (token_scores (map Torch.normalize t) v)))
             (map (map Torch.normalize) vid_rep))).
  rewrite map_map.
  rewrite (nth_map_default _ _ [] j Hj).
  unfold max_mean, token_scores, Torch.max_dim0. f_equal.
  destruct (nth i txt_rep []) as [|a c]; [contradiction|].
  set (w := nth j vid_rep []).
  change (map Torch.normalize (a :: c))
    with (Torch.normalize a :: map Torch.normalize c).
  rewrite (transpose_of_rows
             (fun r => map (Torch.dot r) (map Torch.normalize w))
             (length w) (Torch.normalize a) (map Torch.normalize c))
    by (intros r; rewrite !length_map; reflexivity).
  rewrite map_map.
  rewrite (map_over_indices
             (fun vb => Torch.max_vec
                          (map (fun ta => Torch.dot (Torch.normalize ta)
                                                    (Torch.normalize vb))
                               (a :: c))) [] w).
  apply map_ext_in. intros k Hk. apply in_seq in Hk. f_equal.
  change (Torch.normalize a :: map Torch.normalize c)
    with (map Torch.normalize (a :: c)).
  rewrite map_map. apply map_ext. intros r.
  rewrite (nth_map_default (Torch.dot (Torch.normalize r))
                           (map Torch.normalize w) [] k)
    by (rewrite length_map; lia).
  change (@nil R) with (Torch.normalize []) at 1.
  rewrite (map_nth Torch.normalize). reflexivity.
Qed.

Lemma chunks_entry (n k : nat) (l : list R) (p q : nat) :
  (n * k <= length l)%nat -> (p < n)%nat -> (q < k)%nat ->
  entry (Torch.chunks n k l) p q = nth (p * k + q) l 0.
Proof.
  intros Hl Hp Hq. unfold entry, Torch.chunks.
  rewrite (nth_map_seq (fun i => firstn k (skipn (i * k) l)) [] n p Hp).
  rewrite (firstn_skipn_indices 0 l (p * k) k) by nia.
  apply (nth_map_seq (fun c => nth (p * k + c) l 0) 0 k q Hq).
Qed.

Lemma chunks_shape {A} (n k : nat) (l : list A) :
  (n * k <= length l)%nat -> has_shape n k (Torch.chunks n k l).
Proof.
  intros Hl. unfold Torch.chunks. split.
  - rewrite length_map, length_seq. reflexivity.
  - apply Forall_map, Forall_forall. intros i Hi. apply in_seq in Hi.
    rewrite length_firstn, length_skipn. nia.
Qed.

Lemma max_mean_ext (f g : list R -> list R -> R) (c w : list (list R)) :
  (forall a b, In a c -> In b w -> f a b = g a b) ->
  max_mean f c w = max_mean g c w.
Proof.
  intros E. unfold max_mean. f_equal.
  apply map_ext_in. intros b Hb. f_equal.
  apply map_ext_in. intros a Ha. apply E; assumption.
Qed.

Lemma mean_max_cosine (c w : list (list R)) :
  Forall (fun a => Torch.normalize_eps <= Torch.norm2 a) c ->
  Forall (fun b => Torch.normalize_eps <= Torch.norm2 b) w ->
  mean_max normalized_dot c w = mean_max cosine_similarity c w.
Proof.
  intros Fa Fb. rewrite Forall_forall in Fa, Fb.
  apply mean_max_ext. intros a b Ha Hb.
  apply dot_normalize_cosine; [apply Fa, Ha | apply Fb, Hb].
Qed.

Lemma max_mean_cosine (c w : list (list R)) :
  Forall (fun a => Torch.normalize_eps <= Torch.norm2 a) c ->
  Forall (fun b => Torch.normalize_eps <= Torch.norm2 b) w ->
  max_mean normalized_dot c w = max_mean cosine_similarity c w.
Proof.
  intros Fa Fb. rewrite Forall_forall in Fa, Fb.
  apply max_mean_ext. intros a b Ha Hb.
  apply dot_normalize_cosine; [apply Fa, Ha | apply Fb, Hb].
Qed.

(** The four matrices of the two routines, entry by entry. *)
Lemma routines_entries (tb tt vb vt d : nat) (vid_rep txt_rep : tensor3) :
  has_shape3 tb tt d txt_rep -> has_shape3 vb vt d vid_rep ->
  (1 <= tb)%nat -> (1 <= tt)%nat -> (1 <= vb)%nat -> (1 <= vt)%nat ->
  (1 <= d)%nat ->
  let r1 := Server.cpt_mean_maximum_similarity vid_rep txt_rep in
  let r2 := Server.cpt_mean_maximum_similarity2 vid_rep txt_rep in
  (has_shape tb vb (Server.t2v r1) /\ has_shape tb vb (Server.t2v r2) /\
   has_shape vb tb (Server.v2t r1) /\ has_shape tb vb (Server.v2t r2)) /\
  (forall i j, (i < tb)%nat -> (j < vb)%nat ->
     entry (Server.t2v r1) i j
     = mean_max normalized_dot (nth i txt_rep []) (nth j vid_rep []) /\
     entry (Server.t2v r2) i j
     = mean_max normalized_dot (nth i txt_rep []) (nth j vid_rep []) /\
     entry (Server.v2t r2) i j
     = max_mean normalized_dot (nth i txt_rep []) (nth j vid_rep [])) /\
  (forall p q, (p < vb)%nat -> (q < tb)%nat ->
     entry (Server.v2t r1) p q
     = max_mean normalized_dot (nth ((p * tb + q) / vb) txt_rep [])
                               (nth ((p * tb + q) mod vb) vid_rep [])).
Proof.
  intros Ht Hv Htb Htt Hvb Hvt Hd r1 r2. subst r1 r2.
  destruct tb as [|tb]; [lia|]. destruct tt as [|tt]; [lia|].
  destruct vb as [|vb]; [lia|]. destruct vt as [|vt]; [lia|].
  destruct d as [|d]; [lia|].
  destruct (routines_closed_form tb tt vb vt d vid_rep txt_rep Ht Hv)
    as (E1 & E1' & E2 & E2').
  rewrite E1, E1', E2, E2'. clear E1 E1' E2 E2'.
  pose proof (proj1 Ht) as Lt. pose proof (proj1 Hv) as Lv.
  pose proof (v2t_of_shape (Torch.normalize3 txt_rep)
                           (Torch.normalize3 vid_rep)) as Hs.
  pose proof (t2v_of_shape (Torch.normalize3 txt_rep)
                           (Torch.normalize3 vid_rep)) as Hs'.
  unfold Torch.normalize3 in Hs at 1 2. unfold Torch.normalize3 in Hs' at 1 2.
  rewrite !length_map, Lt, Lv in Hs, Hs'.
  pose proof (length_concat_rows _ _ _ Hs) as Hlen.
  assert (V : forall i j, (i < S tb)%nat -> (j < S vb)%nat ->
            entry (v2t_of (Torch.normalize3 txt_rep) (Torch.normalize3 vid_rep))
                  i j
            = max_mean normalized_dot (nth i txt_rep []) (nth j vid_rep [])).
  { intros i j Hi Hj. apply v2t_of_entry; rewrite ?Lt, ?Lv; try assumption.
    apply (shape3_row_nonempty _ _ _ _ _ Ht Hi). }
  split; [|split].
  - split; [exact Hs'|]. split; [exact Hs'|]. split; [|exact Hs].
    unfold Torch.view2. apply chunks_shape. rewrite Hlen. lia.
  - intros i j Hi Hj. split; [|split].
    + apply t2v_of_entry; rewrite ?Lt, ?Lv; assumption.
    + apply t2v_of_entry; rewrite ?Lt, ?Lv; assumption.
    + apply V; assumption.
  - intros p q Hp Hq. unfold Torch.view2.
    rewrite chunks_entry by (rewrite ?Hlen; lia).
    assert (Hm : ((p * S tb + q) mod S vb < S vb)%nat)
      by (apply Nat.mod_upper_bound; lia).
    assert (Hq' : ((p * S tb + q) / S vb < S tb)%nat)
      by (apply Nat.Div0.div_lt_upper_bound; nia).
    rewrite <- V by assumption.
    rewrite <- (nth_concat_shape _ _ _ _ _ Hs Hm).
    f_equal. rewrite (Nat.mul_comm (_ / _)). apply Nat.div_mod_eq.
Qed.

Lemma row_major_same (n i j : nat) :
  (j < n)%nat -> ((i * n + j) / n = i /\ (i * n + j) mod n = j)%nat.
Proof.
  intros Hj. split.
  - rewrite Nat.div_add_l by lia. rewrite Nat.div_small by lia. lia.
  - rewrite Nat.add_comm, Nat.Div0.mod_add. apply Nat.mod_small, Hj.
Qed.

(** C2, amended: for [txt_rep] of shape [tb, tt, d] and [vid_rep] of shape
    [vb, vt, d] with all dimensions positive and tokens of norm at most
    [1e18], each routine returns a [tb x vb] matrix ['t2v'] whose entry
    [(i, j)] is the value of one and the same formula: the mean over the
    tokens [a] of caption [i] of the maximum over the tokens [b] of video
    [j] of the inner product of [a / max(||a||, 1e-12)] and
    [b / max(||b||, 1e-12)]; when [tb = vb], entry [(i, j)] of each
    routine's ['v2t'] is the mean over the video's tokens of the maximum
    over the caption's tokens of the same inner product.  The inner product
    is the cosine similarity of the two tokens whenever all tokens of the
    caption and of the video have norm at least [1e-12]. *)
Theorem max_mean_similarity_routines_formula
        (tb tt vb vt d : nat) (vid_rep txt_rep : tensor3) :
  has_shape3 tb tt d txt_rep -> has_shape3 vb vt d vid_rep ->
  (1 <= tb)%nat -> (1 <= tt)%nat -> (1 <= vb)%nat -> (1 <= vt)%nat ->
  (1 <= d)%nat ->
  bounded_tokens txt_rep -> bounded_tokens vid_rep ->
  let r1 := Server.cpt_mean_maximum_similarity vid_rep txt_rep in
  let r2 := Server.cpt_mean_maximum_similarity2 vid_rep txt_rep in
  has_shape tb vb (Server.t2v r1) /\ has_shape tb vb (Server.t2v r2) /\
  forall i j, (i < tb)%nat -> (j < vb)%nat ->
    let caption := nth i txt_rep [] in
    let video := nth j vid_rep [] in
    entry (Server.t2v r1) i j = mean_max normalized_dot caption video /\
    entry (Server.t2v r2) i j = mean_max normalized_dot caption video /\
    (tb = vb ->
     entry (Server.v2t r1) i j = max_mean normalized_dot caption video /\
     entry (Server.v2t r2) i j = max_mean normalized_dot caption video) /\
    (Forall (fun a => Torch.normalize_eps <= Torch.norm2 a) caption ->
     Forall (fun b => Torch.normalize_eps <= Torch.norm2 b) video ->
     entry (Server.t2v r1) i j = mean_max cosine_similarity caption video /\
     entry (Server.t2v r2) i j = mean_max cosine_similarity caption video).
Proof.
  intros Ht Hv Htb Htt Hvb Hvt Hd _ _ r1 r2.
  destruct (routines_entries tb tt vb vt d vid_rep txt_rep Ht Hv
                             Htb Htt Hvb Hvt Hd)
    as ((S1 & S2 & _ & _) & E & E').
  fold r1 r2 in S1, S2, E, E'.
  split; [exact S1|]. split; [exact S2|].
  intros i j Hi Hj caption video.
  destruct (E i j Hi Hj) as (T1 & T2 & V2). fold caption video in T1, T2, V2.
  split; [exact T1|]. split; [exact T2|]. split.
  - intros Eb. split; [|exact V2].
    assert (Hi' : (i < vb)%nat) by lia. assert (Hj' : (j < tb)%nat) by lia.
    rewrite (E' i j Hi' Hj'). rewrite Eb.
    destruct (row_major_same vb i j Hj) as [-> ->]. reflexivity.
  - intros Fa Fb. rewrite T1, T2.
    split; apply mean_max_cosine; assumption.
Qed.

Lemma max_mean_similarity_routines_formula_witness :
  let txt_rep := [[[3; 4]; [1; 0]]; [[0; 2]; [1; 1]]] in
  let vid_rep := [[[1; 0]]; [[0; 1]]] in
  has_shape3 2 2 2 txt_rep /\ has_shape3 2 1 2 vid_rep /\
  bounded_tokens txt_rep /\ bounded_tokens vid_rep /\
  has_shape 2 2 (Server.t2v (Server.cpt_mean_maximum_similarity vid_rep
                                                                 txt_rep)).
Proof.
  intros txt_rep vid_rep.
  assert (Ht : has_shape3 2 2 2 txt_rep)
    by (split; [reflexivity | repeat constructor]).
  assert (Hv : has_shape3 2 1 2 vid_rep)
    by (split; [reflexivity | repeat constructor]).
  assert (Bt : bounded_tokens txt_rep) by small_tokens.
  assert (Bv : bounded_tokens vid_rep) by small_tokens.
  split; [exact Ht|]. split; [exact Hv|]. split; [exact Bt|]. split; [exact Bv|].
  apply (max_mean_similarity_routines_formula 2 2 2 1 2 vid_rep txt_rep Ht Hv);
    [lia | lia | lia | lia | lia | exact Bt | exact Bv].
Defined.

(** X11: for inputs with positive dimensions and tokens of norm at most
    [1e18], the video-to-text matrix of the second routine has shape
    [[txt_bs, vid_bs]], indexed [[caption, video]] like the text-to-video
    matrix; its entry is the mean over the video's tokens of the maximum
    over the caption's tokens of the inner product of the two tokens, each
    divided by the larger of its norm and [1e-12]: the cosine similarity of
    the tokens whenever all of them have norm at least [1e-12]. *)
Theorem max_mean_similarity2_v2t_entries
        (tb tt vb vt d : nat) (vid_rep txt_rep : tensor3) :
  has_shape3 tb tt d txt_rep -> has_shape3 vb vt d vid_rep ->
  (1 <= tb)%nat -> (1 <= tt)%nat -> (1 <= vb)%nat -> (1 <= vt)%nat ->
  (1 <= d)%nat ->
  bounded_tokens txt_rep -> bounded_tokens vid_rep ->
  let r2 := Server.cpt_mean_maximum_similarity2 vid_rep txt_rep in
  has_shape tb vb (Server.v2t r2) /\
  forall i j, (i < tb)%nat -> (j < vb)%nat ->
    let caption := nth i txt_rep [] in
    let video := nth j vid_rep [] in
    entry (Server.v2t r2) i j = max_mean normalized_dot caption video /\
    (Forall (fun a => Torch.normalize_eps <= Torch.norm2 a) caption ->
     Forall (fun b => Torch.normalize_eps <= Torch.norm2 b) video ->
     entry (Server.v2t r2) i j = max_mean cosine_similarity caption video).
Proof.
  intros Ht Hv Htb Htt Hvb Hvt Hd _ _ r2.
  destruct (routines_entries tb tt vb vt d vid_rep txt_rep Ht Hv
                             Htb Htt Hvb Hvt Hd)
    as ((_ & _ & _ & S2) & E & _).
  fold r2 in S2, E. split; [exact S2|].
  intros i j Hi Hj caption video.
  destruct (E i j Hi Hj) as (_ & _ & V2). fold caption video in V2.
  split; [exact V2|].
  intros Fa Fb. rewrite V2. apply max_mean_cosine; assumption.
Qed.

Lemma max_mean_similarity2_v2t_entries_witness :
  let txt_rep := [[[3; 4]; [1; 0]]] in
  let vid_rep := [[[1; 0]]; [[0; 1]]] in
  has_shape3 1 2 2 txt_rep /\ has_shape3 2 1 2 vid_rep /\
  bounded_tokens txt_rep /\ bounded_tokens vid_rep /\
  has_shape 1 2 (Server.v2t (Server.cpt_mean_maximum_similarity2 vid_rep
                                                                  txt_rep)).
Proof.
  intros txt_rep vid_rep.
  assert (Ht : has_shape3 1 2 2 txt_rep)
    by (split; [reflexivity | repeat constructor]).
  assert (Hv : has_shape3 2 1 2 vid_rep)
    by (split; [reflexivity | repeat constructor]).
  assert (Bt : bounded_tokens txt_rep) by small_tokens.
  assert (Bv : bounded_tokens vid_rep) by small_tokens.
  split; [exact Ht|]. split; [exact Hv|]. split; [exact Bt|]. split; [exact Bv|].
  apply (max_mean_similarity2_v2t_entries 1 2 2 1 2 vid_rep txt_rep Ht Hv);
    [lia | lia | lia | lia | lia | exact Bt | exact Bv].
Defined.

(** X12: for inputs with positive dimensions and tokens of norm at most
    [1e18], the first routine returns a video-to-text matrix of shape
    [[vid_bs, txt_bs]] that holds the caption-by-video scores read row by
    row, a reshaping and not a transposition: its entry [(p, q)] is the
    score (mean over the video's tokens of the maximum over the caption's
    tokens of the inner product of the tokens, each divided by the larger
    of its norm and [1e-12]) of caption [(p * txt_bs + q) / vid_bs] and
    video [(p * txt_bs + q) mod vid_bs]. *)
Theorem max_mean_similarity_v2t_is_reshaped
        (tb tt vb vt d : nat) (vid_rep txt_rep : tensor3) :
  has_shape3 tb tt d txt_rep -> has_shape3 vb vt d vid_rep ->
  (1 <= tb)%nat -> (1 <= tt)%nat -> (1 <= vb)%nat -> (1 <= vt)%nat ->
  (1 <= d)%nat ->
  bounded_tokens txt_rep -> bounded_tokens vid_rep ->
  let r1 := Server.cpt_mean_maximum_similarity vid_rep txt_rep in
  has_shape vb tb (Server.v2t r1) /\
  forall p q, (p < vb)%nat -> (q < tb)%nat ->
    entry (Server.v2t r1) p q =
    max_mean normalized_dot (nth ((p * tb + q) / vb) txt_rep [])
                            (nth ((p * tb + q) mod vb) vid_rep []).
Proof.
  intros Ht Hv Htb Htt Hvb Hvt Hd _ _ r1.
  destruct (routines_entries tb tt vb vt d vid_rep txt_rep Ht Hv
                             Htb Htt Hvb Hvt Hd)
    as ((_ & _ & S1 & _) & _ & E').
  fold r1 in S1, E'. split; [exact S1 | exact E'].
Qed.

Lemma max_mean_similarity_v2t_is_reshaped_witness :
  let txt_rep := [[[3; 4]; [1; 0]]] in
  let vid_rep := [[[1; 0]]; [[0; 1]]] in
  has_shape3 1 2 2 txt_rep /\ has_shape3 2 1 2 vid_rep /\
  bounded_tokens txt_rep /\ bounded_tokens vid_rep /\
  has_shape 2 1 (Server.v2t (Server.cpt_mean_maximum_similarity vid_rep
                                                                 txt_rep)).
Proof.
  intros txt_rep vid_rep.
  assert (Ht : has_shape3 1 2 2 txt_rep)
    by (split; [reflexivity | repeat constructor]).
  assert (Hv : has_shape3 2 1 2 vid_rep)
    by (split; [reflexivity | repeat constructor]).
  assert (Bt : bounded_tokens txt_rep) by small_tokens.
  assert (Bv : bounded_tokens vid_rep) by small_tokens.
  split; [exact Ht|]. split; [exact Hv|]. split; [exact Bt|]. split; [exact Bv|].
  apply (max_mean_similarity_v2t_is_reshaped 1 2 2 1 2 vid_rep txt_rep Ht Hv);
    [lia | lia | lia | lia | lia | exact Bt | exact Bv].
Defined.

(** ** model/MMTwins.py: the similarity and cross-correlation matrices *)

Lemma dot_comm (u v : vec) : Torch.dot u v = Torch.dot v u.
Proof.
  unfold Torch.dot. revert v.
  induction u as [|a u IH]; intros [|b v]; try reflexivity.
  cbn [Torch.map2 Torch.sum fold_right].
  change (fold_right Rplus 0 ?l) with (Torch.sum l).
  rewrite IH. lra.
Qed.



Lemma sharded_inner_product_shape
      (n m d : nat) (vid txt : mat) (subspaces : list string) :
  has_shape n (S d) txt -> has_shape m (S d) vid ->
  has_shape n m (sharded_cross_view_inner_product vid txt subspaces).
Proof.
  intros Ht Hv. unfold sharded_cross_view_inner_product.
  rewrite <- (proj1 Ht), <- (length_map Torch.normalize txt).
  apply (matmul_transpose_shape m d), normalize_rows_shape, Hv.
Qed.

(** X13: exchanging the two arguments of [sharded_cross_view_inner_product]
    transposes the similarity matrix. *)
Theorem sharded_inner_product_swap
        (n m d : nat) (vid txt : mat) (subspaces subspaces' : list string) :
  has_shape n d txt -> has_shape m d vid ->
  (1 <= d)%nat -> (1 <= m)%nat ->
  sharded_cross_view_inner_product vid txt subspaces
  = Torch.transpose (sharded_cross_view_inner_product txt vid subspaces').
Proof.
  intros Ht Hv Hd Hm.
  destruct d as [|d]; [lia|]. destruct m as [|m]; [lia|].
  destruct (sharded_inner_product_shape n (S m) d vid txt subspaces Ht Hv)
    as [L1 F1].
  pose proof (sharded_inner_product_shape (S m) n d txt vid subspaces' Hv Ht)
    as S2.
  apply (mat_ext n (S m)).
  - split; assumption.
  - apply transpose_shape, S2.
  - intros i j Hi Hj.
    rewrite (transpose_entry m n _ i j S2 Hi Hj).
    rewrite (sharded_entry n (S m) d vid txt subspaces i j Ht Hv Hi Hj).
    rewrite (sharded_entry (S m) n d txt vid subspaces' j i Hv Ht Hj Hi).
    apply dot_comm.
Qed.

Lemma sharded_inner_product_swap_witness :
  has_shape 1 2 [[3; 4]] /\ has_shape 2 2 [[1; 0]; [0; 1]] /\
  sharded_cross_view_inner_product [[1; 0]; [0; 1]] [[3; 4]] []
  = Torch.transpose
      (sharded_cross_view_inner_product [[3; 4]] [[1; 0]; [0; 1]] []).
Proof.
  assert (Ht : has_shape 1 2 [[3; 4]])
    by (split; [reflexivity | repeat constructor]).
  assert (Hv : has_shape 2 2 [[1; 0]; [0; 1]])
    by (split; [reflexivity | repeat constructor]).
  split; [exact Ht|]. split; [exact Hv|].
  apply (sharded_inner_product_swap 1 2 2 _ _ [] [] Ht Hv); lia.
Defined.





(** ** model/MMTwins.py: the gating classes and [ReduceDim] *)

Lemma sigmoid_bounds (t : R) : 0 < Gating.sigmoid t < 1.
Proof.
  unfold Gating.sigmoid. pose proof (exp_pos (- t)) as He.
  split.
  - apply Rdiv_lt_0_compat; lra.
  - apply (Rmult_lt_reg_r (1 + exp (- t))); [lra|].
    unfold Rdiv. rewrite Rmult_assoc, Rinv_l by lra. lra.
Qed.

Lemma gated_entry_shrinks (a m : R) :
  Rabs (a * Gating.sigmoid m) <= Rabs a /\
  0 <= a * (a * Gating.sigmoid m) /\
  (a = 0 -> a * Gating.sigmoid m = 0).
Proof.
  pose proof (sigmoid_bounds m) as [H0 H1]. split; [|split].
  - rewrite Rabs_mult, (Rabs_right (Gating.sigmoid m)) by lra.
    pose proof (Rabs_pos a). nra.
  - rewrite <- Rmult_assoc. apply Rmult_le_pos; [nra | lra].
  - intros ->. lra.
Qed.

Lemma glu_rows (d : nat) (x g : mat) :
  Forall (fun r => length r = d) x -> Forall (fun r => length r = d) g ->
  length x = length g ->
  map (fun r => let h := Nat.div2 (length r) in
                Torch.map2 Rmult (firstn h r) (map Gating.sigmoid (skipn h r)))
      (Torch.map2 (@app R) x g)
  = Torch.map2 (Torch.map2 (fun a m => a * Gating.sigmoid m)) x g.
Proof.
  intros Hx. revert g. induction Hx as [|xr x Hxr Hx IH]; intros g Hg Hl.
  - destruct g; reflexivity.
  - destruct g as [|gr g]; [discriminate|].
    inversion Hg as [|? ? Hgr Hg']; subst.
    cbn [Torch.map2 map]. f_equal.
    + cbv zeta. rewrite length_app, Hgr.
      replace (length xr + length xr)%nat with (2 * length xr)%nat by lia.
      rewrite Nat.div2_double.
      rewrite firstn_app, Nat.sub_diag, firstn_all, firstn_O, app_nil_r.
      rewrite skipn_app, Nat.sub_diag, skipn_all, skipn_O. cbn [app].
      clear. revert gr. induction xr as [|a xr IHr]; intros [|m gr];
        try reflexivity.
      cbn [map Torch.map2]. f_equal. apply IHr.
    + apply IH; [exact Hg' | simpl in Hl; lia].
Qed.

Lemma gated_linear_unit_value (b d : nat) (x g : mat) :
  has_shape b d x -> has_shape b d g ->
  Gating.GatedLinearUnit_forward x g
  = Some (Torch.map2 (Torch.map2 (fun a m => a * Gating.sigmoid m)) x g).
Proof.
  intros [Lx Fx] [Lg Fg]. unfold Gating.GatedLinearUnit_forward, Gating.cat1.
  rewrite Lx, Lg, Nat.eqb_refl. unfold Gating.glu.
  assert (Ev : Nat.even (Torch.cols (Torch.map2 (@app R) x g)) = true).
  { destruct x as [|xr x]; [reflexivity|]. destruct g as [|gr g].
    - reflexivity.
    - inversion Fx; inversion Fg; subst. unfold Torch.cols.
      cbn [Torch.map2 hd]. rewrite length_app.
      replace (length xr + length gr)%nat with (2 * length xr)%nat by lia.
      apply Nat.even_spec. exists (length xr). reflexivity. }
  rewrite Ev. f_equal. apply (glu_rows d); [assumption | assumption | lia].
Qed.

Lemma map2_map2_entry (f : R -> R -> R) (b d : nat) (x g : mat) :
  has_shape b d x -> has_shape b d g ->
  has_shape b d (Torch.map2 (Torch.map2 f) x g) /\
  forall i j, (i < b)%nat -> (j < d)%nat ->
    entry (Torch.map2 (Torch.map2 f) x g) i j = f (entry x i j) (entry g i j).
Proof.
  intros [Lx Fx] [Lg Fg].
  rewrite (map2_indices (Torch.map2 f) [] [] x g) by lia.
  rewrite Forall_forall in Fx, Fg.
  assert (Hrow : forall i, (i < b)%nat ->
            Torch.map2 f (nth i x []) (nth i g [])
            = map (fun p => f (entry x i p) (entry g i p)) (seq 0 d)).
  { intros i Hi.
    assert (Hxi : length (nth i x []) = d) by (apply Fx, nth_In; lia).
    assert (Hgi : length (nth i g []) = d) by (apply Fg, nth_In; lia).
    rewrite (map2_indices f 0 0) by lia. rewrite Hxi. reflexivity. }
  rewrite Lx. split.
  - split.
    + rewrite length_map, length_seq. reflexivity.
    + apply Forall_map, Forall_forall. intros i Hi. apply in_seq in Hi.
      rewrite Hrow by lia. rewrite length_map, length_seq. reflexivity.
  - intros i j Hi Hj. unfold entry at 1.
    rewrite (nth_map_seq (fun p => Torch.map2 f (nth p x []) (nth p g []))
                         [] b i Hi).
    rewrite Hrow by exact Hi.
    apply (nth_map_seq (fun p => f (entry x i p) (entry g i p)) 0 d j Hj).
Qed.

(** X16: [GatedLinearUnit.forward] on [x] and [mask] of the same shape
    [[b, d]] returns the [[b, d]] tensor [x * sigmoid(mask)]; it raises when
    the batch sizes differ. *)
Theorem gated_linear_unit_forward_entries (b d : nat) (x mask : mat) :
  has_shape b d x -> has_shape b d mask ->
  (exists y,
     Gating.GatedLinearUnit_forward x mask = Some y /\
     has_shape b d y /\
     forall i j, (i < b)%nat -> (j < d)%nat ->
       entry y i j = entry x i j * Gating.sigmoid (entry mask i j)) /\
  forall mask' : mat,
    length mask' <> b -> Gating.GatedLinearUnit_forward x mask' = None.
Proof.
  intros Hx Hm. split.
  - rewrite (gated_linear_unit_value b d x mask Hx Hm).
    eexists. split; [reflexivity|].
    apply (map2_map2_entry (fun a m => a * Gating.sigmoid m)); assumption.
  - intros mask' Hl. unfold Gating.GatedLinearUnit_forward, Gating.cat1.
    rewrite (proj1 Hx).
    destruct (Nat.eqb b (length mask')) eqn:E; [|reflexivity].
    apply Nat.eqb_eq in E. congruence.
Qed.

Lemma gated_linear_unit_forward_entries_witness :
  has_shape 1 2 [[1; 2]] /\ has_shape 1 2 [[0; 0]] /\
  exists y, Gating.GatedLinearUnit_forward [[1; 2]] [[0; 0]] = Some y /\
            has_shape 1 2 y.
Proof.
  assert (Hx : has_shape 1 2 [[1; 2]])
    by (split; [reflexivity | repeat constructor]).
  assert (Hm : has_shape 1 2 [[0; 0]])
    by (split; [reflexivity | repeat constructor]).
  split; [exact Hx|]. split; [exact Hm|].
  destruct (proj1 (gated_linear_unit_forward_entries 1 2 _ _ Hx Hm))
    as (y & E & S & _).
  exists y. split; assumption.
Defined.

(** X17: [ContextGating.forward] can only shrink its input, whatever the
    weights of [fc] and whatever the batch norm does: on a [[b, d]] input
    that [fc] accepts and whose gate tensor is [[b, d]] it returns a
    [[b, d]] tensor with [y[i][j] = x[i][j] * sigmoid(x1[i][j])], so that
    [|y[i][j]| <= |x[i][j]|], no entry changes its sign, and an entry is
    zero where the input is. *)
Theorem context_gating_forward_shrinks
        (b d : nat) (m : Gating.ContextGating) (x : mat) :
  has_shape b d x -> Linear_accepts (Gating.cg_fc m) d ->
  has_shape b d (Gating.ContextGating_gate m x) ->
  exists y,
    Gating.ContextGating_forward m x = Some y /\
    has_shape b d y /\
    forall i j, (i < b)%nat -> (j < d)%nat ->
      entry y i j
      = entry x i j * Gating.sigmoid (entry (Gating.ContextGating_gate m x) i j) /\
      Rabs (entry y i j) <= Rabs (entry x i j) /\
      0 <= entry x i j * entry y i j /\
      (entry x i j = 0 -> entry y i j = 0).
Proof.
  intros Hx _ Hg.
  change (Gating.ContextGating_forward m x)
    with (Gating.GatedLinearUnit_forward x (Gating.ContextGating_gate m x)).
  rewrite (gated_linear_unit_value b d x _ Hx Hg).
  eexists. split; [reflexivity|].
  destruct (map2_map2_entry (fun a g => a * Gating.sigmoid g) b d x _ Hx Hg)
    as [Hs He].
  split; [exact Hs|]. intros i j Hi Hj. rewrite (He i j Hi Hj).
  split; [reflexivity|]. apply gated_entry_shrinks.
Qed.

Lemma context_gating_forward_shrinks_witness :
  let m := {| Gating.cg_fc := {| MMTwins.weight := [[1; 0]; [0; 1]];
                                 MMTwins.bias := None |};
              Gating.add_batch_norm := false;
              Gating.batch_norm := fun t => t |} in
  has_shape 1 2 [[1; -2]] /\ Linear_accepts (Gating.cg_fc m) 2 /\
  exists y, Gating.ContextGating_forward m [[1; -2]] = Some y /\
            has_shape 1 2 y.
Proof.
  intros m.
  assert (Hx : has_shape 1 2 [[1; -2]])
    by (split; [reflexivity | repeat constructor]).
  assert (Ha : Linear_accepts (Gating.cg_fc m) 2)
    by (split; [repeat constructor | exact I]).
  assert (Hg : has_shape 1 2 (Gating.ContextGating_gate m [[1; -2]]))
    by (split; [reflexivity | repeat constructor]).
  split; [exact Hx|]. split; [exact Ha|].
  destruct (context_gating_forward_shrinks 1 2 m _ Hx Ha Hg) as (y & E & S & _).
  exists y. split; assumption.
Defined.

(** X18: with [normalize=True], [GatedEmbeddingUnit.forward] returns the
    gated value of [fc(x)] with every row divided by the larger of its norm
    and [1e-12]; so does [MimicCEGatedEmbeddingUnit.forward], which always
    normalises, with the gated value of its input.  Stated for inputs the
    linear layers accept and rows of norm at most [1e18]. *)
Theorem gated_embedding_units_normalise
        (b d0 d : nat) (m : Gating.GatedEmbeddingUnit)
        (c : Gating.MimicCEGatedEmbeddingUnit) (x x' : mat) :
  let h := MMTwins.Linear_forward (Gating.geu_fc m) x in
  has_shape b d0 x -> Linear_accepts (Gating.geu_fc m) d0 ->
  has_shape b d h ->
  Linear_accepts (Gating.cg_fc (Gating.geu_cg m)) d ->
  has_shape b d (Gating.ContextGating_gate (Gating.geu_cg m) h) ->
  Gating.geu_normalize m = true ->
  has_shape b d x' ->
  Linear_accepts (Gating.cg_fc (Gating.mimic_cg c)) d ->
  has_shape b d (Gating.ContextGating_gate (Gating.mimic_cg c) x') ->
  (exists g y,
     Gating.ContextGating_forward (Gating.geu_cg m) h = Some g /\
     Gating.GatedEmbeddingUnit_forward m x = Some y /\
     has_shape b d y /\
     forall i, (i < b)%nat ->
       let gi := nth i g [] in
       Torch.norm2 gi <= norm_bound ->
       nth i y []
       = map (fun a => a / Rmax (Torch.norm2 gi) Torch.normalize_eps) gi) /\
  (exists g y,
     Gating.ContextGating_forward (Gating.mimic_cg c) x' = Some g /\
     Gating.MimicCEGatedEmbeddingUnit_forward c x' = Some y /\
     has_shape b d y /\
     forall i, (i < b)%nat ->
       let gi := nth i g [] in
       Torch.norm2 gi <= norm_bound ->
       nth i y []
       = map (fun a => a / Rmax (Torch.norm2 gi) Torch.normalize_eps) gi).
Proof.
  intros h _ _ Hh _ Hg Hn Hx' _ Hg'. split.
  - unfold Gating.GatedEmbeddingUnit_forward. fold h.
    change (Gating.ContextGating_forward (Gating.geu_cg m) h)
      with (Gating.GatedLinearUnit_forward
              h (Gating.ContextGating_gate (Gating.geu_cg m) h)).
    rewrite (gated_linear_unit_value b d h _ Hh Hg), Hn.
    destruct (map2_map2_entry (fun a g => a * Gating.sigmoid g) b d h _ Hh Hg)
      as [Hs _].
    eexists. eexists. split; [reflexivity|]. split; [reflexivity|].
    split; [apply normalize_rows_shape, Hs|].
    intros i Hi _. rewrite nth_normalize_rows. reflexivity.
  - unfold Gating.MimicCEGatedEmbeddingUnit_forward.
    change (Gating.ContextGating_forward (Gating.mimic_cg c) x')
      with (Gating.GatedLinearUnit_forward
              x' (Gating.ContextGating_gate (Gating.mimic_cg c) x')).
    rewrite (gated_linear_unit_value b d x' _ Hx' Hg').
    destruct (map2_map2_entry (fun a g => a * Gating.sigmoid g) b d x' _ Hx' Hg')
      as [Hs _].
    eexists. eexists. split; [reflexivity|]. split; [reflexivity|].
    split; [apply normalize_rows_shape, Hs|].
    intros i Hi _. rewrite nth_normalize_rows. reflexivity.
Qed.

Lemma gated_embedding_units_normalise_witness :
  let cg := {| Gating.cg_fc := {| MMTwins.weight := [[1; 0]; [0; 1]];
                                  MMTwins.bias := None |};
               Gating.add_batch_norm := false;
               Gating.batch_norm := fun t => t |} in
  let m := {| Gating.geu_fc := {| MMTwins.weight := [[1; 0]; [0; 1]];
                                  MMTwins.bias := None |};
              Gating.geu_cg := cg;
              Gating.geu_normalize := true |} in
  has_shape 1 2 [[3; 4]] /\ Linear_accepts (Gating.geu_fc m) 2 /\
  Linear_accepts (Gating.cg_fc cg) 2 /\
  exists y, Gating.GatedEmbeddingUnit_forward m [[3; 4]] = Some y /\
            has_shape 1 2 y.
Proof.
  intros cg m.
  assert (S1 : has_shape 1 2 (MMTwins.Linear_forward (Gating.geu_fc m) [[3; 4]]))
    by (split; [reflexivity | repeat constructor]).
  assert (S2 : has_shape 1 2
                 (Gating.ContextGating_gate
                    (Gating.geu_cg m)
                    (MMTwins.Linear_forward (Gating.geu_fc m) [[3; 4]])))
    by (split; [reflexivity | repeat constructor]).
  assert (S3 : has_shape 1 2 [[3; 4]])
    by (split; [reflexivity | repeat constructor]).
  assert (S4 : has_shape 1 2
                 (Gating.ContextGating_gate
                    (Gating.mimic_cg {| Gating.mimic_cg := cg |}) [[3; 4]]))
    by (split; [reflexivity | repeat constructor]).
  assert (A1 : Linear_accepts (Gating.geu_fc m) 2)
    by (split; [repeat constructor | exact I]).
  assert (A2 : Linear_accepts (Gating.cg_fc cg) 2)
    by (split; [repeat constructor | exact I]).
  split; [exact S3|]. split; [exact A1|]. split; [exact A2|].
  destruct (proj1 (gated_embedding_units_normalise
                     1 2 2 m {| Gating.mimic_cg := cg |} [[3; 4]] [[3; 4]]
                     S3 A1 S1 A2 S2 eq_refl S3 A2 S4))
    as (g & y & _ & E & S & _).
  exists y. split; assumption.
Defined.

Lemma map2_same_length {A B C} (f : A -> B -> C) (a : list A) (b : list B) :
  length b = length a -> length (Torch.map2 f a b) = length a.
Proof.
  revert b. induction a as [|x a IH]; intros [|y b] H; try discriminate;
    [reflexivity|]. cbn [Torch.map2 length]. f_equal. apply IH.
  injection H as H. exact H.
Qed.

Lemma Linear_vec_length (l : MMTwins.Linear) (d : nat) (v : list R) :
  Linear_accepts l d ->
  length (MMTwins.Linear_vec l v) = length (MMTwins.weight l).
Proof.
  intros [_ Hb]. unfold MMTwins.Linear_vec.
  destruct (MMTwins.bias l) as [bv|]; [|apply length_map].
  rewrite map2_same_length; rewrite length_map; [reflexivity | exact Hb].
Qed.

(** X19: [ReduceDim.forward] keeps the batch size and returns, for every
    sample, the output of [fc] divided by the larger of its norm and
    [1e-12].  Stated for a [[b, d]] input that [fc] accepts and outputs of
    [fc] of norm at most [1e18]. *)
Theorem reduce_dim_forward_rows (b d : nat) (m : MMTwins.ReduceDim) (x : mat) :
  has_shape b d x -> Linear_accepts (MMTwins.fc m) d ->
  length (MMTwins.ReduceDim_forward m x) = b /\
  forall i, (i < b)%nat ->
    let h := MMTwins.Linear_vec (MMTwins.fc m) (nth i x []) in
    let y := nth i (MMTwins.ReduceDim_forward m x) [] in
    Torch.norm2 h <= norm_bound ->
    length y = length (MMTwins.weight (MMTwins.fc m)) /\
    y = map (fun a => a / Rmax (Torch.norm2 h) Torch.normalize_eps) h.
Proof.
  intros Hx Ha. split.
  - unfold MMTwins.ReduceDim_forward, MMTwins.Linear_forward.
    rewrite !length_map. exact (proj1 Hx).
  - intros i Hi h y _. subst y.
    unfold MMTwins.ReduceDim_forward, MMTwins.Linear_forward.
    rewrite map_map.
    rewrite (nth_indep _ [] (Torch.normalize
                               (MMTwins.Linear_vec (MMTwins.fc m) [])))
      by (rewrite length_map, (proj1 Hx); exact Hi).
    rewrite (map_nth (fun r => Torch.normalize
                                 (MMTwins.Linear_vec (MMTwins.fc m) r))).
    fold h. split; [|reflexivity].
    rewrite normalize_length. unfold h. apply (Linear_vec_length _ d), Ha.
Qed.

Lemma reduce_dim_forward_rows_witness :
  let m := {| MMTwins.fc := {| MMTwins.weight := [[1; 0]; [0; 1]];
                               MMTwins.bias := None |} |} in
  has_shape 1 2 [[3; 4]] /\ Linear_accepts (MMTwins.fc m) 2 /\
  length (MMTwins.ReduceDim_forward m [[3; 4]]) = 1%nat.
Proof.
  intros m.
  assert (Hx : has_shape 1 2 [[3; 4]])
    by (split; [reflexivity | repeat constructor]).
  assert (Ha : Linear_accepts (MMTwins.fc m) 2)
    by (split; [repeat constructor | exact I]).
  split; [exact Hx|]. split; [exact Ha|].
  exact (proj1 (reduce_dim_forward_rows 1 2 m [[3; 4]] Hx Ha)).
Defined.

(** ** model/MMTwins.py: the modality weights *)

Section ModalityWeights.
Import Torch TorchExt Py MMTwins.
Local Open Scope py_scope.





Variables (s : self) (embds : dict mat) (b : nat).


Hypothesis Hcomplete : complete (modalities s) embds.
Hypothesis Hbatch :
  forall md e, In md (modalities s) -> get embds md = Ok e -> length e = b.



End ModalityWeights.








(** ** model/MMTwins.py: the configurations [forward] cannot run *)

Section ForwardRaises.
Import Torch TorchExt Py MMTwins.
Local Open Scope py_scope.

Variables (s : self) (inp : inputs).

(** What has been computed when the steps before the heads return. *)
Lemma forward_locals_returned (l : locals) :
  forward_locals s inp = Ok l ->
  exists p v w,
    forward_prepare s inp = Ok p /\
    forward_encode_video s (length (token_ids inp)) p inp = Ok v /\
    forward_weights s (length (token_ids inp))
                    (length (hd [] (token_ids inp)))
                    (length (modalities s)) (ind p)
                    (option_map fst (forward_text s (token_ids inp)))
                    (option_map vid_embd v)
                    match v with Some vo => experts vo | None => [] end
    = Ok w /\
    l_vid_avg l = option_map vid_avg v /\
    l_text_avg l = option_map snd (forward_text s (token_ids inp)).
Proof.
  unfold forward_locals.
  destruct (forward_prepare s inp) as [p|e] eqn:Ep; [|discriminate]. py_step.
  destruct (forward_encode_video s (length (token_ids inp)) p inp) as [v|e]
    eqn:Ev; [|discriminate].
  py_step.
  match goal with
  | |- context [forward_weights s ?a1 ?a2 ?a3 ?a4 ?a5 ?a6 ?a7] =>
      destruct (forward_weights s a1 a2 a3 a4 a5 a6 a7) as [w|err] eqn:Ew;
        [|discriminate]
  end.
  intros H. injection H as <-.
  exists p, v, w. repeat split; try reflexivity; assumption.
Qed.

Lemma forward_returned (d : output) :
  forward s inp = Ok d ->
  exists l h, forward_locals s inp = Ok l /\ forward_heads s l = Ok h.
Proof.
  unfold forward.
  destruct (forward_locals s inp) as [l|e]; [|discriminate]. py_step.
  destruct (forward_heads s l) as [h|e] eqn:Eh; [|discriminate].
  intros _. exists l, h. split; [reflexivity | exact Eh].
Qed.

Lemma not_returned_raises {A} (r : result A) :
  (forall a, r = Ok a -> False) -> exists e, r = Err e.
Proof.
  intros H. destruct r as [a|e]; [destruct (H a eq_refl) | exists e; reflexivity].
Qed.

Lemma forward_heads_unbound (l : locals) :
  l_vid_avg l = None \/ l_text_avg l = None ->
  forward_heads s l = Err UnboundLocalError.
Proof.
  unfold forward_heads. intros [E|E]; rewrite E.
  - reflexivity.
  - destruct (l_vid_avg l); reflexivity.
Qed.

Lemma encoders_missing (l : locals) :
  vid_cont s <> "bert"%string \/
  substring 0 4 (txt_agg s) <> "bert"%string ->
  forward_locals s inp = Ok l ->
  l_vid_avg l = None \/ l_text_avg l = None.
Proof.
  intros Hc Hl.
  destruct (forward_locals_returned l Hl) as (p & v & w & _ & Ev & _ & Ea & Et).
  destruct Hc as [Hc|Hc].
  - left. rewrite Ea. unfold forward_encode_video in Ev.
    apply String.eqb_neq in Hc. rewrite Hc in Ev.
    injection Ev as <-. reflexivity.
  - right. rewrite Et. unfold forward_text.
    apply String.eqb_neq in Hc. rewrite Hc. reflexivity.
Qed.

(** The weighting step returns only in the supported modes, and in the
    mode ['emb'] only with the mixture-of-experts layers. *)
Lemma forward_weights_returned (b c m : nat) (ind : dict vec)
      (text vid_embd : option mat) (experts : dict mat) (w : mat * weights) :
  forward_weights s b c m ind text vid_embd experts = Ok w ->
  str_in (vid_wgh s) ["nrm"; "emb"; "none"]%string = true /\
  str_in (txt_wgh s) ["emb"; "none"]%string = true /\
  (vid_wgh s = "emb"%string \/ txt_wgh s = "emb"%string ->
   moe_vid_dropout s <> None /\ moe_fc_vid s <> None) /\
  (vid_wgh s = "nrm"%string -> modalities s <> []).
Proof.
  unfold forward_weights, str_in. cbn [existsb].
  unfold compute_weights_from_emb, compute_weights_from_norm.
  intros H.
  assert (Hv : (String.eqb (vid_wgh s) "nrm" = true /\ modalities s <> []) \/
               (String.eqb (vid_wgh s) "nrm" = false /\
                String.eqb (vid_wgh s) "emb" = true /\
                moe_vid_dropout s <> None /\ moe_fc_vid s <> None) \/
               (String.eqb (vid_wgh s) "nrm" = false /\
                String.eqb (vid_wgh s) "emb" = false /\
                String.eqb (vid_wgh s) "none" = true)).
  { destruct (String.eqb (vid_wgh s) "nrm").
    - left. split; [reflexivity|]. intros Em. rewrite Em in H. discriminate.
    - right. destruct (String.eqb (vid_wgh s) "emb").
      + left. repeat split; try reflexivity.
        * intros Em. rewrite Em in H. destruct vid_embd; discriminate.
        * intros Em. rewrite Em in H.
          destruct vid_embd, (moe_vid_dropout s), (modalities s);
            discriminate.
      + right. destruct (String.eqb (vid_wgh s) "none"); [auto|discriminate]. }
  assert (Ht : (String.eqb (txt_wgh s) "emb" = true /\
                moe_vid_dropout s <> None /\ moe_fc_vid s <> None) \/
               (String.eqb (txt_wgh s) "emb" = false /\
                String.eqb (txt_wgh s) "none" = true)).
  { revert H.
    match goal with
    | |- bind ?c1 _ = _ -> _ => destruct c1 as [vw|e]; [|discriminate]
    end.
    py_step.
    match goal with
    | |- match ?c2 with Ok _ => _ | Err _ => _ end = _ -> _ =>
        destruct c2 as [vw2|e]; [|discriminate]
    end.
    destruct (String.eqb (txt_wgh s) "emb").
    - intros H. left. split; [reflexivity|]. split.
      + intros Em. rewrite Em in H. destruct text; discriminate.
      + intros Em. rewrite Em in H.
        destruct text, (moe_vid_dropout s), (modalities s); discriminate.
    - intros H. right. split; [reflexivity|].
      destruct (String.eqb (txt_wgh s) "none"); [reflexivity | discriminate]. }
  split; [|split; [|split]].
  - destruct Hv as [[-> _]|[(-> & -> & _)|(-> & -> & ->)]]; reflexivity.
  - destruct Ht as [[-> _]|[-> ->]]; reflexivity.
  - intros [E|E].
    + destruct Hv as [[Hn _]|[(_ & _ & Hm)|(_ & He & _)]];
        rewrite E in *; try discriminate. exact Hm.
    + destruct Ht as [[_ Hm]|[He _]]; rewrite E in *; try discriminate.
      exact Hm.
  - intros E. destruct Hv as [[_ Hm]|[(Hn & _)|(Hn & _)]];
      rewrite E in *; try discriminate. exact Hm.
Qed.

(** Without the aggregated tokens nothing is entered into
    [modality_to_tok_map]. *)
Lemma tok_map_stays_empty (b : nat) (p : prepared) (st : vid_lists) :
  str_in (vid_inp s) ["agg"; "both"; "all"]%string = false ->
  video_token_lists s b p inp = Ok st ->
  modality_to_tok_map st = [].
Proof.
  intros Hagg. unfold video_token_lists.
  match goal with
  | |- bind ?c _ = _ -> _ => destruct c as [met|e]; [|discriminate]
  end.
  py_step.
  match goal with
  | |- match ?c with Ok _ => _ | Err _ => _ end = _ -> _ =>
      destruct c as [eft|e]; [|discriminate]
  end.
  intros H.
  refine (foldM_returned (fun _ st => modality_to_tok_map st = [])
                         _ (modalities s) [] (cls_lists s b) st eq_refl _ H).
  intros pre md st0 st1 Hst0. unfold add_modality. rewrite Hagg.
  destruct (get (expert_dims s) md) as [ed|e]; [|discriminate]. py_step.
  destruct (str_in (vid_inp s) ["temp"; "both"; "all"]%string).
  - destruct (local met) as [d|e]; [|discriminate].
    destruct (get d md) as [n|e]; [|discriminate].
    intros Hf.
    refine (foldM_returned (fun _ st => modality_to_tok_map st = [])
                           _ (seq 0 n) [] _ st1 Hst0 _ Hf).
    intros pre' f st2 st3 Hst2. unfold add_frame_token.
    match goal with
    | |- bind ?c _ = _ -> _ => destruct c as [pos|e]; [|discriminate]
    end.
    py_step.
    destruct (get (experts_feats p) md) as [x|e]; [|discriminate].
    destruct (get (features_ind inp) md) as [fi|e]; [|discriminate].
    cbv beta iota zeta.
    destruct (column_at 0 f fi) as [mask|e]; [|discriminate].
    intros E. injection E as <-. exact Hst2.
  - intros E. injection E as <-. exact Hst0.
Qed.

Lemma forward_video_needs_tok_map (b : nat) (st : vid_lists) :
  modalities s <> [] -> modality_to_tok_map st = [] ->
  forward_video s b st = Err KeyError.
Proof.
  intros Hne Hm. unfold forward_video. rewrite Hm.
  destruct (modalities s) as [|md mods]; [contradiction|]. reflexivity.
Qed.

End ForwardRaises.

(** X22: [forward] needs both BERT encoders: when [vid_cont] is not
    ['bert'] or [txt_agg] does not start with ['bert'], it raises on every
    input; if the steps before the representations return, the exception is
    the [UnboundLocalError] of reading [vid_avg] or [text_avg]. *)
Theorem forward_needs_bert_encoders (s : MMTwins.self) (inp : MMTwins.inputs) :
  MMTwins.vid_cont s <> "bert"%string \/
  substring 0 4 (MMTwins.txt_agg s) <> "bert"%string ->
  (exists e, MMTwins.forward s inp = Py.Err e) /\
  forall l, MMTwins.forward_locals s inp = Py.Ok l ->
            MMTwins.forward_heads s l = Py.Err Py.UnboundLocalError.
Proof.
  intros Hc.
  assert (Hh : forall l, MMTwins.forward_locals s inp = Py.Ok l ->
                         MMTwins.forward_heads s l = Py.Err Py.UnboundLocalError).
  { intros l Hl. apply forward_heads_unbound.
    apply (encoders_missing s inp l Hc Hl). }
  split; [|exact Hh].
  apply not_returned_raises. intros d Hd.
  destruct (forward_returned s inp d Hd) as (l & h & El & Eh).
  rewrite (Hh l El) in Eh. discriminate.
Qed.

Lemma forward_needs_bert_encoders_witness :
  let s := {| MMTwins.expert_dims := MMTwins.expert_dims MMTwins.demo_self;
              MMTwins.keep_missing_modalities := true;
              MMTwins.same_dim := 2;
              MMTwins.txt_agg := "bertftn";
              MMTwins.txt_wgh := "none";
              MMTwins.vid_inp := "both";
              MMTwins.vid_cont := "coll";
              MMTwins.vid_wgh := "none";
              MMTwins.pos_enc := "ordr";
              MMTwins.out_tok := "mxp";
              MMTwins.max_position_embeddings := 32%Z;
              MMTwins.video_dim_reduce :=
                MMTwins.video_dim_reduce MMTwins.demo_self;
              MMTwins.vid_bert := MMTwins.vid_bert MMTwins.demo_self;
              MMTwins.txt_bert := MMTwins.txt_bert MMTwins.demo_self;
              MMTwins.txt_avg2rep := MMTwins.txt_avg2rep MMTwins.demo_self;
              MMTwins.vid_avg2rep := MMTwins.vid_avg2rep MMTwins.demo_self;
              MMTwins.txt_projector := [];
              MMTwins.vid_projector := [];
              MMTwins.bn := fun x => x;
              MMTwins.moe_vid_dropout := None;
              MMTwins.moe_fc_vid := None |} in
  exists e, MMTwins.forward s MMTwins.demo_inputs = Py.Err e.
Proof.
  intros s.
  refine (proj1 (forward_needs_bert_encoders s MMTwins.demo_inputs _)).
  left. discriminate.
Defined.

(** X23: the weighting modes [forward] cannot run.  It raises on every
    input when [vid_wgh] is none of ['nrm'], ['emb'], ['none'], when
    [txt_wgh] is none of ['emb'], ['none'], when one of them is ['emb'] and
    the model has no [moe_vid_dropout] or no [moe_fc_vid] (which [__init__]
    never creates), and when [vid_wgh] is ['nrm'] and there is no
    modality. *)
Theorem forward_weighting_modes_that_raise
        (s : MMTwins.self) (inp : MMTwins.inputs) :
  Py.str_in (MMTwins.vid_wgh s) ["nrm"; "emb"; "none"]%string = false \/
  Py.str_in (MMTwins.txt_wgh s) ["emb"; "none"]%string = false \/
  ((MMTwins.vid_wgh s = "emb"%string \/ MMTwins.txt_wgh s = "emb"%string) /\
   (MMTwins.moe_vid_dropout s = None \/ MMTwins.moe_fc_vid s = None)) \/
  (MMTwins.vid_wgh s = "nrm"%string /\ MMTwins.modalities s = []) ->
  exists e, MMTwins.forward s inp = Py.Err e.
Proof.
  intros Hc. apply not_returned_raises. intros d Hd.
  destruct (forward_returned s inp d Hd) as (l & h & El & _).
  destruct (forward_locals_returned s inp l El) as (p & v & w & _ & _ & Ew & _).
  destruct (forward_weights_returned s _ _ _ _ _ _ _ _ Ew)
    as (Hv & Ht & Hm & Hn).
  destruct Hc as [Hc|[Hc|[[He Hc]|[He Hc]]]].
  - rewrite Hc in Hv. discriminate.
  - rewrite Hc in Ht. discriminate.
  - destruct (Hm He) as [H1 H2]. destruct Hc; contradiction.
  - apply (Hn He Hc).
Qed.

Lemma forward_weighting_modes_that_raise_witness :
  exists e,
    MMTwins.forward (MMTwins.with_weighting MMTwins.demo_self "emb" "none")
                    MMTwins.demo_inputs = Py.Err e.
Proof.
  apply forward_weighting_modes_that_raise.
  right. right. left. split; [left | left]; reflexivity.
Defined.

(** X24: with a BERT video encoder and at least one modality, [forward]
    needs the aggregated tokens: when [vid_inp] is none of ['agg'], ['both'],
    ['all'] (as with ['temp']), nothing is entered into [modality_to_tok_map],
    the lookup [modality_to_tok_map[modality]] after the encoder raises
    [KeyError], and [forward] raises on every input. *)
Theorem forward_needs_aggregated_tokens
        (s : MMTwins.self) (inp : MMTwins.inputs) :
  MMTwins.vid_cont s = "bert"%string ->
  MMTwins.modalities s <> [] ->
  Py.str_in (MMTwins.vid_inp s) ["agg"; "both"; "all"]%string = false ->
  (exists e, MMTwins.forward s inp = Py.Err e) /\
  forall b p st,
    MMTwins.video_token_lists s b p inp = Py.Ok st ->
    MMTwins.modality_to_tok_map st = [] /\
    MMTwins.forward_video s b st = Py.Err Py.KeyError.
Proof.
  intros Hb Hne Hagg.
  assert (Hk : forall b p st,
             MMTwins.video_token_lists s b p inp = Py.Ok st ->
             MMTwins.modality_to_tok_map st = [] /\
             MMTwins.forward_video s b st = Py.Err Py.KeyError).
  { intros b p st Hst.
    pose proof (tok_map_stays_empty s inp b p st Hagg Hst) as Hm.
    split; [exact Hm|]. apply forward_video_needs_tok_map; assumption. }
  split; [|exact Hk].
  apply not_returned_raises. intros d Hd.
  destruct (forward_returned s inp d Hd) as (l & h & El & _).
  destruct (forward_locals_returned s inp l El) as (p & v & w & _ & Ev & _).
  unfold MMTwins.forward_encode_video in Ev. rewrite Hb in Ev.
  cbn [String.eqb Ascii.eqb Bool.eqb] in Ev.
  destruct (MMTwins.video_token_lists s (length (MMTwins.token_ids inp)) p inp)
    as [st|e] eqn:Est; [|discriminate].
  destruct (Hk _ _ _ Est) as [_ Hf].
  cbv beta iota zeta delta [Py.bind Py.ret] in Ev. rewrite Hf in Ev.
  discriminate.
Qed.

Lemma forward_needs_aggregated_tokens_witness :
  let s := {| MMTwins.expert_dims := MMTwins.expert_dims MMTwins.demo_self;
              MMTwins.keep_missing_modalities := true;
              MMTwins.same_dim := 2;
              MMTwins.txt_agg := "bertftn";
              MMTwins.txt_wgh := "none";
              MMTwins.vid_inp := "temp";
              MMTwins.vid_cont := "bert";
              MMTwins.vid_wgh := "none";
              MMTwins.pos_enc := "ordr";
              MMTwins.out_tok := "mxp";
              MMTwins.max_position_embeddings := 32%Z;
              MMTwins.video_dim_reduce :=
                MMTwins.video_dim_reduce MMTwins.demo_self;
              MMTwins.vid_bert := MMTwins.vid_bert MMTwins.demo_self;
              MMTwins.txt_bert := MMTwins.txt_bert MMTwins.demo_self;
              MMTwins.txt_avg2rep := MMTwins.txt_avg2rep MMTwins.demo_self;
              MMTwins.vid_avg2rep := MMTwins.vid_avg2rep MMTwins.demo_self;
              MMTwins.txt_projector := [];
              MMTwins.vid_projector := [];
              MMTwins.bn := fun x => x;
              MMTwins.moe_vid_dropout := None;
              MMTwins.moe_fc_vid := None |} in
  exists e, MMTwins.forward s MMTwins.demo_inputs = Py.Err e.
Proof.
  intros s.
  refine (proj1 (forward_needs_aggregated_tokens s MMTwins.demo_inputs
                                                 eq_refl _ eq_refl)).
  discriminate.
Defined.

(** ** model/MMTwins.py: the token of each modality and the position ids *)

Section TokenMap.
Import Torch TorchExt Py MMTwins.
Local Open Scope py_scope.

Variables (s : self) (inp : inputs) (b : nat) (p : prepared).

Lemma tok_map_holds_frame (eft : dict (list (list Z))) (tt : Z) (md : string)
      (st st1 : vid_lists) (f : nat) :
  tok_map_holds b st ->
  add_frame_token s b (experts_feats p) eft (features_ind inp) tt md st f
  = Ok st1 ->
  tok_map_holds b st1 /\ modality_to_tok_map st1 = modality_to_tok_map st.
Proof.
  intros [Ht Hm]. unfold add_frame_token.
  match goal with
  | |- bind ?c _ = _ -> _ => destruct c as [pos|e]; [|discriminate]
  end.
  py_step.
  destruct (get (experts_feats p) md) as [x|e]; [|discriminate].
  destruct (get (features_ind inp) md) as [fi|e]; [|discriminate].
  cbv beta iota zeta.
  destruct (column_at 0 f fi) as [mask|e]; [|discriminate].
  intros E. injection E as <-. split; [|reflexivity].
  unfold tok_map_holds. cbn [tok_id input_ids_list modality_to_tok_map].
  rewrite length_app. split; [simpl; lia|].
  intros md' k Hk. destruct (Hm md' k Hk) as [H1 H2]. split; [exact H1|].
  rewrite nth_error_app1; [exact H2|]. apply nth_error_Some. congruence.
Qed.

Lemma tok_map_holds_frames (eft : dict (list (list Z))) (tt : Z) (md : string)
      (n : nat) (st st1 : vid_lists) :
  tok_map_holds b st ->
  foldM (add_frame_token s b (experts_feats p) eft (features_ind inp) tt md)
        (seq 0 n) st = Ok st1 ->
  tok_map_holds b st1 /\ modality_to_tok_map st1 = modality_to_tok_map st.
Proof.
  intros H0 Hf.
  refine (foldM_returned
            (fun _ st' => tok_map_holds b st' /\
                          modality_to_tok_map st' = modality_to_tok_map st)
            _ (seq 0 n) [] st st1 (conj H0 eq_refl) _ Hf).
  intros pre f st2 st3 [H2 E2] Hs.
  destruct (tok_map_holds_frame eft tt md st2 st3 f H2 Hs) as [H3 E3].
  split; [exact H3 | congruence].
Qed.

Lemma tok_map_holds_agg (tt : Z) (md : string) (st st1 : vid_lists) :
  tok_map_holds b st ->
  add_agg_token s b (ind p) (mnp_experts p) (maxp_experts p) tt md st = Ok st1 ->
  tok_map_holds b st1 /\
  has_key (modality_to_tok_map st1) md /\
  forall md', has_key (modality_to_tok_map st) md' ->
              has_key (modality_to_tok_map st1) md'.
Proof.
  intros [Ht Hm]. unfold add_agg_token.
  match goal with
  | |- bind ?c _ = _ -> _ => destruct c as [feat|e]; [|discriminate]
  end.
  py_step.
  destruct (get (ind p) md) as [i|e]; [|discriminate].
  intros E. injection E as <-.
  cbn [tok_id input_ids_list modality_to_tok_map].
  split; [|split].
  - unfold tok_map_holds. cbn [tok_id input_ids_list modality_to_tok_map].
    rewrite length_app. split; [simpl; lia|].
    intros md' k Hk. destruct (string_dec md' md) as [->|Hne].
    + rewrite get_set_same in Hk. injection Hk as <-. split; [lia|].
      rewrite Ht, nth_error_app2 by lia. rewrite Nat.sub_diag. reflexivity.
    + rewrite get_set_other in Hk by exact Hne.
      destruct (Hm md' k Hk) as [H1 H2]. split; [exact H1|].
      rewrite nth_error_app1; [exact H2|]. apply nth_error_Some. congruence.
  - apply has_key_set_same.
  - intros md'. apply has_key_set.
Qed.

Lemma tok_map_holds_modality (met : option (dict nat))
      (eft : dict (list (list Z))) (md : string) (st st1 : vid_lists) :
  tok_map_holds b st ->
  add_modality s b (ind p) (mnp_experts p) (maxp_experts p) met
               (experts_feats p) eft (features_ind inp) st md = Ok st1 ->
  tok_map_holds b st1 /\
  (forall md', has_key (modality_to_tok_map st) md' ->
               has_key (modality_to_tok_map st1) md') /\
  (str_in (vid_inp s) ["agg"; "both"; "all"]%string = true ->
   has_key (modality_to_tok_map st1) md).
Proof.
  intros H0. unfold add_modality.
  destruct (get (expert_dims s) md) as [ed|e]; [|discriminate]. py_step.
  assert (Hmid : forall st',
             tok_map_holds b st' ->
             (forall md', has_key (modality_to_tok_map st) md' ->
                          has_key (modality_to_tok_map st') md') ->
             (str_in (vid_inp s) ["agg"; "both"; "all"]%string = true ->
              has_key (modality_to_tok_map st') md) ->
             (if str_in (vid_inp s) ["temp"; "both"; "all"]%string
              then met0 <- local met ;;
                   n <- get met0 md ;;
                   foldM (add_frame_token s b (experts_feats p) eft
                                          (features_ind inp) (idx ed) md)
                         (seq 0 n) st'
              else ret st') = Ok st1 ->
             tok_map_holds b st1 /\
             (forall md', has_key (modality_to_tok_map st) md' ->
                          has_key (modality_to_tok_map st1) md') /\
             (str_in (vid_inp s) ["agg"; "both"; "all"]%string = true ->
              has_key (modality_to_tok_map st1) md)).
  { intros st' H1 K1 A1.
    destruct (str_in (vid_inp s) ["temp"; "both"; "all"]%string).
    - destruct (local met) as [d|e]; [|discriminate]. py_step.
      destruct (get d md) as [n|e]; [|discriminate].
      intros Hf.
      destruct (tok_map_holds_frames eft (idx ed) md n st' st1 H1 Hf)
        as [H2 E2].
      rewrite E2. split; [exact H2|]. split; assumption.
    - intros E. injection E as <-. split; [exact H1|]. split; assumption. }
  cbv beta iota zeta delta [bind ret] in Hmid.
  destruct (str_in (vid_inp s) ["agg"; "both"; "all"]%string).
  - destruct (add_agg_token s b (ind p) (mnp_experts p) (maxp_experts p)
                            (idx ed) md st) as [st'|e] eqn:Ea; [|discriminate].
    destruct (tok_map_holds_agg (idx ed) md st st' H0 Ea) as (H1 & K1 & P1).
    apply Hmid; [exact H1 | exact P1 | intros _; exact K1].
  - apply Hmid; [exact H0 | auto | discriminate].
Qed.

Lemma tok_map_holds_lists (st : vid_lists) :
  video_token_lists s b p inp = Ok st ->
  tok_map_holds b st /\
  (str_in (vid_inp s) ["agg"; "both"; "all"]%string = true ->
   complete (modalities s) (modality_to_tok_map st)).
Proof.
  unfold video_token_lists.
  match goal with
  | |- bind ?c _ = _ -> _ => destruct c as [met|e]; [|discriminate]
  end.
  py_step.
  match goal with
  | |- match ?c with Ok _ => _ | Err _ => _ end = _ -> _ =>
      destruct c as [eft|e]; [|discriminate]
  end.
  intros H.
  refine (foldM_returned
            (fun pre st' =>
               tok_map_holds b st' /\
               (str_in (vid_inp s) ["agg"; "both"; "all"]%string = true ->
                complete pre (modality_to_tok_map st')))
            _ (modalities s) [] (cls_lists s b) st _ _ H).
  - split.
    + split; [reflexivity|]. intros md k Hk. discriminate.
    + intros _. constructor.
  - intros pre md st0 st1 [H0 C0] Hs.
    destruct (tok_map_holds_modality met eft md st0 st1 H0 Hs)
      as (H1 & K1 & A1).
    split; [exact H1|]. intros Hagg.
    apply Forall_app. split.
    + specialize (C0 Hagg). unfold complete in C0.
      rewrite Forall_forall in *. intros md' Hin. apply K1, C0, Hin.
    + constructor; [apply A1, Hagg | constructor].
Qed.

End TokenMap.

(** X25: with [vid_inp] ['both'] or ['all'], on a non-empty batch whose
    tensors fit together for every modality, the token lists are built, and
    [modality_to_tok_map] sends every modality to a position [k >= 1] of
    the sequence that holds an aggregated token (input id 2): the
    per-modality output is never read at [[CLS]] nor at a temporal token,
    and the lookups of the modalities' tokens after the encoder find a
    key. *)
Theorem modality_tokens_are_aggregated_tokens
        (s : MMTwins.self) (inp : MMTwins.inputs) :
  MMTwins.vid_inp s = "both"%string \/ MMTwins.vid_inp s = "all"%string ->
  let b := length (MMTwins.token_ids inp) in
  (1 <= b)%nat ->
  (forall md, In md (MMTwins.modalities s) -> well_formed_modality s inp b md) ->
  exists p st,
    MMTwins.forward_prepare s inp = Py.Ok p /\
    MMTwins.video_token_lists s b p inp = Py.Ok st /\
    S (MMTwins.tok_id st) = length (MMTwins.input_ids_list st) /\
    forall md, In md (MMTwins.modalities s) ->
      exists k,
        Py.get (MMTwins.modality_to_tok_map st) md = Py.Ok k /\
        (1 <= k)%nat /\
        nth_error (MMTwins.input_ids_list st) k = Some (TorchExt.full b 2%Z).
Proof.
  intros Hv b Hb Hw.
  destruct (video_lists_built s inp b Hb Hw Hv) as (p & st & Ep & Est & _).
  assert (B1 : Py.str_in (MMTwins.vid_inp s) ["agg"; "both"; "all"]%string = true)
    by (destruct Hv as [-> | ->]; reflexivity).
  destruct (tok_map_holds_lists s inp b p st Est) as [[Htok Hmap] Hc].
  specialize (Hc B1).
  exists p, st. split; [exact Ep|]. split; [exact Est|].
  split; [exact Htok|].
  intros md Hin. destruct (complete_in _ _ _ Hc Hin) as [k Ek].
  exists k. split; [exact Ek|]. apply (Hmap md k Ek).
Qed.

Lemma modality_tokens_are_aggregated_tokens_witness :
  exists p st k,
    MMTwins.forward_prepare MMTwins.demo_self MMTwins.demo_inputs = Py.Ok p /\
    MMTwins.video_token_lists MMTwins.demo_self 1 p MMTwins.demo_inputs
    = Py.Ok st /\
    Py.get (MMTwins.modality_to_tok_map st) "rgb" = Py.Ok k /\
    nth_error (MMTwins.input_ids_list st) k = Some [2%Z].
Proof.
  destruct (modality_tokens_are_aggregated_tokens MMTwins.demo_self
                                                  MMTwins.demo_inputs)
    as (p & st & Ep & Est & _ & Hk).
  - left. reflexivity.
  - apply le_n.
  - exact demo_well_formed.
  - destruct (Hk "rgb"%string (or_introl eq_refl)) as (k & Ek & _ & Hn).
    exists p, st, k. split; [exact Ep|]. split; [exact Est|].
    split; [exact Ek | exact Hn].
Defined.

Section Positions.
Import Torch TorchExt Py MMTwins.
Local Open Scope py_scope.

Variables (s : self) (inp : inputs) (b : nat) (p : prepared).
Hypothesis Hnt : String.eqb (pos_enc s) "tint" = false.
Hypothesis Hagg : str_in (vid_inp s) ["agg"; "both"; "all"]%string = true.
Hypothesis Htemp : str_in (vid_inp s) ["temp"; "both"; "all"]%string = true.

Lemma frame_positions_app (pe : string) (l l' : list nat) :
  frame_positions pe (l ++ l')
  = frame_positions pe l ++ frame_positions pe l'.
Proof.
  unfold frame_positions.
  destruct (String.eqb pe "ordr"); [apply map_app|].
  destruct (String.eqb pe "type"); [apply map_app | reflexivity].
Qed.

Lemma positions_frame (eft : dict (list (list Z))) (tt : Z) (md : string)
      (st st1 : vid_lists) (f : nat) :
  add_frame_token s b (experts_feats p) eft (features_ind inp) tt md st f
  = Ok st1 ->
  position_ids_list st1
  = position_ids_list st ++ map (full b) (frame_positions (pos_enc s) [f]).
Proof.
  unfold add_frame_token, frame_positions. rewrite Hnt.
  destruct (String.eqb (pos_enc s) "ordr");
    [|destruct (String.eqb (pos_enc s) "type")];
    py_step;
    (destruct (get (experts_feats p) md) as [x|e]; [|discriminate]);
    (destruct (get (features_ind inp) md) as [fi|e]; [|discriminate]);
    cbv beta iota zeta;
    (destruct (column_at 0 f fi) as [mask|e]; [|discriminate]);
    intros E; injection E as <-;
    cbn [position_ids_list append_opt map]; rewrite ?app_nil_r; reflexivity.
Qed.

Lemma positions_frames (eft : dict (list (list Z))) (tt : Z) (md : string)
      (n : nat) (st st1 : vid_lists) :
  foldM (add_frame_token s b (experts_feats p) eft (features_ind inp) tt md)
        (seq 0 n) st = Ok st1 ->
  position_ids_list st1
  = position_ids_list st
    ++ map (full b) (frame_positions (pos_enc s) (seq 0 n)).
Proof.
  intros Hf.
  refine (foldM_returned
            (fun pre st' =>
               position_ids_list st'
               = position_ids_list st
                 ++ map (full b) (frame_positions (pos_enc s) pre))
            _ (seq 0 n) [] st st1 _ _ Hf).
  - unfold frame_positions.
    destruct (String.eqb (pos_enc s) "ordr"); [symmetry; apply app_nil_r|].
    destruct (String.eqb (pos_enc s) "type"); symmetry; apply app_nil_r.
  - intros pre f st2 st3 H2 Hs.
    rewrite (positions_frame eft tt md st2 st3 f Hs), H2.
    rewrite frame_positions_app, map_app, app_assoc. reflexivity.
Qed.

Lemma positions_modality (d : dict nat) (eft : dict (list (list Z)))
      (md : string) (st st1 : vid_lists) :
  add_modality s b (ind p) (mnp_experts p) (maxp_experts p) (Some d)
               (experts_feats p) eft (features_ind inp) st md = Ok st1 ->
  exists n,
    get d md = Ok n /\
    position_ids_list st1
    = position_ids_list st
      ++ map (full b) (0%Z :: frame_positions (pos_enc s) (seq 0 n)).
Proof.
  unfold add_modality. rewrite Hagg, Htemp.
  destruct (get (expert_dims s) md) as [ed|e]; [|discriminate]. py_step.
  destruct (add_agg_token s b (ind p) (mnp_experts p) (maxp_experts p)
                          (idx ed) md st) as [st'|e] eqn:Ea; [|discriminate].
  cbn [local]. destruct (get d md) as [n|e]; [|discriminate].
  intros Hf. exists n. split; [reflexivity|].
  rewrite (positions_frames eft (idx ed) md n st' st1 Hf).
  assert (E' : position_ids_list st' = position_ids_list st ++ [full b 0%Z]).
  { revert Ea. unfold add_agg_token.
    match goal with
    | |- bind ?c _ = _ -> _ => destruct c as [feat|e]; [|discriminate]
    end.
    py_step.
    destruct (get (ind p) md) as [i|e]; [|discriminate].
    intros E. injection E as <-. reflexivity. }
  rewrite E'. cbn [map]. rewrite <- app_assoc. reflexivity.
Qed.

Lemma positions_lists (T : string -> nat) (st : vid_lists) :
  (forall md, In md (modalities s) ->
              exists x, get (experts_feats p) md = Ok x /\ size1 x = T md) ->
  video_token_lists s b p inp = Ok st ->
  position_ids_list st
  = map (full b) (video_positions (pos_enc s) T (modalities s)).
Proof.
  intros Hfeats.
  destruct (max_expert_tokens_loop s p T Hfeats) as (d & Em & Hm).
  unfold video_token_lists. rewrite Htemp, Hnt. py_run Em.
  intros H.
  refine (foldM_returned
            (fun pre st' =>
               (forall md, In md pre -> In md (modalities s)) ->
               position_ids_list st'
               = map (full b) (video_positions (pos_enc s) T pre))
            _ (modalities s) [] (cls_lists s b) st _ _ H (fun md Hin => Hin)).
  - intros _. reflexivity.
  - intros pre md st0 st1 H0 Hs Hin.
    destruct (positions_modality d [] md st0 st1 Hs) as (n & En & E1).
    assert (Hmd : In md (modalities s))
      by (apply Hin, in_or_app; right; left; reflexivity).
    rewrite (Hm md Hmd) in En. injection En as <-.
    rewrite E1, H0 by (intros md' Hin'; apply Hin, in_or_app; left; exact Hin').
    unfold video_positions. rewrite flat_map_app. cbn [flat_map].
    rewrite app_nil_r, <- map_app. reflexivity.
Qed.

End Positions.

Lemma video_positions_length (pe : string) (T : string -> nat)
      (mods : list string) :
  pe = "ordr"%string \/ pe = "type"%string ->
  length (video_positions pe T mods) = length (MMTwins.video_sequence T mods).
Proof.
  intros Hpe. unfold MMTwins.video_sequence, video_positions.
  cbn [length]. f_equal.
  induction mods as [|md mods IH]; [reflexivity|].
  cbn [flat_map]. rewrite !length_app, IH. f_equal. cbn [length]. f_equal.
  unfold frame_positions.
  destruct Hpe as [-> | ->]; cbn [String.eqb Ascii.eqb Bool.eqb];
    rewrite length_map, length_seq, repeat_length; reflexivity.
Qed.

(** X26: the position ids of the video sequence, for [vid_inp] ['both'] or
    ['all'] and a position encoding other than ['tint'], on a non-empty
    batch whose tensors fit together for every modality: [[CLS]] and every
    aggregated token get position 0; the temporal token of frame [f] gets
    [f + 1] with ['ordr'] and 1 with ['type']; with any other [pos_enc] the
    temporal tokens add no position at all, so that the list holds one entry
    per modality plus one. *)
Theorem video_position_ids_layout (s : MMTwins.self) (inp : MMTwins.inputs) :
  MMTwins.vid_inp s = "both"%string \/ MMTwins.vid_inp s = "all"%string ->
  MMTwins.pos_enc s <> "tint"%string ->
  let b := length (MMTwins.token_ids inp) in
  (1 <= b)%nat ->
  (forall md, In md (MMTwins.modalities s) -> well_formed_modality s inp b md) ->
  let T := MMTwins.n_frames inp in
  exists p st,
    MMTwins.forward_prepare s inp = Py.Ok p /\
    MMTwins.video_token_lists s b p inp = Py.Ok st /\
    MMTwins.position_ids_list st
    = map (TorchExt.full b)
          (0%Z :: flat_map
                    (fun md =>
                       0%Z :: frame_positions (MMTwins.pos_enc s) (seq 0 (T md)))
                    (MMTwins.modalities s)) /\
    (MMTwins.pos_enc s = "ordr"%string \/ MMTwins.pos_enc s = "type"%string ->
     length (MMTwins.position_ids_list st)
     = length (MMTwins.input_ids_list st)).
Proof.
  intros Hv Hnt b Hb Hw T.
  destruct (video_lists_built s inp b Hb Hw Hv)
    as (p & st & Ep & Est & (Hids & _) & Cfeats).
  assert (B1 : Py.str_in (MMTwins.vid_inp s) ["agg"; "both"; "all"]%string = true)
    by (destruct Hv as [-> | ->]; reflexivity).
  assert (B2 : Py.str_in (MMTwins.vid_inp s) ["temp"; "both"; "all"]%string = true)
    by (destruct Hv as [-> | ->]; reflexivity).
  apply String.eqb_neq in Hnt.
  pose proof (positions_lists s inp b p Hnt B1 B2 T st Cfeats Est) as Hpos.
  exists p, st. split; [exact Ep|]. split; [exact Est|].
  split; [exact Hpos|].
  intros Hpe. rewrite Hpos, Hids, !length_map.
  apply video_positions_length, Hpe.
Qed.

Lemma video_position_ids_layout_witness :
  exists p st,
    MMTwins.forward_prepare MMTwins.demo_self MMTwins.demo_inputs = Py.Ok p /\
    MMTwins.video_token_lists MMTwins.demo_self 1 p MMTwins.demo_inputs
    = Py.Ok st /\
    MMTwins.position_ids_list st = [[0]; [0]; [1]; [2]]%Z.
Proof.
  destruct (video_position_ids_layout MMTwins.demo_self MMTwins.demo_inputs)
    as (p & st & Ep & Est & Hpos & _).
  - left. reflexivity.
  - discriminate.
  - apply le_n.
  - exact demo_well_formed.
  - exists p, st. split; [exact Ep|]. split; [exact Est|]. exact Hpos.
Defined.

(** ** model/MMTwins.py: what the output of [forward] depends on *)

Section ForwardReads.
Import Torch TorchExt Py MMTwins.
Local Open Scope py_scope.

Lemma forward_locals_vid_projector (s : self) (vp : Sequential)
      (bn' : mat -> mat) (inp : inputs) :
  forward_locals (with_vid_projector s vp bn') inp = forward_locals s inp.
Proof. destruct s. reflexivity. Qed.

Lemma forward_return_reads (s : self) (vp : Sequential) (bn' : mat -> mat)
      (o : string) (h h' : heads) :
  o <> "corr"%string ->
  vid_reps h = vid_reps h' -> txt_reps h = txt_reps h' ->
  forward_return (with_vid_projector s vp bn') o h = forward_return s o h'.
Proof.
  intros Ho E1 E2. unfold forward_return. apply String.eqb_neq in Ho.
  rewrite Ho, E1, E2. destruct s. reflexivity.
Qed.

Lemma forward_encode_video_features_t (s : self) (inp : inputs)
      (ft : dict (list (list R))) (b : nat) (p : prepared) :
  pos_enc s <> "tint"%string ->
  forward_encode_video s b p (with_features_t inp ft)
  = forward_encode_video s b p inp.
Proof.
  intros Hp. apply String.eqb_neq in Hp.
  unfold forward_encode_video, video_token_lists. rewrite Hp. reflexivity.
Qed.

End ForwardReads.

(** X27: the projection head and the batch norm reach the output of
    [forward] only for [out='corr']: for every other value of [out] the two
    projections are computed and discarded, so that two models that differ
    only in [vid_projector] and [bn] (layers taken as functions of their
    input) give the same result on every input. *)
Theorem projection_head_only_reaches_corr
        (s : MMTwins.self) (vp : MMTwins.Sequential)
        (bn' : list (list R) -> list (list R)) (inp : MMTwins.inputs) :
  MMTwins.out inp <> "corr"%string ->
  MMTwins.forward (with_vid_projector s vp bn') inp = MMTwins.forward s inp.
Proof.
  intros Ho. unfold MMTwins.forward.
  rewrite forward_locals_vid_projector.
  destruct (MMTwins.forward_locals s inp) as [l|e]; [|reflexivity].
  cbn [Py.bind]. unfold MMTwins.forward_heads.
  destruct (MMTwins.l_vid_avg l) as [va|]; [|reflexivity].
  destruct (MMTwins.l_text_avg l) as [ta|]; [|reflexivity].
  cbn [Py.local Py.bind Py.ret]. f_equal.
  apply forward_return_reads; [exact Ho | destruct s; reflexivity ..].
Qed.

Lemma projection_head_only_reaches_corr_witness :
  MMTwins.forward (with_vid_projector MMTwins.demo_self [MMTwins.ReLULayer]
                                      (fun _ => []))
                  MMTwins.demo_inputs
  = MMTwins.forward MMTwins.demo_self MMTwins.demo_inputs.
Proof.
  apply projection_head_only_reaches_corr. discriminate.
Defined.

(** X29: [features_t] is read only for the position encoding ['tint']:
    with any other [pos_enc], [forward] returns the same result, or raises
    the same exception, whatever is passed as [features_t]. *)
Theorem features_t_read_only_for_tint
        (s : MMTwins.self) (inp : MMTwins.inputs)
        (ft : Py.dict (list (list R))) :
  MMTwins.pos_enc s <> "tint"%string ->
  MMTwins.forward s (with_features_t inp ft) = MMTwins.forward s inp.
Proof.
  intros Hp. unfold MMTwins.forward, MMTwins.forward_locals.
  change (MMTwins.forward_prepare s (with_features_t inp ft))
    with (MMTwins.forward_prepare s inp).
  cbn [with_features_t MMTwins.token_ids MMTwins.out].
  destruct (MMTwins.forward_prepare s inp) as [p|e]; [|reflexivity].
  cbn [Py.bind].
  rewrite (forward_encode_video_features_t s inp ft _ p Hp).
  reflexivity.
Qed.

Lemma features_t_read_only_for_tint_witness :
  MMTwins.forward MMTwins.demo_self (with_features_t MMTwins.demo_inputs [])
  = MMTwins.forward MMTwins.demo_self MMTwins.demo_inputs.
Proof.
  apply features_t_read_only_for_tint. discriminate.
Defined.

(** ** compare.py *)

Lemma INR_n_last_epoch : INR Compare.n_last_epoch = 10.
Proof. unfold Compare.n_last_epoch. simpl. lra. Qed.

(** X30: the number [compare.py] prints for a metric is the mean of its
    last ten scores only when at least ten were logged; with fewer, it is
    their sum divided by ten, that is their mean scaled down by
    [len / 10], and 0 when none was logged. *)
Theorem reported_average_of_last_epochs (scores : list R) :
  ((10 <= length scores)%nat ->
   Compare.reported scores
   = Torch.mean_vec (skipn (length scores - 10) scores)) /\
  ((length scores < 10)%nat ->
   Compare.reported scores = Torch.sum scores / 10 /\
   (scores <> [] ->
    Compare.reported scores
    = Torch.mean_vec scores * (INR (length scores) / 10))) /\
  Compare.reported [] = 0.
Proof.
  unfold Compare.reported, Compare.last_slice. rewrite INR_n_last_epoch.
  change (Nat.eqb Compare.n_last_epoch 0) with false. cbv iota.
  unfold Compare.n_last_epoch. split; [|split].
  - intros Hl. unfold Torch.mean_vec. rewrite length_skipn.
    replace (length scores - (length scores - 10))%nat with 10%nat by lia.
    change (INR 10) with (INR Compare.n_last_epoch).
    rewrite INR_n_last_epoch. reflexivity.
  - intros Hl.
    replace (length scores - 10)%nat with 0%nat by lia. cbn [skipn].
    split; [reflexivity|]. intros Hne. unfold Torch.mean_vec.
    assert (0 < INR (length scores)).
    { apply lt_0_INR. destruct scores; [contradiction | simpl; lia]. }
    field. lra.
  - simpl. lra.
Qed.
